(** * GiNaC tensors and Clifford algebra: contraction, normalisation, traces

    A shallow embedding of [ginac/tensor.cpp] and [ginac/clifford.cpp]:
    the evaluation rules of the special tensors, the contraction rules of
    the tensors and of the Dirac gammas, the automatic simplification of
    non-commutative products of Clifford objects, the canonical ordering
    and the trace.

    Expressions are kept as they are written by the C++ operators: a sum
    [a + b] is the node [add [a; b]], a product the node [mul [a; b]].
    The automatic evaluation that GiNaC runs when an expression is
    stored (collecting like terms, dropping factors 1, ordering operands)
    belongs to files that are not modelled here; where a statement needs
    the value of a scalar expression it goes through [denote].

    The archive in which the objects of these classes are stored
    ([ginac/archive.cpp]) and the symbols ([ginac/symbol.cpp]) follow in
    the modules [Archive] and [Symbol]. *)

From Stdlib Require Import ZArith NArith Lia Ascii String.
From stdpp Require Import base list strings numbers.

Set Warnings "-register-all".
Local Open Scope Z_scope.

(** ** Indices (idx.h)

    An index has a value (a symbol or an integer), a dimension (a symbol
    or an integer) and belongs to one of the classes [idx], [varidx]
    (with a variance) or [spinidx] (a [varidx] with a dot). *)

Inductive idx_value : Type :=
| sym_value (name : string)
| int_value (n : Z).

Inductive dimension : Type :=
| sym_dim (name : string)
| num_dim (n : Z).

Inductive idx_class : Type :=
| class_idx
| class_varidx (covariant : bool)
| class_spinidx (covariant : bool) (dotted : bool).

Record idx : Type := mk_idx {
  get_value : idx_value;
  get_dim : dimension;
  get_class : idx_class
}.

#[global] Instance idx_value_eq_dec : EqDecision idx_value.
Proof. solve_decision. Defined.
#[global] Instance dimension_eq_dec : EqDecision dimension.
Proof. solve_decision. Defined.
#[global] Instance idx_class_eq_dec : EqDecision idx_class.
Proof. solve_decision. Defined.
#[global] Instance idx_eq_dec : EqDecision idx.
Proof. solve_decision. Defined.
#[global] Instance idx_inhabited : Inhabited idx :=
  populate (mk_idx (int_value 0) (num_dim 0) class_idx).

(** [idx::is_symbolic]: the value is not a number. *)
Definition is_symbolic (i : idx) : bool :=
  match get_value i with sym_value _ => true | int_value _ => false end.

(** [is_ex_of_type(x, varidx)]: [spinidx] derives from [varidx]. *)
Definition is_varidx (i : idx) : bool :=
  match get_class i with class_idx => false | _ => true end.

Definition is_spinidx (i : idx) : bool :=
  match get_class i with class_spinidx _ _ => true | _ => false end.

(** [varidx::is_covariant]. *)
Definition is_covariant (i : idx) : bool :=
  match get_class i with
  | class_idx => false
  | class_varidx c => c
  | class_spinidx c _ => c
  end.

(** [varidx::toggle_variance]: identity and dimension are kept. *)
Definition toggle_variance (i : idx) : idx :=
  match get_class i with
  | class_idx => i
  | class_varidx c => mk_idx (get_value i) (get_dim i) (class_varidx (negb c))
  | class_spinidx c d => mk_idx (get_value i) (get_dim i) (class_spinidx (negb c) d)
  end.

(** [idx::replace_dim]. *)
Definition replace_dim (i : idx) (new_dim : dimension) : idx :=
  mk_idx (get_value i) new_dim (get_class i).

(** [info_flags::nonnegint] on the value of an index. *)
Definition value_is_nonnegint (i : idx) : bool :=
  match get_value i with int_value n => 0 <=? n | sym_value _ => false end.

(** [ex_to<numeric>(i.get_value()).to_int()], on an index with a numeric
    value. *)
Definition value_to_int (i : idx) : Z :=
  match get_value i with int_value n => n | sym_value _ => 0 end.

(** ** Expressions

    The classes of tensor.h and clifford.h that can stand as the base
    object of an indexed expression, and the expression tree. *)

Inductive tensor : Type :=
| tensdelta
| tensmetric
| minkmetric (pos_sig : bool)
| spinmetric
| tensepsilon (minkowski : bool) (pos_sig : bool).

Inductive diracbase : Type :=
| diracone
| diracgamma
| diracgamma5.

Inductive ex : Type :=
| numeric (n : Z)
| imag_unit
| symbol (name : string)
| indexed (base : tensor) (ix : list idx)
| clifford (base : diracbase) (ix : list idx) (representation_label : Z)
| add (ops : list ex)
| mul (ops : list ex)
| ncmul (ops : list ex).

#[global] Instance ex_inhabited : Inhabited ex := populate (numeric 0).

Definition _ex0 : ex := numeric 0.
Definition _ex1 : ex := numeric 1.
Definition _ex2 : ex := numeric 2.
Definition _ex_1 : ex := numeric (-1).
Definition _ex_2 : ex := numeric (-2).

(** The arithmetic operators of operators.cpp, as the nodes they build. *)
Definition ex_add (a b : ex) : ex := add [a; b].
Definition ex_mul (a b : ex) : ex := mul [a; b].
Definition ex_neg (a : ex) : ex := mul [a; _ex_1].
Definition ex_sub (a b : ex) : ex := add [a; mul [b; _ex_1]].

Declare Scope ex_scope.
Delimit Scope ex_scope with ex.
Bind Scope ex_scope with ex.
Notation "a + b" := (ex_add a b) : ex_scope.
Notation "a * b" := (ex_mul a b) : ex_scope.
Notation "a - b" := (ex_sub a b) : ex_scope.
Notation "- a" := (ex_neg a) : ex_scope.

(** The dimension of an index as an expression. *)
Definition ex_of_dim (d : dimension) : ex :=
  match d with sym_dim s => symbol s | num_dim n => numeric n end.

(** The value of a scalar expression in the integers, every node other
    than a number, a sum or a product being an unknown [rho] assigns.
    Two expressions with the same value under every [rho] are equal as
    polynomials in their atoms, which is what GiNaC's [is_zero] of the
    expanded difference decides. *)
Fixpoint denote (rho : ex -> Z) (e : ex) : Z :=
  match e with
  | numeric n => n
  | add ops => foldr (fun x acc => denote rho x + acc) 0 ops
  | mul ops => foldr (fun x acc => denote rho x * acc) 1 ops
  | _ => rho e
  end.

(** ** Exceptions

    A function that can throw returns a [result]. *)

Inductive exception : Type :=
| invalid_argument (what : string)
| runtime_error (what : string)
| out_of_range (what : string)
| length_error (what : string)
| recursion_limit.

Inductive result (A : Type) : Type :=
| ok (a : A)
| throw (e : exception).
Arguments ok {A} a.
Arguments throw {A} e.

#[global] Instance result_ret : MRet result := fun _ a => ok a.
#[global] Instance result_bind : MBind result := fun _ _ f m =>
  match m with ok a => f a | throw e => throw e end.
#[global] Instance result_fmap : FMap result := fun _ _ f m =>
  match m with ok a => ok (f a) | throw e => throw e end.

(** [mapM] on [result], written out so that it can be used on the
    operands of a node. *)
Definition result_map {A B : Type} (f : A -> result B) : list A -> result (list B) :=
  fix go (l : list A) : result (list B) :=
    match l with
    | [] => ok []
    | x :: r => y ← f x; ys ← go r; ok (y :: ys)
    end.

(** ** Operands

    [indices e] are the operands [e.op(1)], [e.op(2)], ... of an indexed
    object; [op1 e] is [e.op(1)], which does not exist on an object
    without indices (an out-of-bounds read in the C++). *)

Definition indices (e : ex) : list idx :=
  match e with
  | indexed _ ix => ix
  | clifford _ ix _ => ix
  | _ => []
  end.

Definition op1 (e : ex) : result idx :=
  match indices e with
  | i :: _ => ok i
  | [] => throw (out_of_range "op(1)")
  end.

Definition is_clifford (e : ex) : bool :=
  match e with clifford _ _ _ => true | _ => false end.

(** [is_ex_of_type(e.op(0), diracone)] and its siblings. *)
Definition op0_is_diracone (e : ex) : bool :=
  match e with clifford diracone _ _ => true | _ => false end.
Definition op0_is_diracgamma (e : ex) : bool :=
  match e with clifford diracgamma _ _ => true | _ => false end.
Definition op0_is_diracgamma5 (e : ex) : bool :=
  match e with clifford diracgamma5 _ _ => true | _ => false end.
Definition op0_is_tensdelta (e : ex) : bool :=
  match e with indexed tensdelta _ => true | _ => false end.
Definition op0_is_spinmetric (e : ex) : bool :=
  match e with indexed spinmetric _ => true | _ => false end.
Definition op0_is_tensepsilon (e : ex) : bool :=
  match e with indexed (tensepsilon _ _) _ => true | _ => false end.

(** Modelled from the spec: [ex::subs] with one relation between indices
    (the substitution code is not part of the sources): "substitution of
    one index for another inside an arbitrary expression". *)
Fixpoint subs_idx (from to : idx) (e : ex) : ex :=
  let s := fun i : idx => if decide (i = from) then to else i in
  match e with
  | indexed b ix => indexed b (map s ix)
  | clifford b ix rl => clifford b (map s ix) rl
  | add ops => add (map (subs_idx from to) ops)
  | mul ops => mul (map (subs_idx from to) ops)
  | ncmul ops => ncmul (map (subs_idx from to) ops)
  | _ => e
  end.

(** Modelled from the spec: [permutation_sign] of utils.h (not part of
    the sources): "sign of the permutation mapping (0,...,n-1) to the
    given values, 0 if any repeat". The sign is the parity of the number
    of inversions. *)
Fixpoint inversions (v : list Z) : nat :=
  match v with
  | [] => 0
  | x :: r => (length (filter (fun y => (y <? x)%Z) r) + inversions r)%nat
  end.

Fixpoint has_repeat (v : list Z) : bool :=
  match v with
  | [] => false
  | x :: r => existsb (Z.eqb x) r || has_repeat r
  end.

Definition permutation_sign (v : list Z) : Z :=
  if has_repeat v then 0
  else if Nat.even (inversions v) then 1 else -1.

(** ** tensor.cpp: constructors of the special tensors *)

(** [delta_tensor]: the arguments of the model are indices, so the
    check that they are of type [idx] cannot fail. *)
Definition delta_tensor (i1 i2 : idx) : ex := indexed tensdelta [i1; i2].

Definition metric_tensor (i1 i2 : idx) : result ex :=
  if negb (is_varidx i1) || negb (is_varidx i2) then
    throw (invalid_argument "indices of metric tensor must be of type varidx")
  else ok (indexed tensmetric [i1; i2]).

Definition lorentz_g (i1 i2 : idx) (pos_sig : bool) : result ex :=
  if negb (is_varidx i1) || negb (is_varidx i2) then
    throw (invalid_argument "indices of metric tensor must be of type varidx")
  else ok (indexed (minkmetric pos_sig) [i1; i2]).

Definition spinor_metric (i1 i2 : idx) : result ex :=
  if negb (is_spinidx i1) || negb (is_spinidx i2) then
    throw (invalid_argument "indices of spinor metric must be of type spinidx")
  else if negb (bool_decide (get_dim i1 = num_dim 2))
          || negb (bool_decide (get_dim i2 = num_dim 2)) then
    throw (runtime_error "index dimension for spinor metric must be 2")
  else ok (indexed spinmetric [i1; i2]).

Definition epsilon_tensor2 (i1 i2 : idx) : result ex :=
  if negb (bool_decide (get_dim i1 = get_dim i2)) then
    throw (invalid_argument "all indices of epsilon tensor must have the same dimension")
  else if negb (bool_decide (get_dim i1 = num_dim 2)) then
    throw (runtime_error "index dimension of epsilon tensor must match number of indices")
  else ok (indexed (tensepsilon false false) [i1; i2]).

Definition epsilon_tensor3 (i1 i2 i3 : idx) : result ex :=
  if negb (bool_decide (get_dim i1 = get_dim i2))
     || negb (bool_decide (get_dim i1 = get_dim i3)) then
    throw (invalid_argument "all indices of epsilon tensor must have the same dimension")
  else if negb (bool_decide (get_dim i1 = num_dim 3)) then
    throw (runtime_error "index dimension of epsilon tensor must match number of indices")
  else ok (indexed (tensepsilon false false) [i1; i2; i3]).

Definition lorentz_eps (i1 i2 i3 i4 : idx) (pos_sig : bool) : result ex :=
  if negb (is_varidx i1) || negb (is_varidx i2)
     || negb (is_varidx i3) || negb (is_varidx i4) then
    throw (invalid_argument "indices of Lorentz epsilon tensor must be of type varidx")
  else if negb (bool_decide (get_dim i1 = get_dim i2))
          || negb (bool_decide (get_dim i1 = get_dim i3))
          || negb (bool_decide (get_dim i1 = get_dim i4)) then
    throw (invalid_argument "all indices of epsilon tensor must have the same dimension")
  else if negb (bool_decide (get_dim i1 = num_dim 4)) then
    throw (runtime_error "index dimension of epsilon tensor must match number of indices")
  else ok (indexed (tensepsilon true pos_sig) [i1; i2; i3; i4]).

(** Modelled from the spec: [eps0123], which clifford.cpp calls and
    tensor.cpp of these sources no longer defines: the Minkowski epsilon
    tensor of four [varidx], "Epsilon(idx0,idx1,idx2,idx3)", without the
    requirement that the dimension is 4. *)
Definition eps0123 (i1 i2 i3 i4 : idx) : result ex :=
  if negb (is_varidx i1) || negb (is_varidx i2)
     || negb (is_varidx i3) || negb (is_varidx i4) then
    throw (invalid_argument "indices of epsilon tensor must be of type varidx")
  else ok (indexed (tensepsilon true false) [i1; i2; i3; i4]).

(** ** tensor.cpp: evaluation and contraction rules

    The primitives of idx.cpp and the determinant of matrix.cpp are
    collaborators of these rules: the rules are stated over any
    implementation of them. [minimal_dim] throws when the dimensions of
    the two indices cannot be ordered. *)

Section Tensors.

Variable is_dummy_pair : idx -> idx -> bool.
Variable minimal_dim : idx -> idx -> result dimension.
Variable determinant_simplify_indexed : list (list ex) -> ex.

(** Modelled from the spec: [indexed::get_dummy_indices] (indexed.cpp is
    not part of the sources), "dummy-pair detection" inside one index
    list: the indices that form a dummy pair with a later index of the
    list. *)
Fixpoint get_dummy_indices (ix : list idx) : list idx :=
  match ix with
  | [] => []
  | i :: r =>
      if existsb (fun j => is_dummy_pair i j || is_dummy_pair j i) r
      then i :: get_dummy_indices r
      else get_dummy_indices r
  end.

(** [indexed::all_index_values_are]. *)
Definition all_index_values_are_nonnegint (ix : list idx) : bool :=
  forallb value_is_nonnegint ix.

Definition all_index_values_are_integer (ix : list idx) : bool :=
  forallb (fun i => negb (is_symbolic i)) ix.

(** [tensdelta::eval_indexed]. An object that has not two indices breaks
    the assertion of the C++ and is held. *)
Definition tensdelta_eval_indexed (i : ex) : ex :=
  match indices i with
  | [i1; i2] =>
      if is_dummy_pair i1 i2 then
        match minimal_dim i1 i2 with
        | ok d => ex_of_dim d
        | throw _ => i
        end
      else if all_index_values_are_integer [i1; i2] then
        if value_to_int i1 =? value_to_int i2 then _ex1 else _ex0
      else i
  | _ => i
  end.

(** [tensmetric::eval_indexed]; here [minimal_dim] is not guarded. *)
Definition tensmetric_eval_indexed (i : ex) : result ex :=
  match indices i with
  | [i1; i2] =>
      if negb (bool_decide (get_dim i1 = get_dim i2)) then
        min_dim ← minimal_dim i1 i2;
        ok (subs_idx i2 (replace_dim i2 min_dim)
              (subs_idx i1 (replace_dim i1 min_dim) i))
      else if negb (Bool.eqb (is_covariant i1) (is_covariant i2)) then
        ok (delta_tensor i1 i2)
      else ok i
  | _ => ok i
  end.

(** [minkmetric::eval_indexed]. *)
Definition minkmetric_eval_indexed (pos_sig : bool) (i : ex) : result ex :=
  match indices i with
  | [i1; i2] =>
      if all_index_values_are_nonnegint [i1; i2] then
        let n1 := value_to_int i1 in
        let n2 := value_to_int i2 in
        if negb (n1 =? n2) then ok _ex0
        else if n1 =? 0 then ok (if pos_sig then _ex_1 else _ex1)
        else ok (if pos_sig then _ex1 else _ex_1)
      else tensmetric_eval_indexed i
  | _ => ok i
  end.

(** [spinmetric::eval_indexed]. *)
Definition spinmetric_eval_indexed (i : ex) : ex :=
  if negb (bool_decide (get_dummy_indices (indices i) = [])) then _ex0
  else
    match indices i with
    | [i1; i2] =>
        if all_index_values_are_nonnegint [i1; i2] then
          let n1 := value_to_int i1 in
          let n2 := value_to_int i2 in
          if n1 =? n2 then _ex0
          else if n1 <? n2 then _ex1
          else _ex_1
        else i
    | _ => i
    end.

(** The loop of [tensepsilon::eval_indexed] over the indices of an
    epsilon tensor in Minkowski space: a covariant index changes the
    sign according to its value and the signature. *)
Fixpoint minkowski_sign (pos_sig : bool) (ix : list idx) (sign : Z) : result Z :=
  match ix with
  | [] => ok sign
  | x :: r =>
      if negb (is_varidx x) then
        throw (runtime_error
          "indices of epsilon tensor in Minkowski space must be of type varidx")
      else if is_covariant x then
        if negb (is_symbolic x) && (value_to_int x =? 0)
        then minkowski_sign pos_sig r (if pos_sig then - sign else sign)
        else minkowski_sign pos_sig r (if pos_sig then sign else - sign)
      else minkowski_sign pos_sig r sign
  end.

(** [tensepsilon::eval_indexed]. *)
Definition tensepsilon_eval_indexed (minkowski pos_sig : bool) (i : ex) : result ex :=
  if negb (bool_decide (get_dummy_indices (indices i) = [])) then ok _ex0
  else if all_index_values_are_nonnegint (indices i) then
    let v := map value_to_int (indices i) in
    let sign := permutation_sign v in
    if minkowski then
      sign' ← minkowski_sign pos_sig (indices i) sign;
      ok (numeric sign')
    else ok (numeric sign)
  else ok i.

(** One attempt of [tensor::replace_contr_index] (the code between the
    label [again] and the test of [first_index_tried]): [None] when the
    attempt falls through. The search stops at the first index of
    [other] that pairs with [self_idx]; the exception of [minimal_dim]
    is caught and answered by "no contraction". *)
Definition try_contr_index (self_idx free_idx : idx) (self other : ex)
  : option (bool * (ex * ex)) :=
  if is_symbolic self_idx then
    match List.find (is_dummy_pair self_idx) (indices other) with
    | Some other_idx =>
        match minimal_dim self_idx other_idx with
        | ok min_dim =>
            Some (true, (_ex1, subs_idx other_idx (replace_dim free_idx min_dim) other))
        | throw _ => Some (false, (self, other))
        end
    | None => None
    end
  else None.

(** [tensor::replace_contr_index]: the answer and the new [*self] and
    [*other]. *)
Definition replace_contr_index (self other : ex) : result (bool * (ex * ex)) :=
  match indices self with
  | [i1; i2] =>
      match try_contr_index i1 i2 self other with
      | Some r => ok r
      | None =>
          match try_contr_index i2 i1 self other with
          | Some r => ok r
          | None => ok (false, (self, other))
          end
      end
  | _ => ok (false, (self, other))
  end.

(** [tensdelta::contract_with]. *)
Definition tensdelta_contract_with (self other : ex) : result (bool * (ex * ex)) :=
  replace_contr_index self other.

(** [tensmetric::contract_with], which [minkmetric] inherits. *)
Definition tensmetric_contract_with (self other : ex) : result (bool * (ex * ex)) :=
  if op0_is_tensdelta other then ok (false, (self, other))
  else replace_contr_index self other.

(** One attempt of the second half of [spinmetric::contract_with]. *)
Definition spin_try_contr_index (self_idx free_idx : idx) (sign : Z) (self other : ex)
  : option (bool * (ex * ex)) :=
  if is_symbolic self_idx then
    match List.find (is_dummy_pair self_idx) (indices other) with
    | Some other_idx =>
        Some (true, (numeric (if is_covariant self_idx then sign else - sign),
                     subs_idx other_idx free_idx other))
    | None => None
    end
  else None.

(** [spinmetric::contract_with]. *)
Definition spinmetric_contract_with (self other : ex) : result (bool * (ex * ex)) :=
  match indices self with
  | [self_i1; self_i2] =>
      let general :=
        if op0_is_tensdelta other then ok (false, (self, other))
        else
          match spin_try_contr_index self_i1 self_i2 1 self other with
          | Some r => ok r
          | None =>
              match spin_try_contr_index self_i2 self_i1 (-1) self other with
              | Some r => ok r
              | None => ok (false, (self, other))
              end
          end in
      if op0_is_spinmetric other then
        match indices other with
        | [other_i1; other_i2] =>
            if is_dummy_pair self_i1 other_i1 then
              if is_dummy_pair self_i2 other_i2
              then ok (true, (_ex2, _ex1))
              else ok (true, (delta_tensor self_i2 other_i2, _ex1))
            else if is_dummy_pair self_i1 other_i2 then
              if is_dummy_pair self_i2 other_i1
              then ok (true, (_ex_2, _ex1))
              else ok (true, ((- delta_tensor self_i2 other_i1)%ex, _ex1))
            else if is_dummy_pair self_i2 other_i1 then
              ok (true, ((- delta_tensor self_i1 other_i2)%ex, _ex1))
            else if is_dummy_pair self_i2 other_i2 then
              ok (true, (delta_tensor self_i1 other_i1, _ex1))
            else general
        | _ => general
        end
      else general
  | _ => ok (false, (self, other))
  end.

(** The matrix of [tensepsilon::contract_with]. *)
Definition epsilon_matrix_entry (minkowski pos_sig variance : bool) (si oj : idx)
  : result ex :=
  if minkowski then lorentz_g si oj pos_sig
  else if variance then metric_tensor si oj
  else ok (delta_tensor si oj).

(** [tensepsilon::contract_with]. *)
Definition tensepsilon_contract_with (minkowski pos_sig : bool) (self other : ex)
  : result (bool * (ex * ex)) :=
  let num := length (indices self) in
  if op0_is_tensepsilon other && (length (indices other) =? num)%nat then
    let variance := match indices self with i1 :: _ => is_varidx i1 | [] => false end in
    M ← result_map (fun si =>
           result_map (fun oj => epsilon_matrix_entry minkowski pos_sig variance si oj)
                      (indices other))
         (indices self);
    let sign := if minkowski then -1 else 1 in
    ok (true, ((numeric sign * determinant_simplify_indexed M)%ex, _ex1))
  else ok (false, (self, other)).

End Tensors.

(** ** Commutativity and expansion

    Modelled from the spec: whether [return_type] is other than
    commutative (basic.h declares it, the classes that override it are
    not part of the sources): Clifford objects are the non-commutative
    atoms, a product does not commute when one of its factors does not,
    a sum follows its first term. *)
Fixpoint is_noncommutative (e : ex) : bool :=
  match e with
  | clifford _ _ _ => true
  | mul ops => existsb is_noncommutative ops
  | ncmul ops => existsb is_noncommutative ops
  | add ops => match ops with x :: _ => is_noncommutative x | [] => false end
  | _ => false
  end.

Definition is_ncmul (e : ex) : bool :=
  match e with ncmul _ => true | _ => false end.

Definition summands (e : ex) : list ex :=
  match e with add ops => ops | _ => [e] end.

(** Every way of picking one summand in each factor, in order. *)
Fixpoint distribute (factors : list (list ex)) : list (list ex) :=
  match factors with
  | [] => [[]]
  | f :: r => concat (map (fun x => map (cons x) (distribute r)) f)
  end.

(** Modelled from the spec: [ex::expand] (ncmul.cpp, mul.cpp and add.cpp
    are not part of the sources), "expand first if not fully multiplied
    out": products are multiplied out over the sums among their factors;
    a product without a sum among its factors is returned as it is. *)
Fixpoint expand (e : ex) : ex :=
  match e with
  | add ops => add (concat (map (fun x => summands (expand x)) ops))
  | mul ops =>
      match distribute (map (fun x => summands (expand x)) ops) with
      | [w] => mul w
      | ws => add (map mul ws)
      end
  | ncmul ops =>
      match distribute (map (fun x => summands (expand x)) ops) with
      | [w] => ncmul w
      | ws => add (map ncmul ws)
      end
  | _ => e
  end.

(** ** clifford.cpp *)

Definition dirac_ONE (rl : Z) : ex := clifford diracone [] rl.

Definition dirac_gamma (mu : idx) (rl : Z) : result ex :=
  if negb (is_varidx mu) then
    throw (invalid_argument "index of Dirac gamma must be of type varidx")
  else ok (clifford diracgamma [mu] rl).

Definition dirac_gamma5 (rl : Z) : ex := clifford diracgamma5 [] rl.

Definition dirac_gamma6 (rl : Z) : ex := (dirac_ONE rl + dirac_gamma5 rl)%ex.

Definition dirac_gamma7 (rl : Z) : ex := (dirac_ONE rl - dirac_gamma5 rl)%ex.

(** [get_representation_label] of a Clifford object. *)
Definition get_representation_label (e : ex) : result Z :=
  match e with
  | clifford _ _ rl => ok rl
  | _ => throw (invalid_argument "not a clifford object")
  end.

(** The elements [v[a]], ..., [v[b-1]] of a vector. *)
Definition between (a b : nat) (v : list ex) : list ex := take (b - a) (drop a v).

(** The vector with the elements [v[a]], ..., [v[b-1]] overwritten by 1. *)
Definition fill_ones (a b : nat) (v : list ex) : list ex :=
  take a v ++ replicate (length (between a b v)) _ex1 ++ drop (a + length (between a b v)) v.

(** [diracgamma::contract_with(self, other, v)]: the iterators are
    positions of [v], and the answer comes with the vector as the call
    leaves it. The caller passes a Clifford object at [self] and a later
    position [other]; anything else breaks the assertions of the C++. *)
Definition diracgamma_contract_with (self other : nat) (v : list ex)
  : result (bool * list ex) :=
  match v !! self, v !! other with
  | Some eself, Some eother =>
      if (other <=? self)%nat then throw (out_of_range "other does not follow self")
      else
        rl ← get_representation_label eself;
        if is_clifford eother then
          mu ← op1 eself;
          let dim := ex_of_dim (get_dim mu) in
          let self1 := v !!! (self + 1)%nat in
          let self2 := v !!! (self + 2)%nat in
          if (other - self =? 1)%nat then
            ok (true, <[other := dirac_ONE rl]> (<[self := dim]> v))
          else if (other - self =? 2)%nat && is_clifford self1 then
            ok (true, <[other := _ex1]> (<[self := (_ex2 - dim)%ex]> v))
          else if (other - self =? 3)%nat && is_clifford self1 && is_clifford self2 then
            a ← op1 self1;
            b ← op1 self2;
            g ← lorentz_g a b false;
            ok (true,
                <[other := _ex1]>
                  (<[(self + 2)%nat := _ex1]>
                     (<[(self + 1)%nat := _ex1]>
                        (<[self := (numeric 4 * g * dirac_ONE rl
                                    + (dim - numeric 4) * self1 * self2)%ex]> v))))
          else
            let next_to_last := (other - 1)%nat in
            if negb (forallb is_clifford (between (self + 1) other v)) then ok (false, v)
            else
              let S := foldl ex_mul _ex1 (between (self + 1) next_to_last v) in
              let last := v !!! next_to_last in
              ok (true,
                  <[other := _ex1]>
                    (<[next_to_last := _ex1]>
                       (<[self := (_ex2 * last * S - eself * S * eother * last)%ex]>
                          (fill_ones (self + 1) next_to_last v))))
        else ok (false, v)
  | _, _ => throw (out_of_range "iterator")
  end.

(** *** Automatic simplification of a product of Clifford objects *)

(** The state of [clifford::simplify_ncmul] while gamma5's are moved:
    the vector [s], [sign] and [something_changed]. *)
Definition swap_step (it : nat) (st : list ex * Z * bool) : list ex * Z * bool :=
  let '(s, sign, something_changed) := st in
  match s !! it, s !! (S it) with
  | Some a, Some b =>
      if negb (op0_is_diracgamma5 a) && op0_is_diracgamma5 b
      then (<[S it := a]> (<[it := b]> s), - sign, true)
      else st
  | _, _ => st
  end.

(** The inner loop: [it] runs from [next_to_last] down to [first]. *)
Fixpoint inner_sweep (it : nat) (st : list ex * Z * bool) : list ex * Z * bool :=
  let st' := swap_step it st in
  match it with
  | O => st'
  | S it' => inner_sweep it' st'
  end.

(** The outer loop: [next_to_last] runs from [s.end() - 2] down to
    [first]. *)
Fixpoint outer_sweep (next_to_last : nat) (st : list ex * Z * bool) : list ex * Z * bool :=
  let st' := inner_sweep next_to_last st in
  match next_to_last with
  | O => st'
  | S n => outer_sweep n st'
  end.

Definition anticommute_gamma5 (s : list ex) : list ex * Z * bool :=
  if (2 <=? length s)%nat then outer_sweep (length s - 2) (s, 1, false)
  else (s, 1, false).

(** "Remove squares of gamma5": the vector and whether a pair went. *)
Fixpoint remove_gamma5_squares (s : list ex) : list ex * bool :=
  match s with
  | a :: b :: r =>
      if op0_is_diracgamma5 a && op0_is_diracgamma5 b
      then (fst (remove_gamma5_squares r), true)
      else (s, false)
  | _ => (s, false)
  end.

(** "Remove equal adjacent gammas", one position of the loop. *)
Definition merge_step (rl : Z) (st : list ex * bool) (it : nat) : result (list ex * bool) :=
  let '(s, something_changed) := st in
  let a := s !!! it in
  let b := s !!! (S it) in
  if op0_is_diracgamma a && op0_is_diracgamma b then
    ia ← op1 a;
    ib ← op1 b;
    if bool_decide (ia = ib) then
      g ← lorentz_g ia ib false;
      ok (<[S it := dirac_ONE rl]> (<[it := g]> s), true)
    else ok st
  else ok st.

Fixpoint result_foldl {A B : Type} (f : A -> B -> result A) (a : A) (l : list B) : result A :=
  match l with
  | [] => ok a
  | x :: r => a' ← f a x; result_foldl f a' r
  end.

Definition remove_equal_adjacent (rl : Z) (st : list ex * bool) : result (list ex * bool) :=
  if (2 <=? length st.1)%nat
  then result_foldl (merge_step rl) st (seq 0 (length st.1 - 1))
  else ok st.

(** What [clifford::simplify_ncmul] returns: the identity, a product that
    is evaluated again, or a product that is final, each with its sign. *)
Inductive simplified : Type :=
| ONE_times (sign : Z)
| nonsimplified_ncmul (s : list ex) (sign : Z)
| simplified_ncmul (s : list ex) (sign : Z).

(** [clifford::simplify_ncmul], on the object whose label is [rl]. *)
Definition simplify_ncmul (rl : Z) (v : list ex) : result simplified :=
  let s := List.filter (fun x => negb (op0_is_diracone x)) v in
  let '(s, sign, something_changed) := anticommute_gamma5 s in
  let '(s, squares) := remove_gamma5_squares s in
  st ← remove_equal_adjacent rl (s, something_changed || squares);
  let s := st.1 in
  let something_changed : bool := st.2 in
  if (length s =? 0)%nat then ok (ONE_times sign)
  else if something_changed then ok (nonsimplified_ncmul s sign)
  else ok (simplified_ncmul s sign).

(** Modelled from the spec: the re-evaluation of a product that
    [simplify_ncmul] returned as not simplified ([ncmul::eval] is not
    part of the sources): "if any rule fired, re-run the whole normalizer
    on the result; otherwise return the word, multiplied by the
    accumulated sign". Commuting factors are pulled out of the product,
    and a product of one factor is that factor. The answer is the sign,
    the commuting factors and the Clifford word. *)
Fixpoint eval_ncmul (fuel : nat) (rl : Z) (v : list ex) : result (Z * list ex * list ex) :=
  match fuel with
  | O => throw recursion_limit
  | S fuel' =>
      r ← simplify_ncmul rl v;
      match r with
      | ONE_times sign => ok (sign, [], [dirac_ONE rl])
      | simplified_ncmul s sign => ok (sign, [], s)
      | nonsimplified_ncmul s sign =>
          let scalars := List.filter (fun x => negb (is_noncommutative x)) s in
          let word := List.filter is_noncommutative s in
          match word with
          | [] | [_] => ok (sign, scalars, word)
          | _ =>
              r' ← eval_ncmul fuel' rl word;
              ok (sign * r'.1.1, scalars ++ r'.1.2, r'.2)
          end
      end
  end.

(** *** Traces and the canonical order

    The type keys of tinfos.h and the canonical order of expressions
    ([ex::compare]) are collaborators: [TINFO_clifford] is the key of the
    class [clifford], [tinfo_key] the key of every other object, and
    [idx_compare] the order of two indices. *)

Section Clifford.

Variable TINFO_clifford : Z.
Variable tinfo_key : ex -> Z.
Variable idx_compare : idx -> idx -> Z.

(** Modelled from the spec: [return_type_tinfo] (declared in basic.h,
    overridden in files that are not part of the sources): the
    "representation label" tag of a Clifford object is the key of its
    class plus its label; a product answers for its first
    non-commutative factor, a sum for its first term. *)
Fixpoint return_type_tinfo (e : ex) : Z :=
  match e with
  | clifford _ _ rl => TINFO_clifford + rl
  | mul ops | ncmul ops =>
      (fix first (l : list ex) : Z :=
         match l with
         | [] => tinfo_key e
         | y :: r => if is_noncommutative y then return_type_tinfo y else first r
         end) ops
  | add ops => match ops with x :: _ => return_type_tinfo x | [] => tinfo_key e end
  | _ => tinfo_key e
  end.

(** Modelled from the spec: [return_type] (declared in basic.h,
    overridden in files that are not part of the sources). "Factors with
    different labels are defined to mutually commute and never
    interact": a product whose non-commuting factors do not all carry
    one tag is a composite, which no rule of this file touches. *)
Inductive return_types : Type :=
| commutative
| noncommutative
| noncommutative_composite.

Fixpoint return_type (e : ex) : return_types :=
  match e with
  | clifford _ _ _ => noncommutative
  | mul ops | ncmul ops =>
      (fix scan (l : list ex) (first : option Z) : return_types :=
         match l with
         | [] => match first with Some _ => noncommutative | None => commutative end
         | x :: r =>
             match return_type x with
             | noncommutative_composite => noncommutative_composite
             | noncommutative =>
                 match first with
                 | None => scan r (Some (return_type_tinfo x))
                 | Some ti =>
                     if return_type_tinfo x =? ti then scan r first
                     else noncommutative_composite
                 end
             | commutative => scan r first
             end
         end) ops None
  | add ops => match ops with x :: _ => return_type x | [] => commutative end
  | _ => commutative
  end.

Definition return_type_is_noncommutative (e : ex) : bool :=
  match return_type e with noncommutative => true | _ => false end.

(** [is_clifford_tinfo(ti, rl)]. *)
Definition is_clifford_tinfo (ti : Z) (rl : Z) : bool :=
  ti =? TINFO_clifford + rl.

(** [is_clifford_tinfo(ti)]: [ti & ~0xff] on 32 bits. *)
Definition is_clifford_tinfo_any (ti : Z) : bool :=
  Z.land ti 0xffffff00 =? TINFO_clifford.

(** The indices [ix[n]] for [n] from 1 to [num - 1] other than [i]. *)
Definition skip_first_and (i : nat) (ix : list idx) : list idx :=
  (fun n => ix !!! n) <$> List.filter (fun n => negb (n =? i)%nat) (seq 1 (length ix - 1)).

(** The loop of [trace_string] over [i], with the sign and the sum it
    carries; [rec] is the recursive call. *)
Fixpoint trace_string_loop (rec : list idx -> result ex) (ix : list idx)
    (positions : list nat) (sign : Z) (res : ex) : result ex :=
  match positions with
  | [] => ok res
  | i :: rest =>
      g ← lorentz_g (ix !!! 0%nat) (ix !!! i) false;
      t ← rec (skip_first_and i ix);
      trace_string_loop rec ix rest (- sign) (res + numeric sign * g * t)%ex
  end.

(** [trace_string(ix, num)], [num] being the length of [ix]. The depth
    of the recursion is bounded by [fuel]. A vector of less than two
    indices makes [num - 2] wrap around. *)
Fixpoint trace_string (fuel : nat) (ix : list idx) : result ex :=
  match fuel with
  | O => throw recursion_limit
  | S fuel' =>
      let num := length ix in
      if (num =? 2)%nat then lorentz_g (ix !!! 0%nat) (ix !!! 1%nat) false
      else if (num =? 4)%nat then
        g01 ← lorentz_g (ix !!! 0%nat) (ix !!! 1%nat) false;
        g23 ← lorentz_g (ix !!! 2%nat) (ix !!! 3%nat) false;
        g12 ← lorentz_g (ix !!! 1%nat) (ix !!! 2%nat) false;
        g03 ← lorentz_g (ix !!! 0%nat) (ix !!! 3%nat) false;
        g02 ← lorentz_g (ix !!! 0%nat) (ix !!! 2%nat) false;
        g13 ← lorentz_g (ix !!! 1%nat) (ix !!! 3%nat) false;
        ok (g01 * g23 + g12 * g03 - g02 * g13)%ex
      else if (num <? 2)%nat then throw (length_error "exvector v(num - 2)")
      else trace_string_loop (trace_string fuel') ix (seq 1 (num - 1)) 1 _ex0
  end.

(** The quadruples [i < j < k < l] below [num], in the order of the four
    nested loops of [dirac_trace]. *)
Definition quadruples (num : nat) : list (nat * nat * nat * nat) :=
  i ← seq 0 (num - 3);
  j ← seq (i + 1) (num - 2 - (i + 1));
  k ← seq (j + 1) (num - 1 - (j + 1));
  l ← seq (k + 1) (num - (k + 1));
  [(i, j, k, l)].

(** The trace of gamma5 times six or more gammas with the indices [ix]. *)
Definition trace_gamma5_string (fuel : nat) (ix : list idx) : result ex :=
  let num := length ix in
  result_foldl (fun res '(i, j, k, l) =>
      let others :=
        List.filter (fun n => negb ((n =? i) || (n =? j) || (n =? k) || (n =? l))%nat)
                    (seq 0 num) in
      let iv := [i; j; k; l] ++ others in
      let v := (fun n => ix !!! n) <$> others in
      let sign := permutation_sign (Z.of_nat <$> iv) in
      eps ← eps0123 (ix !!! i) (ix !!! j) (ix !!! k) (ix !!! l);
      t ← trace_string fuel v;
      ok (res + numeric sign * eps * t)%ex)
    _ex0 (quadruples num).

(** [dirac_trace(e, rl, trONE)]. The trace of the base object of an
    indexed object is 0, which makes the mapped object 0. *)
Fixpoint dirac_trace (fuel : nat) (e : ex) (rl : Z) (trONE : ex) : result ex :=
  match fuel with
  | O => throw recursion_limit
  | S fuel' =>
      match e with
      | clifford base _ rl' =>
          if (rl' =? rl) && op0_is_diracone e then ok trONE else ok _ex0
      | mul ops =>
          result_foldl (fun prod o =>
              if is_clifford_tinfo (return_type_tinfo o) rl then
                t ← dirac_trace fuel' o rl trONE; ok (prod * t)%ex
              else ok (prod * o)%ex)
            _ex1 ops
      | ncmul ops =>
          if negb (is_clifford_tinfo (return_type_tinfo e) rl) then ok _ex0
          else
            let e_expanded := expand e in
            if negb (is_ncmul e_expanded) then dirac_trace fuel' e_expanded rl trONE
            else
              let has_gamma5 := op0_is_diracgamma5 (ops !!! 0%nat) in
              let num := length ops in
              if has_gamma5 then
                if (Z.land (Z.of_nat num) 1 =? 0) || (num =? 3)%nat then ok _ex0
                else if (num =? 5)%nat then
                  i1 ← op1 (ops !!! 1%nat);
                  i2 ← op1 (ops !!! 2%nat);
                  i3 ← op1 (ops !!! 3%nat);
                  i4 ← op1 (ops !!! 4%nat);
                  eps ← eps0123 i1 i2 i3 i4;
                  ok (trONE * imag_unit * eps)%ex
                else
                  ix ← result_map op1 (drop 1 ops);
                  res ← trace_gamma5_string fuel' ix;
                  ok (trONE * imag_unit * res)%ex
              else
                if Z.land (Z.of_nat num) 1 =? 1 then ok _ex0
                else if (num =? 2)%nat then
                  i0 ← op1 (ops !!! 0%nat);
                  i1 ← op1 (ops !!! 1%nat);
                  g ← lorentz_g i0 i1 false;
                  ok (trONE * g)%ex
                else
                  iv ← result_map op1 ops;
                  t ← trace_string fuel' iv;
                  ok (trONE * t)%ex
      | add ops =>
          ops' ← result_map (fun o => dirac_trace fuel' o rl trONE) ops;
          ok (add ops')
      | indexed _ _ => ok _ex0
      | _ => ok _ex0
      end
  end.

(** The first position [it] of the bubble sort at which the index of
    [v[it]] comes after the index of [v[it+1]]. *)
Fixpoint first_unsorted (v : list ex) (positions : list nat) : result (option nat) :=
  match positions with
  | [] => ok None
  | it :: rest =>
      i0 ← op1 (v !!! it);
      i1 ← op1 (v !!! (S it));
      if 0 <? idx_compare i0 i1 then ok (Some it) else first_unsorted v rest
  end.

(** The positions the bubble sort of [canonicalize_clifford] visits. *)
Definition sort_positions (v : list ex) : list nat :=
  let start := if op0_is_diracgamma5 (v !!! 0%nat) then 1%nat else 0%nat in
  seq start (length v - 1 - start).

(** [canonicalize_clifford(e)]. [to_rational] replaces every product of
    non-commuting objects by a symbol and [subs] puts it back: the model
    walks down the sums and products of [e] to these products. [fuel]
    bounds the number of times a rewritten sum is canonicalized again. *)
Fixpoint canonicalize_clifford (fuel : nat) : ex -> result ex :=
  fix go (e : ex) : result ex :=
    match e with
    | add ops => ops' ← result_map go ops; ok (add ops')
    | mul ops => ops' ← result_map go ops; ok (mul ops')
    | ncmul v =>
        if return_type_is_noncommutative e
           && is_clifford_tinfo_any (return_type_tinfo e) then
          let rhs_expanded := expand e in
          if negb (is_ncmul rhs_expanded) then
            match fuel with
            | O => throw recursion_limit
            | S fuel' => canonicalize_clifford fuel' rhs_expanded
            end
          else if negb (is_clifford (v !!! 0%nat)) then ok e
          else
            found ← first_unsorted v (sort_positions v);
            match found with
            | None => ok e
            | Some it =>
                let save0 := v !!! it in
                let save1 := v !!! (S it) in
                i0 ← op1 save0;
                i1 ← op1 save1;
                g ← lorentz_g i0 i1 false;
                let sum := (ncmul (<[S it := _ex2]> (<[it := g]> v))
                            - ncmul (<[S it := save0]> (<[it := save1]> v)))%ex in
                match fuel with
                | O => throw recursion_limit
                | S fuel' => canonicalize_clifford fuel' sum
                end
            end
        else ok e
    | _ => ok e
    end.

End Clifford.

(** The trace of a string of gammas in the words of the specification,
    to compare [trace_string] with: for [N >= 4] indices
    "Sum over k = 2..N of (-1)^k Metric(idx1, idx_k) Trace(string with
    idx1, idx_k removed)", and "recursion bottoms out at length 2" with
    Metric(idx1, idx2). Positions count from 1 as in the specification;
    [depth] bounds the nesting and is the length of the string where the
    expansion is used. *)
Definition nth_index (ix : list idx) (k : nat) : idx := ix !!! (k - 1)%nat.

Definition remove_first_and (k : nat) (ix : list idx) : list idx :=
  delete (k - 2)%nat (drop 1 ix).

Fixpoint trace_expansion (depth : nat) (ix : list idx) : ex :=
  match ix, depth with
  | [mu; nu], _ => indexed (minkmetric false) [mu; nu]
  | _ :: _, S depth' =>
      add ((fun k => (numeric ((-1) ^ Z.of_nat k)
                      * indexed (minkmetric false) [nth_index ix 1; nth_index ix k]
                      * trace_expansion depth' (remove_first_and k ix))%ex)
           <$> seq 2 (length ix - 1))
  | _, _ => _ex0
  end.

(** The pairs of neighbours of a product. *)
Fixpoint adjacent (v : list ex) : list (ex * ex) :=
  match v with
  | a :: (b :: _) as r => (a, b) :: adjacent r
  | _ => []
  end.

(** The rewrite rules of the normalizer, each as the test whether it
    fires on a product: (a) an identity to drop, (b) a gamma5 to move to
    the left of a factor that is not a gamma5, (c) a leading pair of
    gamma5, (d) two neighbouring gammas with the same index (a gamma
    without an index is not a factor of a well-formed product and counts
    as firing). *)
Definition identity_fires (v : list ex) : bool := existsb op0_is_diracone v.

Definition gamma5_swap_fires (v : list ex) : bool :=
  existsb (fun p => negb (op0_is_diracgamma5 p.1) && op0_is_diracgamma5 p.2) (adjacent v).

Definition gamma5_square_fires (v : list ex) : bool :=
  match v with
  | a :: b :: _ => op0_is_diracgamma5 a && op0_is_diracgamma5 b
  | _ => false
  end.

Definition equal_gammas_fire (v : list ex) : bool :=
  existsb (fun p =>
             op0_is_diracgamma p.1 && op0_is_diracgamma p.2
             && match op1 p.1, op1 p.2 with
                | ok ia, ok ib => bool_decide (ia = ib)
                | _, _ => true
                end) (adjacent v).

Definition no_rule_fires (v : list ex) : bool :=
  negb (identity_fires v) && negb (gamma5_swap_fires v)
  && negb (gamma5_square_fires v) && negb (equal_gammas_fire v).

(** Two evaluated products, each a sign, commuting factors and a word,
    whose sum is zero: the same factors and word with opposite signs. *)
Definition cancel (t1 t2 : Z * list ex * list ex) : Prop :=
  t1.1.2 = t2.1.2 /\ t1.2 = t2.2 /\ t1.1.1 + t2.1.1 = 0.

(** A product of gammas, behind a gamma5 or not, whose indices are in
    the canonical order: no index comes after its right neighbour. *)
Definition skip_gamma5 (v : list ex) : list ex :=
  match v with
  | a :: r => if op0_is_diracgamma5 a then r else v
  | [] => []
  end.

Definition in_order (idx_compare : idx -> idx -> Z) (p : ex * ex) : bool :=
  match op1 p.1, op1 p.2 with
  | ok i0, ok i1 => negb (0 <? idx_compare i0 i1)
  | _, _ => false
  end.

Definition gammas_sorted (idx_compare : idx -> idx -> Z) (v : list ex) : bool :=
  forallb (in_order idx_compare) (adjacent (skip_gamma5 v)).

(** An expression whose products of non-commuting objects are products
    of Clifford objects in the canonical order. *)
Fixpoint clifford_words_sorted (idx_compare : idx -> idx -> Z) (e : ex) : bool :=
  match e with
  | add ops | mul ops => forallb (clifford_words_sorted idx_compare) ops
  | ncmul v => forallb is_clifford v && gammas_sorted idx_compare v
  | _ => true
  end.

(** [hold_ncmul] (ncmul.h): the product of the factors [v], not
    evaluated again; a product of one factor is the factor. *)
Definition hold_ncmul (v : list ex) : ex :=
  match v with
  | [] => _ex1
  | [x] => x
  | _ => ncmul v
  end.

(** A string of gammas of one representation label. *)
Definition gamma_string (rl : Z) (ix : list idx) : list ex :=
  (fun mu => clifford diracgamma [mu] rl) <$> ix.

(** ** The contraction rule of a factor

    [self->op(0).bp->contract_with(self, other, v)] as the dispatcher of
    simplify_indexed calls it: the rule is chosen by the class of the
    base object of [v[self]]; a class without a rule of its own answers
    "no contraction" ([basic::contract_with]). *)

Section Dispatch.

Variable is_dummy_pair : idx -> idx -> bool.
Variable minimal_dim : idx -> idx -> result dimension.
Variable determinant_simplify_indexed : list (list ex) -> ex.

(** The rules of tensor.cpp assign [*self] and [*other] only. *)
Definition assign_pair (self other : nat) (v : list ex) (r : result (bool * (ex * ex)))
  : result (bool * list ex) :=
  match r with
  | ok (b, (self', other')) => ok (b, <[other := other']> (<[self := self']> v))
  | throw e => throw e
  end.

Definition contract_with (self other : nat) (v : list ex) : result (bool * list ex) :=
  match v !! self, v !! other with
  | Some eself, Some eother =>
      if (other <=? self)%nat then throw (out_of_range "other does not follow self")
      else
        match eself with
        | indexed tensdelta _ =>
            assign_pair self other v
              (tensdelta_contract_with is_dummy_pair minimal_dim eself eother)
        | indexed tensmetric _ | indexed (minkmetric _) _ =>
            assign_pair self other v
              (tensmetric_contract_with is_dummy_pair minimal_dim eself eother)
        | indexed spinmetric _ =>
            assign_pair self other v
              (spinmetric_contract_with is_dummy_pair eself eother)
        | indexed (tensepsilon minkowski pos_sig) _ =>
            assign_pair self other v
              (tensepsilon_contract_with determinant_simplify_indexed
                 minkowski pos_sig eself eother)
        | clifford diracgamma _ _ => diracgamma_contract_with self other v
        | _ => ok (false, v)
        end
  | _, _ => throw (out_of_range "iterator")
  end.




End Dispatch.





(** ** Index primitives for concrete runs *)

(** Modelled from the spec: [is_dummy_pair] of idx.cpp, in the words of
    the glossary: "two indices of matching identity and opposite
    variance, eligible for contraction"; the identity is symbolic, and
    indices without a variance pair when they are of the same class. *)
Definition is_dummy_pair_spec (i1 i2 : idx) : bool :=
  is_symbolic i1
  && bool_decide (get_value i1 = get_value i2)
  && match get_class i1, get_class i2 with
     | class_idx, class_idx => true
     | class_varidx c1, class_varidx c2 => negb (Bool.eqb c1 c2)
     | class_spinidx c1 _, class_spinidx c2 _ => negb (Bool.eqb c1 c2)
     | _, _ => false
     end.

(** Modelled from the spec: [minimal_dim] of idx.cpp, which "fails when
    dimensions are incomparable": two numbers compare, a number is below
    a symbol, and two symbols compare when they are the same. *)
Definition minimal_dim_spec (i1 i2 : idx) : result dimension :=
  match get_dim i1, get_dim i2 with
  | num_dim a, num_dim b => ok (num_dim (Z.min a b))
  | num_dim a, sym_dim _ => ok (num_dim a)
  | sym_dim _, num_dim b => ok (num_dim b)
  | sym_dim a, sym_dim b =>
      if bool_decide (a = b) then ok (sym_dim a)
      else throw (runtime_error "minimal_dim(): index dimensions cannot be ordered")
  end.

(** Indices and gammas for the concrete runs below. *)
Definition varidx_D (name : string) (covariant : bool) : idx :=
  mk_idx (sym_value name) (sym_dim "D") (class_varidx covariant).

Definition spinidx_2 (name : string) (covariant : bool) : idx :=
  mk_idx (sym_value name) (num_dim 2) (class_spinidx covariant false).

Definition varidx_4 (n : Z) (covariant : bool) : idx :=
  mk_idx (int_value n) (num_dim 4) (class_varidx covariant).

(** ** Quantities the statements are written with *)

(** The sign a covariant index contributes to an epsilon tensor in
    Minkowski space: by the signature for the value 0, the opposite for
    any other value. *)
Definition covariant_factor (pos_sig : bool) (i : idx) : Z :=
  if is_covariant i then
    if value_to_int i =? 0 then (if pos_sig then -1 else 1)
    else (if pos_sig then 1 else -1)
  else 1.

Definition minkowski_factor (pos_sig : bool) (ix : list idx) : Z :=
  foldr (fun i acc => covariant_factor pos_sig i * acc) 1 ix.


(** A sum with alternating signs over a list of positions. *)
Fixpoint alt_sum (f : nat -> Z) (positions : list nat) (sign : Z) : Z :=
  match positions with
  | [] => 0
  | i :: rest => sign * f i + alt_sum f rest (- sign)
  end.

(** The value of [trace_string] where it returns. *)
Definition trace_string_value (rec : list idx -> result ex) (ix : list idx) : ex :=
  match rec ix with ok e => e | throw _ => _ex0 end.

(** Induction on expressions, with the hypothesis on every operand. *)
Definition ex_nested_ind (P : ex -> Prop)
    (Hnumeric : forall n, P (numeric n))
    (Himag : P imag_unit)
    (Hsymbol : forall s, P (symbol s))
    (Hindexed : forall b ix, P (indexed b ix))
    (Hclifford : forall b ix rl, P (clifford b ix rl))
    (Hadd : forall ops, Forall P ops -> P (add ops))
    (Hmul : forall ops, Forall P ops -> P (mul ops))
    (Hncmul : forall ops, Forall P ops -> P (ncmul ops)) : forall e, P e :=
  fix go (e : ex) : P e :=
    let all := fix all (l : list ex) : Forall P l :=
                 match l with
                 | [] => @List.Forall_nil ex P
                 | x :: r => @List.Forall_cons ex P x r (go x) (all r)
                 end in
    match e with
    | numeric n => Hnumeric n
    | imag_unit => Himag
    | symbol s => Hsymbol s
    | indexed b ix => Hindexed b ix
    | clifford b ix rl => Hclifford b ix rl
    | add ops => Hadd ops (all ops)
    | mul ops => Hmul ops (all ops)
    | ncmul ops => Hncmul ops (all ops)
    end.

(** ** Inputs of the concrete runs *)

(** The indices mu, nu, rho, sig, kap, lam of dimension D. *)
Definition six_indices : list idx :=
  [varidx_D "mu" false; varidx_D "nu" false; varidx_D "rho" false;
   varidx_D "sig" false; varidx_D "kap" false; varidx_D "lam" false].

(** gamma~mu gamma~a gamma~b gamma.mu. *)
Definition gap_two_word : list ex :=
  [clifford diracgamma [varidx_D "mu" false] 0; clifford diracgamma [varidx_D "a" false] 0;
   clifford diracgamma [varidx_D "b" false] 0; clifford diracgamma [varidx_D "mu" true] 0].

(** gamma~mu gamma~a gamma~b gamma~c gamma.mu. *)
Definition gap_three_word : list ex :=
  [clifford diracgamma [varidx_D "mu" false] 0; clifford diracgamma [varidx_D "a" false] 0;
   clifford diracgamma [varidx_D "b" false] 0; clifford diracgamma [varidx_D "c" false] 0;
   clifford diracgamma [varidx_D "mu" true] 0].


(** A delta tensor and a metric tensor that share the index mu, with the
    dimensions D1 and D2, which cannot be ordered. *)
Definition delta_mu_nu_D1 : ex :=
  indexed tensdelta [mk_idx (sym_value "mu") (sym_dim "D1") (class_varidx false);
                     mk_idx (sym_value "nu") (sym_dim "D1") (class_varidx false)].

Definition metric_mu_rho_D2 : ex :=
  indexed tensmetric [mk_idx (sym_value "mu") (sym_dim "D2") (class_varidx true);
                      mk_idx (sym_value "rho") (sym_dim "D2") (class_varidx true)].

(** An order of indices for concrete runs: by the name of a symbolic
    value, numeric values first. *)
Definition name_compare (i j : idx) : Z :=
  match get_value i, get_value j with
  | sym_value a, sym_value b =>
      if bool_decide (a = b) then 0 else if String.ltb a b then -1 else 1
  | int_value a, int_value b => Z.sgn (a - b)
  | int_value _, sym_value _ => -1
  | sym_value _, int_value _ => 1
  end.

(** gamma5 gamma~mu gamma~nu. *)
Definition sorted_word : list ex :=
  [dirac_gamma5 0; clifford diracgamma [varidx_D "mu" false] 0;
   clifford diracgamma [varidx_D "nu" false] 0].

(** ** Quantities of the further properties *)

(** What a call of a contraction rule may touch: it keeps the length of
    the product and the factors before [self] and after [other], and a
    call that answers false keeps the product. *)
Definition frame (self other : nat) (v v' : list ex) (b : bool) : Prop :=
  length v' = length v
  /\ (forall i, (i < self \/ other < i)%nat -> v' !! i = v !! i)
  /\ (b = false -> v' = v).

(** The swap of the sweep fires at [it]: a factor that is not a gamma5
    stands before a gamma5. *)
Definition fires (s : list ex) (it : nat) : bool :=
  match s !! it, s !! (S it) with
  | Some a, Some b => negb (op0_is_diracgamma5 a) && op0_is_diracgamma5 b
  | _, _ => false
  end.

(** The loop over equal neighbours fires at [it]: two gammas with the
    same index (a gamma without an index counts as firing). *)
Definition merges (s : list ex) (it : nat) : bool :=
  let a := s !!! it in
  let b := s !!! (S it) in
  op0_is_diracgamma a && op0_is_diracgamma b
  && match op1 a, op1 b with
     | ok ia, ok ib => bool_decide (ia = ib)
     | _, _ => true
     end.

(** An object that [dirac_ONE], [dirac_gamma] or [dirac_gamma5] makes. *)
Definition clifford_atom (e : ex) : bool :=
  match e with
  | clifford diracone [] _ | clifford diracgamma5 [] _ => true
  | clifford diracgamma [mu] _ => is_varidx mu
  | _ => false
  end.

(** The number of gamma5 in a product, and the number of pairs of a
    factor that is not a gamma5 and a gamma5 to its right. *)
Definition gamma5_count (v : list ex) : nat := length (List.filter op0_is_diracgamma5 v).

Fixpoint gamma5_inversions (v : list ex) : nat :=
  match v with
  | [] => 0
  | x :: r => ((if op0_is_diracgamma5 x then 0 else gamma5_count r) + gamma5_inversions r)%nat
  end.

(** The number of factors of a product that do not commute. *)
Definition noncommutative_weight (e : ex) : nat := if is_noncommutative e then 1%nat else 0%nat.

Definition noncommutative_count (v : list ex) : nat := sum_list_with noncommutative_weight v.

(** The sign of an answer of [simplify_ncmul]. *)
Definition sign_of (r : simplified) : Z :=
  match r with
  | ONE_times sign | nonsimplified_ncmul _ sign | simplified_ncmul _ sign => sign
  end.

(** What a sweep does to the state: the length stays, the inversions
    do not grow, the sign is kept or negated, and the flag is raised
    only when an inversion went. *)
Definition sweep_progress (st st' : list ex * Z * bool) : Prop :=
  length st'.1.1 = length st.1.1
  /\ (forall x, x ∈ st'.1.1 -> x ∈ st.1.1)
  /\ (gamma5_inversions st'.1.1 <= gamma5_inversions st.1.1)%nat
  /\ (st'.1.2 = st.1.2 \/ st'.1.2 = - st.1.2)
  /\ (st'.2 = true -> st.2 = true
                      \/ (gamma5_inversions st'.1.1 < gamma5_inversions st.1.1)%nat).

(** What the loop over equal neighbours does to the state: nothing, or
    a factor that does not commute is replaced by one that does and the
    flag is raised. *)
Definition merge_progress (st st' : list ex * bool) : Prop :=
  length st'.1 = length st.1
  /\ (st' = st
      \/ ((noncommutative_count st'.1 < noncommutative_count st.1)%nat /\ st'.2 = true)).

(** The order in which the passes of the normalizer go down. *)
Definition simpler (w v : list ex) : Prop :=
  (length w < length v)%nat
  \/ (length w = length v /\ (gamma5_inversions w < gamma5_inversions v)%nat).

(** A factor the normalizer can meet: an object of the constructors, or
    an indexed tensor, such as the metric tensor that the loop over
    equal neighbours writes. Both have the operand [op(0)] that the
    loops of [simplify_ncmul] read from every factor. *)
Definition is_indexed_tensor (e : ex) : bool :=
  match e with indexed _ _ => true | _ => false end.

Definition regular (e : ex) : Prop := clifford_atom e = true \/ is_indexed_tensor e = true.

(** The number of passes a product of [n] factors can take. *)
Definition passes (n : nat) : nat := (n * n * n + n * n + n + 1)%nat.

(** The measure that goes down from one pass to the next. *)
Definition rank (v : list ex) : nat :=
  (length v * length v * length v + length v + gamma5_inversions v)%nat.

(** The factor that [tensepsilon::eval_indexed] gives a covariant index
    with the value [n]. *)
Definition lowered_factor (pos_sig : bool) (n : Z) : Z :=
  if n =? 0 then (if pos_sig then -1 else 1) else (if pos_sig then 1 else -1).

(** A valuation of the atoms under which the metric tensor is symmetric
    in its two indices. *)
Definition symmetric_metric (rho : ex -> Z) : Prop :=
  forall a b, rho (indexed (minkmetric false) [a; b]) = rho (indexed (minkmetric false) [b; a]).

(** ** archive.cpp

    The archive holds a table of strings (the atoms), the archived
    expressions by name and a vector of nodes, each a list of
    properties. Unsigned quantities are numbers below 2^32. The
    exceptions are those of archive.cpp; a read from a stream that has
    ended, after which the C++ goes on with the fail bit set, and what
    C++ leaves undefined (a shift by 32 bits or more, an element of a
    vector that is not there) end the call of the model. *)

Module Archive.

Inductive error : Type :=
| range_error (what : string)
| logic_error (what : string)
| runtime_error (what : string)
| end_of_stream
| undefined (what : string).

Inductive answer (A : Type) : Type :=
| returns (a : A)
| throws (e : error).
Arguments returns {A} a.
Arguments throws {A} e.

#[global] Instance answer_ret : MRet answer := fun _ a => returns a.
#[global] Instance answer_bind : MBind answer := fun _ _ f m =>
  match m with returns a => f a | throws e => throws e end.

Local Open Scope N_scope.

(** [write_unsigned(os, val)]: the bytes put on the stream. The loop
    shifts [val] by seven bits each time, so the number of its bits
    bounds the number of rounds. *)
Fixpoint write_unsigned_loop (fuel : nat) (val : N) : list N :=
  match fuel with
  | O => [N.land val 0xff]
  | S fuel' =>
      if 0x80 <? val
      then N.lor (N.land val 0x7f) 0x80 :: write_unsigned_loop fuel' (N.shiftr val 7)
      else [N.land val 0xff]
  end.

Definition write_unsigned (val : N) : list N := write_unsigned_loop (N.size_nat val) val.

(** [read_unsigned(is)]: the number and the rest of the stream. *)
Fixpoint read_unsigned_loop (input : list N) (ret shift : N) : answer (N * list N) :=
  match input with
  | [] => throws end_of_stream
  | b :: rest =>
      if 32 <=? shift then throws (undefined "shift")
      else
        let ret := N.lor ret (N.shiftl (N.land b 0x7f) shift mod 2 ^ 32) in
        if N.land b 0x80 =? 0 then returns (ret, rest)
        else read_unsigned_loop rest ret (shift + 7)
  end.

Definition read_unsigned (input : list N) : answer (N * list N) :=
  read_unsigned_loop input 0 0.

(** No shift of [val] by a multiple of seven bits is 0x80. *)
Definition writable (val : N) : bool :=
  forallb (fun shift => negb (N.shiftr val shift =? 0x80)) [0; 7; 14; 21; 28].

(** The characters of a string as bytes, and [getline(is, s, '\0')]. *)
Definition bytes_of_string (s : string) : list N :=
  N_of_ascii <$> String.list_ascii_of_string s.

Fixpoint getline (input : list N) : answer (string * list N) :=
  match input with
  | [] => throws end_of_stream
  | b :: rest =>
      if b =? 0 then returns (EmptyString, rest)
      else p ← getline rest; returns (String (ascii_of_N b) p.1, p.2)
  end.

(** [size()] of a vector as it is stored in an [unsigned int], and the
    elements that a loop up to this number visits. *)
Definition size {A : Type} (l : list A) : N := N.of_nat (length l) mod 2 ^ 32.

Definition first_items {A : Type} (l : list A) : list A := take (N.to_nat (size l)) l.

Section Nodes.

(** The values of [enum property_type] (archive.h), the type of the
    handles [ex] with the address [bp] of the object a handle points to,
    and the expression 0 of a node that holds no expression. *)
Variables PTYPE_BOOL PTYPE_UNSIGNED PTYPE_STRING PTYPE_NODE : N.
Variable handle : Type.
Variable bp : handle -> N.
Variable ex0 : handle.

Record property : Type := mk_property { type : N; name : N; value : N }.

Record archive_node : Type := mk_archive_node {
  props : list property;
  has_expression : bool;
  e : handle
}.

Record archived_ex : Type := mk_archived_ex { ex_name : N; root : N }.

Record archive : Type := mk_archive {
  atoms : list string;
  exprs : list archived_ex;
  nodes : list archive_node
}.

(** The search of [archive::atomize]: the position of the string, or
    the counter at the end of the vector. *)
Fixpoint atomize_search (l : list string) (s : string) (id : N) : N + N :=
  match l with
  | [] => inr id
  | x :: r => if bool_decide (x = s) then inl id else atomize_search r s (id + 1)
  end.

(** [archive::atomize]: the vector of atoms is [mutable], a string that
    is not found is added. *)
Definition atomize (a : archive) (s : string) : N * archive :=
  match atomize_search (atoms a) s 0 with
  | inl id => (id, a)
  | inr id => (id, mk_archive (atoms a ++ [s]) (exprs a) (nodes a))
  end.

(** [archive::unatomize]. *)
Definition unatomize (a : archive) (id : N) : answer string :=
  match atoms a !! N.to_nat id with
  | Some s => returns s
  | None => throws (range_error "archive::unatomizee(): atom ID out of range")
  end.

(** [archive_node::has_same_ex_as]. *)
Definition has_same_ex_as (n other : archive_node) : bool :=
  if negb (has_expression n) || negb (has_expression other) then false
  else bp (e n) =? bp (e other).

(** The search of [archive::add_node]. *)
Fixpoint add_node_search (l : list archive_node) (n : archive_node) (id : N) : N + N :=
  match l with
  | [] => inr id
  | x :: r => if has_same_ex_as x n then inl id else add_node_search r n (id + 1)
  end.

(** [archive::add_node]. *)
Definition add_node (a : archive) (n : archive_node) : N * archive :=
  match add_node_search (nodes a) n 0 with
  | inl id => (id, a)
  | inr id => (id, mk_archive (atoms a) (exprs a) (nodes a ++ [n]))
  end.

(** [archive::get_node]. *)
Definition get_node (a : archive) (id : N) : answer archive_node :=
  match nodes a !! N.to_nat id with
  | Some n => returns n
  | None => throws (range_error "archive::get_node(): archive node ID out of range")
  end.

Definition push_back (n : archive_node) (p : property) : archive_node :=
  mk_archive_node (props n ++ [p]) (has_expression n) (e n).

(** [archive_node::add_bool], [add_unsigned], [add_string]: the archive
    of the node and the node as the call leaves them. In [add_string]
    C++ does not say which of the two strings is made an atom first:
    [name_first] chooses. *)
Definition add_bool (a : archive) (n : archive_node) (nm : string) (v : bool)
  : archive * archive_node :=
  let p := atomize a nm in
  (p.2, push_back n (mk_property PTYPE_BOOL p.1 (if v then 1 else 0))).

Definition add_unsigned (a : archive) (n : archive_node) (nm : string) (v : N)
  : archive * archive_node :=
  let p := atomize a nm in
  (p.2, push_back n (mk_property PTYPE_UNSIGNED p.1 v)).

Definition add_string (name_first : bool) (a : archive) (n : archive_node) (nm v : string)
  : archive * archive_node :=
  if name_first then
    let p := atomize a nm in
    let q := atomize p.2 v in
    (q.2, push_back n (mk_property PTYPE_STRING p.1 q.1))
  else
    let q := atomize a v in
    let p := atomize q.2 nm in
    (p.2, push_back n (mk_property PTYPE_STRING p.1 q.1)).

(** The loop of the [find_] functions: the first property of the type
    and name. *)
Definition find_property (ty name_atom : N) (n : archive_node) : option property :=
  List.find (fun p => (type p =? ty) && (name p =? name_atom)) (props n).

(** [archive_node::find_bool(name, ret)]: the answer, [ret] as the call
    leaves it, and the archive. *)
Definition find_bool (a : archive) (n : archive_node) (nm : string) (ret : bool)
  : bool * bool * archive :=
  let p := atomize a nm in
  match find_property PTYPE_BOOL p.1 n with
  | Some i => (true, negb (value i =? 0), p.2)
  | None => (false, ret, p.2)
  end.

Definition find_unsigned (a : archive) (n : archive_node) (nm : string) (ret : N)
  : bool * N * archive :=
  let p := atomize a nm in
  match find_property PTYPE_UNSIGNED p.1 n with
  | Some i => (true, value i, p.2)
  | None => (false, ret, p.2)
  end.

Definition find_string (a : archive) (n : archive_node) (nm : string) (ret : string)
  : answer (bool * string * archive) :=
  let p := atomize a nm in
  match find_property PTYPE_STRING p.1 n with
  | Some i => s ← unatomize p.2 (value i); returns (true, s, p.2)
  | None => returns (false, ret, p.2)
  end.

(** The property [find_ex] stops at: the one of type node and the name
    with [index] such properties before it. *)
Fixpoint find_ex_search (l : list property) (name_atom index found_index : N)
  : option property :=
  match l with
  | [] => None
  | i :: r =>
      if (type i =? PTYPE_NODE) && (name i =? name_atom) then
        if found_index =? index then Some i
        else find_ex_search r name_atom index (found_index + 1)
      else find_ex_search r name_atom index found_index
  end.

(** [archive_node::forget] and [archive::forget], [archive::clear],
    [archive::num_expressions]. *)
Definition forget_node (n : archive_node) : archive_node :=
  mk_archive_node (props n) false ex0.

Definition forget (a : archive) : archive :=
  mk_archive (atoms a) (exprs a) (forget_node <$> nodes a).

Definition clear (a : archive) : archive := mk_archive [] [] [].

Definition num_expressions (a : archive) : N := size (exprs a).

(** [operator<<] on a node and on an archive. *)
Definition write_property (p : property) : list N :=
  write_unsigned (N.lor (type p) (N.shiftl (name p) 3 mod 2 ^ 32)) ++ write_unsigned (value p).

Definition write_archive_node (n : archive_node) : list N :=
  write_unsigned (size (props n)) ++ concat (write_property <$> first_items (props n)).

(** What the stream format can hold: a number below 2^32 that
    [write_unsigned] does not end on the byte 0x80, a property whose
    type and name fit the packed word, a string without the character
    NUL. *)
Definition storable (val : N) : bool := (val <? 2 ^ 32) && writable val.

Definition storable_property (p : property) : bool :=
  (type p <? 8) && (name p <? 2 ^ 29)
  && storable (N.lor (type p) (N.shiftl (name p) 3)) && storable (value p).

Definition storable_node (n : archive_node) : bool :=
  storable (N.of_nat (length (props n))) && forallb storable_property (props n).

Definition storable_string (s : string) : bool :=
  forallb (fun c => negb (N_of_ascii c =? 0)) (String.list_ascii_of_string s).

Definition storable_archive (ar : archive) : bool :=
  storable (N.of_nat (length (atoms ar))) && forallb storable_string (atoms ar)
  && storable (N.of_nat (length (exprs ar)))
  && forallb (fun x => storable (ex_name x) && storable (root x)) (exprs ar)
  && storable (N.of_nat (length (nodes ar))) && forallb storable_node (nodes ar).

Section Streams.

(** The constants of archive.h, numbers below 2^32, and [ToString] of
    tostring.h on an unsigned number. *)
Variables ARCHIVE_VERSION ARCHIVE_AGE : N.
Variable ToString : N -> string.

Definition write_archive (ar : archive) : list N :=
  [71; 65; 82; 67]
  ++ write_unsigned ARCHIVE_VERSION
  ++ write_unsigned (size (atoms ar))
  ++ concat ((fun s => bytes_of_string s ++ [0]) <$> first_items (atoms ar))
  ++ write_unsigned (size (exprs ar))
  ++ concat ((fun x => write_unsigned (ex_name x) ++ write_unsigned (root x))
             <$> first_items (exprs ar))
  ++ write_unsigned (size (nodes ar))
  ++ concat (write_archive_node <$> first_items (nodes ar)).

(** A loop that reads [count] items one after the other. *)
Fixpoint read_items {A : Type} (read : list N -> answer (A * list N)) (count : nat)
    (input : list N) : answer (list A * list N) :=
  match count with
  | O => returns ([], input)
  | S count' =>
      x ← read input;
      r ← read_items read count' x.2;
      returns (x.1 :: r.1, r.2)
  end.

Definition read_property (input : list N) : answer (property * list N) :=
  nt ← read_unsigned input;
  v ← read_unsigned nt.2;
  returns (mk_property (N.land nt.1 7) (N.shiftr nt.1 3) v.1, v.2).

(** [operator>>] on a node: the properties are replaced, the cached
    expression stays. *)
Definition read_archive_node (n : archive_node) (input : list N)
  : answer (archive_node * list N) :=
  c ← read_unsigned input;
  ps ← read_items read_property (N.to_nat c.1) c.2;
  returns (mk_archive_node ps.1 (has_expression n) (e n), ps.2).

(** [ar.nodes.resize(num_nodes, ar)]: the nodes there are stay, nodes
    without an expression are added. *)
Definition resize_nodes (l : list archive_node) (num_nodes : nat) : list archive_node :=
  take num_nodes l ++ replicate (num_nodes - length l) (mk_archive_node [] false ex0).

Fixpoint read_nodes (l : list archive_node) (input : list N)
  : answer (list archive_node * list N) :=
  match l with
  | [] => returns ([], input)
  | n :: r =>
      x ← read_archive_node n input;
      y ← read_nodes r x.2;
      returns (x.1 :: y.1, y.2)
  end.

Definition read_archived_ex (input : list N) : answer (archived_ex * list N) :=
  nm ← read_unsigned input;
  rt ← read_unsigned nm.2;
  returns (mk_archived_ex nm.1 rt.1, rt.2).

(** [operator>>] on an archive. *)
Definition read_archive (ar : archive) (input : list N) : answer (archive * list N) :=
  match input with
  | c1 :: c2 :: c3 :: c4 :: input =>
      if negb (c1 =? 71) || negb (c2 =? 65) || negb (c3 =? 82) || negb (c4 =? 67) then
        throws (runtime_error "not a GiNaC archive (signature not found)")
      else
        version ← read_unsigned input;
        let oldest := (ARCHIVE_VERSION + 2 ^ 32 - ARCHIVE_AGE) mod 2 ^ 32 in
        if (ARCHIVE_VERSION <? version.1) || (version.1 <? oldest)
        then throws (runtime_error
               ("archive version " +:+ ToString version.1
                +:+ " cannot be read by this GiNaC library (which supports versions "
                +:+ ToString oldest +:+ " thru " +:+ ToString ARCHIVE_VERSION))
        else
          num_atoms ← read_unsigned version.2;
          ats ← read_items getline (N.to_nat num_atoms.1) num_atoms.2;
          num_exprs ← read_unsigned ats.2;
          exs ← read_items read_archived_ex (N.to_nat num_exprs.1) num_exprs.2;
          num_nodes ← read_unsigned exs.2;
          nds ← read_nodes (resize_nodes (nodes ar) (N.to_nat num_nodes.1)) num_nodes.2;
          returns (mk_archive ats.1 exs.1 nds.1, nds.2)
  | _ => throws end_of_stream
  end.

End Streams.

Section Expressions.

(** [basic::archive] of the object behind a handle, which fills the
    node it is given, and the function of registrar.h that makes the
    object of a class from a node. *)
Variable bp_archive : handle -> archive -> archive_node -> archive * archive_node.
Variable find_unarch_func : string -> archive -> archive_node -> answer (handle * archive).

(** The constructor [archive_node(ar, expr)]. *)
Definition archive_node_of (ar : archive) (expr : handle) : archive * archive_node :=
  bp_archive expr ar (mk_archive_node [] true expr).

(** [archive_node::add_ex]. *)
Definition add_ex (a : archive) (n : archive_node) (nm : string) (v : handle)
  : archive * archive_node :=
  let c := archive_node_of a v in
  let i := add_node c.1 c.2 in
  let p := atomize i.2 nm in
  (p.2, push_back n (mk_property PTYPE_NODE p.1 i.1)).

(** [archive::archive_ex]. *)
Definition archive_ex (ar : archive) (expr : handle) (nm : string) : archive :=
  let c := archive_node_of ar expr in
  let i := add_node c.1 c.2 in
  let p := atomize i.2 nm in
  mk_archive (atoms p.2) (exprs p.2 ++ [mk_archived_ex p.1 i.1]) (nodes p.2).

(** [archive_node::unarchive] on the node [n] at the position [id] of
    the archive: the expression is cached in the node. *)
Definition unarchive (a : archive) (id : nat) (n : archive_node) : answer (handle * archive) :=
  if has_expression n then returns (e n, a)
  else
    c ← find_string a n "class" EmptyString;
    if negb c.1.1 then throws (runtime_error "archive node contains no class name")
    else
      r ← find_unarch_func c.1.2 c.2 n;
      returns (r.1, mk_archive (atoms r.2) (exprs r.2)
                      (<[id := mk_archive_node (props n) true r.1]> (nodes r.2))).

(** [nodes[id].unarchive(sym_lst)]; the vector is read without a check
    of the index. *)
Definition unarchive_at (a : archive) (id : N) : answer (handle * archive) :=
  match nodes a !! N.to_nat id with
  | Some n => unarchive a (N.to_nat id) n
  | None => throws (undefined "nodes[id]")
  end.

(** [archive::unarchive_ex] by name, by index, and by index with the
    name. *)
Definition unarchive_ex_by_name (ar : archive) (nm : string) : answer (handle * archive) :=
  let p := atomize ar nm in
  match List.find (fun x => ex_name x =? p.1) (exprs p.2) with
  | Some x => unarchive_at p.2 (root x)
  | None =>
      throws (logic_error ("expression with name '" +:+ nm +:+ "' not found in archive"))
  end.

Definition unarchive_ex (ar : archive) (index : N) : answer (handle * archive) :=
  match exprs ar !! N.to_nat index with
  | Some x => unarchive_at ar (root x)
  | None => throws (range_error "index of archived expression out of range")
  end.

Definition unarchive_ex_with_name (ar : archive) (index : N)
  : answer (handle * string * archive) :=
  match exprs ar !! N.to_nat index with
  | Some x =>
      nm ← unatomize ar (ex_name x);
      r ← unarchive_at ar (root x);
      returns (r.1, nm, r.2)
  | None => throws (range_error "index of archived expression out of range")
  end.

(** [archive_node::find_ex]. *)
Definition find_ex (a : archive) (n : archive_node) (nm : string) (ret : handle) (index : N)
  : answer (bool * handle * archive) :=
  let p := atomize a nm in
  match find_ex_search (props n) p.1 index 0 with
  | Some i =>
      match nodes p.2 !! N.to_nat (value i) with
      | Some m => r ← unarchive p.2 (N.to_nat (value i)) m; returns (true, r.1, r.2)
      | None => throws (range_error "archive::get_node(): archive node ID out of range")
      end
  | None => returns (false, ret, p.2)
  end.

End Expressions.

End Nodes.

Arguments mk_archive_node {handle} _ _ _.
Arguments props {handle} _.
Arguments has_expression {handle} _.
Arguments e {handle} _.
Arguments mk_archive {handle} _ _ _.
Arguments atoms {handle} _.
Arguments exprs {handle} _.
Arguments nodes {handle} _.
Arguments atomize {handle} _ _.
Arguments unatomize {handle} _ _.
Arguments has_same_ex_as {handle} _ _ _.
Arguments add_node_search {handle} _ _ _ _.
Arguments add_node {handle} _ _ _.
Arguments get_node {handle} _ _.
Arguments push_back {handle} _ _.
Arguments add_bool _ {handle} _ _ _ _.
Arguments add_unsigned _ {handle} _ _ _ _.
Arguments add_string _ {handle} _ _ _ _ _.
Arguments find_property {handle} _ _ _.
Arguments find_bool _ {handle} _ _ _ _.
Arguments find_unsigned _ {handle} _ _ _ _.
Arguments find_string _ {handle} _ _ _ _.
Arguments forget_node {handle} _ _.
Arguments forget {handle} _ _.
Arguments clear {handle} _.
Arguments num_expressions {handle} _.
Arguments write_archive_node {handle} _.
Arguments storable_node {handle} _.
Arguments storable_archive {handle} _.
Arguments write_archive {handle} _ _.
Arguments read_archive_node {handle} _ _.
Arguments resize_nodes {handle} _ _ _.
Arguments read_nodes {handle} _ _.
Arguments read_archive {handle} _ _ _ _ _ _.
Arguments archive_node_of {handle} _ _ _.
Arguments add_ex _ {handle} _ _ _ _ _ _.
Arguments archive_ex {handle} _ _ _ _ _.
Arguments unarchive _ {handle} _ _ _ _.
Arguments unarchive_at _ {handle} _ _ _.
Arguments unarchive_ex_by_name _ {handle} _ _ _.
Arguments unarchive_ex _ {handle} _ _ _.
Arguments unarchive_ex_with_name _ {handle} _ _ _.
Arguments find_ex _ _ {handle} _ _ _ _ _ _.

End Archive.

(** ** Archiving of the classes of clifford.cpp and tensor.cpp

    [inherited_archive] is [inherited::archive(n)], which fills the node
    before the class adds its own properties. The constructors from a
    node read a property into a variable that holds what it held before
    when the property is not there. *)

Section Archiving.

Context {handle : Type}.
Variables PTYPE_BOOL PTYPE_UNSIGNED : N.
Variable inherited_archive :
  Archive.archive handle -> Archive.archive_node handle
  -> Archive.archive handle * Archive.archive_node handle.

(** [clifford::archive]; the label is an [unsigned char]. *)
Definition clifford_archive (a : Archive.archive handle) (n : Archive.archive_node handle)
    (representation_label : N) : Archive.archive handle * Archive.archive_node handle :=
  let i := inherited_archive a n in
  Archive.add_unsigned PTYPE_UNSIGNED i.1 i.2 "label" representation_label.

(** [clifford::clifford(const archive_node &n, const lst &sym_lst)]: the
    label of the object and the archive. *)
Definition clifford_unarchive (a : Archive.archive handle) (n : Archive.archive_node handle)
    (rl : N) : N * Archive.archive handle :=
  let f := Archive.find_unsigned PTYPE_UNSIGNED a n "label" rl in
  ((f.1.2 mod 256)%N, f.2).

(** [minkmetric::archive] and [minkmetric::minkmetric(n, sym_lst)]. *)
Definition minkmetric_archive (a : Archive.archive handle) (n : Archive.archive_node handle)
    (pos_sig : bool) : Archive.archive handle * Archive.archive_node handle :=
  let i := inherited_archive a n in
  Archive.add_bool PTYPE_BOOL i.1 i.2 "pos_sig" pos_sig.

Definition minkmetric_unarchive (a : Archive.archive handle) (n : Archive.archive_node handle)
    (pos_sig : bool) : bool * Archive.archive handle :=
  let f := Archive.find_bool PTYPE_BOOL a n "pos_sig" pos_sig in
  (f.1.2, f.2).

(** [tensepsilon::archive] and [tensepsilon::tensepsilon(n, sym_lst)]. *)
Definition tensepsilon_archive (a : Archive.archive handle) (n : Archive.archive_node handle)
    (minkowski pos_sig : bool) : Archive.archive handle * Archive.archive_node handle :=
  let i := inherited_archive a n in
  let m := Archive.add_bool PTYPE_BOOL i.1 i.2 "minkowski" minkowski in
  Archive.add_bool PTYPE_BOOL m.1 m.2 "pos_sig" pos_sig.

Definition tensepsilon_unarchive (a : Archive.archive handle) (n : Archive.archive_node handle)
    (minkowski pos_sig : bool) : bool * bool * Archive.archive handle :=
  let f := Archive.find_bool PTYPE_BOOL a n "minkowski" minkowski in
  let g := Archive.find_bool PTYPE_BOOL f.2 n "pos_sig" pos_sig in
  (f.1.2, g.1.2, g.2).

(** A node whose properties are named by atoms of the archive, none of
    them a property of the type [ty] with the name [nm]. *)
Definition names_in_range (a : Archive.archive handle) (n : Archive.archive_node handle)
  : Prop :=
  Forall (fun p => (Archive.name p < N.of_nat (length (Archive.atoms a)))%N) (Archive.props n).

Definition no_property (ty : N) (nm : string) (a : Archive.archive handle)
    (n : Archive.archive_node handle) : Prop :=
  forall p, p ∈ Archive.props n -> Archive.type p = ty ->
            Archive.atoms a !! N.to_nat (Archive.name p) <> Some nm.

End Archiving.

(** ** symbol.cpp

    A symbol is known by its serial number, which the constructors take
    from the counter [next_serial]; its assignment lives in an
    [assigned_ex_info] on the heap that the copies of the symbol share
    and count. The heap is the list of the objects allocated so far, an
    object that was deleted leaving [None] at its address. *)

Module Symbol.

Local Open Scope N_scope.

Section Symbols.

(** The objects of the other classes with the expressions 0 and 1, the
    flags of [status_flags] (flags.h), [max_recursion_level] and
    [ToString] of tostring.h on an unsigned number. *)
Variable basic : Type.
Variables _ex0 _ex1 : basic.
Variables evaluated expanded : N.
Variable max_recursion_level : Z.
Variable ToString : N -> string.

Record symbol : Type := mk_symbol {
  name : string;
  serial : N;
  asexinfop : nat;
  flags : N
}.

Inductive ex : Type :=
| of_symbol (s : symbol)
| of_basic (b : basic).

Record assigned_ex_info : Type := mk_assigned_ex_info {
  is_assigned : bool;
  assigned_expression : ex;
  refcount : N
}.

Record memory : Type := mk_memory {
  next_serial : N;
  heap : list (option assigned_ex_info)
}.

(** [basic::hold] and [ex::eval]; the flags that [basic::copy] gives the
    copy of an object. *)
Variable hold : symbol -> symbol.
Variable ex_eval : ex -> Z -> memory -> Archive.answer ex.
Variable copied_flags : N -> N.

(** [setflag] and [clearflag] of basic.h. *)
Definition setflag (s : symbol) (f : N) : symbol :=
  mk_symbol (name s) (serial s) (asexinfop s) (N.lor (flags s) f).

Definition clearflag (s : symbol) (f : N) : symbol :=
  mk_symbol (name s) (serial s) (asexinfop s) (N.ldiff (flags s) f).

Definition autoname_prefix : string := "symbol".

(** [next_serial++] and [new assigned_ex_info]. *)
Definition take_serial (m : memory) : N * memory :=
  (next_serial m, mk_memory ((next_serial m + 1) mod 2 ^ 32) (heap m)).

Definition new_assigned_ex_info (m : memory) : nat * memory :=
  (length (heap m),
   mk_memory (next_serial m) (heap m ++ [Some (mk_assigned_ex_info false (of_basic _ex0) 1)])).

(** [symbol::symbol()] and [symbol::symbol(const std::string &)]. *)
Definition symbol_default (m : memory) : symbol * memory :=
  let s := take_serial m in
  let i := new_assigned_ex_info s.2 in
  (mk_symbol (autoname_prefix +:+ ToString s.1) s.1 i.1 (N.lor 0 (N.lor evaluated expanded)),
   i.2).

Definition symbol_named (initname : string) (m : memory) : symbol * memory :=
  let s := take_serial m in
  let i := new_assigned_ex_info s.2 in
  (mk_symbol initname s.1 i.1 (N.lor 0 (N.lor evaluated expanded)), i.2).

(** The object at an address and the write to it. *)
Definition info_at (m : memory) (p : nat) : Archive.answer assigned_ex_info :=
  match heap m !! p with
  | Some (Some i) => Archive.returns i
  | _ => Archive.throws (Archive.undefined "asexinfop")
  end.

Definition set_info (m : memory) (p : nat) (i : option assigned_ex_info) : memory :=
  mk_memory (next_serial m) (<[p := i]> (heap m)).

(** [symbol::copy] as the copy constructor uses it, and
    [symbol::destroy]. *)
Definition copy (other : symbol) (m : memory) : Archive.answer (symbol * memory) :=
  i ← info_at m (asexinfop other);
  Archive.returns
    (mk_symbol (name other) (serial other) (asexinfop other) (copied_flags (flags other)),
     set_info m (asexinfop other)
       (Some (mk_assigned_ex_info (is_assigned i) (assigned_expression i)
                ((refcount i + 1) mod 2 ^ 32)))).

Definition destroy (s : symbol) (m : memory) : Archive.answer memory :=
  i ← info_at m (asexinfop s);
  let count := (refcount i + (2 ^ 32 - 1)) mod 2 ^ 32 in
  if count =? 0 then Archive.returns (set_info m (asexinfop s) None)
  else Archive.returns
         (set_info m (asexinfop s)
            (Some (mk_assigned_ex_info (is_assigned i) (assigned_expression i) count))).

(** [symbol::assign] and [symbol::unassign]: the symbol and the heap as
    the call leaves them. *)
Definition assign (s : symbol) (value : ex) (m : memory) : Archive.answer (symbol * memory) :=
  i ← info_at m (asexinfop s);
  Archive.returns
    (clearflag s (N.lor evaluated expanded),
     set_info m (asexinfop s) (Some (mk_assigned_ex_info true value (refcount i)))).

Definition unassign (s : symbol) (m : memory) : Archive.answer (symbol * memory) :=
  i ← info_at m (asexinfop s);
  Archive.returns
    (setflag s (N.lor evaluated expanded),
     if is_assigned i
     then set_info m (asexinfop s)
            (Some (mk_assigned_ex_info false (of_basic _ex0) (refcount i)))
     else m).

(** [symbol::eval(level)]: the value and the symbol, whose flags are
    [mutable]. *)
Definition eval (s : symbol) (level : Z) (m : memory) : Archive.answer (ex * symbol) :=
  if (level =? - max_recursion_level)%Z
  then Archive.throws (Archive.runtime_error "max recursion level reached")
  else
    i ← info_at m (asexinfop s);
    if is_assigned i then
      let s' := setflag s evaluated in
      if (level =? 1)%Z then Archive.returns (assigned_expression i, s')
      else v ← ex_eval (assigned_expression i) level m; Archive.returns (v, s')
    else Archive.returns (of_symbol (hold s), hold s).

(** [symbol::compare_same_type] and [symbol::is_equal_same_type]. *)
Definition compare_same_type (s o : symbol) : Z :=
  if serial s =? serial o then 0%Z
  else if serial s <? serial o then (-1)%Z else 1%Z.

Definition is_equal_same_type (s o : symbol) : bool := serial s =? serial o.

(** [symbol::subs(ls, lr)]. *)
Fixpoint subs_loop (s : symbol) (ls lr : list ex) (i : nat) : Archive.answer ex :=
  match ls with
  | [] => Archive.returns (of_symbol s)
  | of_symbol t :: r =>
      if (compare_same_type s t =? 0)%Z then
        match lr !! i with
        | Some y => Archive.returns y
        | None => Archive.throws (Archive.undefined "lr.op(i)")
        end
      else subs_loop s r lr (S i)
  | of_basic _ :: r => subs_loop s r lr (S i)
  end.

Definition subs (s : symbol) (ls lr : list ex) : Archive.answer ex := subs_loop s ls lr 0.

(** [symbol::derivative]. *)
Definition derivative (s t : symbol) : ex :=
  if negb (compare_same_type s t =? 0)%Z then of_basic _ex0 else of_basic _ex1.

(** The symbols that a run of constructors with the names [l] makes. *)
Fixpoint construct (l : list string) (m : memory) : list symbol * memory :=
  match l with
  | [] => ([], m)
  | initname :: r =>
      let s := symbol_named initname m in
      let t := construct r s.2 in
      (s.1 :: t.1, t.2)
  end.

End Symbols.

Arguments of_symbol {basic} s.
Arguments of_basic {basic} b.
Arguments mk_assigned_ex_info {basic} _ _ _.
Arguments is_assigned {basic} _.
Arguments assigned_expression {basic} _.
Arguments refcount {basic} _.
Arguments mk_memory {basic} _ _.
Arguments next_serial {basic} _.
Arguments heap {basic} _.
Arguments take_serial {basic} _.
Arguments info_at {basic} _ _.
Arguments set_info {basic} _ _ _.
Arguments copy {basic} _ _ _.
Arguments destroy {basic} _ _.
Arguments subs_loop {basic} _ _ _ _.
Arguments subs {basic} _ _ _.
Arguments new_assigned_ex_info {basic} _ _.
Arguments symbol_default {basic} _ _ _ _ _.
Arguments symbol_named {basic} _ _ _ _ _.
Arguments assign {basic} _ _ _ _ _.
Arguments unassign {basic} _ _ _ _ _.
Arguments eval {basic} _ _ _ _ _ _ _.
Arguments derivative {basic} _ _ _ _.
Arguments construct {basic} _ _ _ _ _.

End Symbol.

(** ** Archiving of a symbol (symbol.cpp)

    [symbol::archive] stores the name. The constructor from a node
    takes a new serial number and reads the name; [symbol::unarchive]
    answers with the first symbol of [sym_lst] that has this name when
    there is one. [dynallocated] is the flag of [status_flags] that
    [unarchive] sets on the new symbol. *)

Section SymbolArchiving.

Context {handle basic : Type}.
Variable _ex0 : basic.
Variables evaluated dynallocated : N.
Variable ToString : N -> string.
Variable PTYPE_STRING : N.
Variable inherited_archive :
  Archive.archive handle -> Archive.archive_node handle
  -> Archive.archive handle * Archive.archive_node handle.

Definition symbol_archive (name_first : bool) (a : Archive.archive handle)
    (n : Archive.archive_node handle) (s : Symbol.symbol)
  : Archive.archive handle * Archive.archive_node handle :=
  let i := inherited_archive a n in
  Archive.add_string PTYPE_STRING name_first i.1 i.2 "name" (Symbol.name s).

(** [symbol::symbol(const archive_node &n, const lst &sym_lst)]. *)
Definition symbol_from_node (a : Archive.archive handle) (n : Archive.archive_node handle)
    (m : Symbol.memory basic)
  : Archive.answer (Symbol.symbol * Symbol.memory basic * Archive.archive handle) :=
  let s := Symbol.take_serial m in
  f ← Archive.find_string PTYPE_STRING a n "name" EmptyString;
  let name := if negb f.1.1 then Symbol.autoname_prefix +:+ ToString s.1 else f.1.2 in
  let i := Symbol.new_assigned_ex_info _ex0 s.2 in
  Archive.returns (Symbol.mk_symbol name s.1 i.1 (N.lor 0 evaluated), i.2, f.2).

Definition is_symbol_named (name : string) (x : Symbol.ex basic) : bool :=
  match x with
  | Symbol.of_symbol t => bool_decide (Symbol.name t = name)
  | Symbol.of_basic _ => false
  end.

(** [symbol::unarchive]. *)
Definition symbol_unarchive (a : Archive.archive handle) (n : Archive.archive_node handle)
    (sym_lst : list (Symbol.ex basic)) (m : Symbol.memory basic)
  : Archive.answer (Symbol.ex basic * Symbol.memory basic * Archive.archive handle) :=
  c ← symbol_from_node a n m;
  let s := Symbol.setflag c.1.1 dynallocated in
  match List.find (is_symbol_named (Symbol.name s)) sym_lst with
  | Some x => Archive.returns (x, c.1.2, c.2)
  | None => Archive.returns (Symbol.of_symbol s, c.1.2, c.2)
  end.

End SymbolArchiving.

(** ** Inputs of the further runs *)

(** A delta tensor and a metric tensor of dimension D that share the
    index mu. *)
Definition delta_mu_nu : ex :=
  indexed tensdelta [varidx_D "mu" false; varidx_D "nu" false].

Definition metric_mu_rho : ex :=
  indexed tensmetric [varidx_D "mu" true; varidx_D "rho" true].

(** gamma~a gamma5, and gamma~a gamma5 gamma~a. *)
Definition unsorted_word : list ex :=
  [clifford diracgamma [varidx_D "a" false] 0; dirac_gamma5 0].

Definition three_factor_word : list ex :=
  [clifford diracgamma [varidx_D "a" false] 0; dirac_gamma5 0;
   clifford diracgamma [varidx_D "a" false] 0].

(** A symbolic index of the four dimensions of Minkowski space, and an
    index without a variance of dimension 2. *)
Definition varidx_sym4 (name : string) (covariant : bool) : idx :=
  mk_idx (sym_value name) (num_dim 4) (class_varidx covariant).

Definition idx_2 (name : string) : idx :=
  mk_idx (sym_value name) (num_dim 2) class_idx.

(** A valuation of the atoms that gives a metric tensor the sum of the
    lengths of the names of its indices. *)
Definition name_length (i : idx) : Z :=
  match get_value i with
  | sym_value s => Z.of_nat (String.length s)
  | int_value n => n
  end.

Definition sum_of_name_lengths (e : ex) : Z :=
  match e with
  | indexed _ [a; b] => name_length a + name_length b
  | _ => 0
  end.

(** An archive with handles that are numbers: it holds the symbol x
    under the name x, in a node with the class and the name of the
    symbol. The types of the properties are numbered 0 to 3. *)
Definition symbol_node : Archive.archive_node N :=
  Archive.mk_archive_node [Archive.mk_property 2 0 1; Archive.mk_property 2 2 3] false 0%N.

Definition symbol_archive_x : Archive.archive N :=
  Archive.mk_archive ["class"; "symbol"; "name"; "x"] [Archive.mk_archived_ex 3 0]
    [symbol_node].

(** The symbol x as the first construction makes it, with 2 and 4 for
    the flags [evaluated] and [expanded], and the heap after it. *)
Definition symbol_x : Symbol.symbol := Symbol.mk_symbol "x" 0 0 6.

Definition heap_of_x : Symbol.memory Z :=
  Symbol.mk_memory 1 [Some (Symbol.mk_assigned_ex_info false (Symbol.of_basic 0%Z) 1)].

(** * Properties *)

(** ** Spinor metrics and epsilon tensors *)

Section TensorFacts.

Variable is_dummy_pair : idx -> idx -> bool.
Variable minimal_dim : idx -> idx -> result dimension.

Lemma get_dummy_indices_pair (ix : list idx) (p q : nat) (ip iq : idx) :
  (p < q)%nat -> ix !! p = Some ip -> ix !! q = Some iq ->
  is_dummy_pair ip iq || is_dummy_pair iq ip = true ->
  get_dummy_indices is_dummy_pair ix <> [].
Proof.
  revert p q. induction ix as [|i r IH]; intros p q Hpq Hp Hq Hpair.
  - discriminate.
  - destruct p as [|p]; simpl in Hp.
    + injection Hp as ->. destruct q as [|q]; [lia|]. simpl in Hq.
      simpl. assert (Hex : existsb (fun j => is_dummy_pair ip j || is_dummy_pair j ip) r = true).
      { apply existsb_exists. exists iq. split; [|exact Hpair].
        apply list_elem_of_In, list_elem_of_lookup. eauto. }
      rewrite Hex. discriminate.
    + destruct q as [|q]; [lia|]. simpl in Hq. simpl.
      destruct (existsb _ r); [discriminate|].
      apply (IH p q); [lia|assumption..].
Qed.

Lemma get_dummy_indices_nonempty (ix : list idx) (p q : nat) (ip iq : idx) :
  p <> q -> ix !! p = Some ip -> ix !! q = Some iq ->
  is_dummy_pair ip iq = true ->
  get_dummy_indices is_dummy_pair ix <> [].
Proof.
  intros Hne Hp Hq Hpair.
  destruct (Nat.lt_total p q) as [Hlt|[Heq|Hgt]]; [|contradiction|].
  - apply (get_dummy_indices_pair ix p q ip iq); auto. rewrite Hpair. reflexivity.
  - apply (get_dummy_indices_pair ix q p iq ip); auto. rewrite Hpair.
    apply orb_true_r.
Qed.

(** C10. An indexed spinor metric or epsilon tensor (of either flavour)
    whose own index list holds a dummy pair, at two different positions,
    evaluates to 0, whatever its indices are: the test comes before the
    numeric evaluation. *)
Theorem self_contraction_evaluates_to_zero (ix : list idx) (p q : nat) (ip iq : idx) :
  p <> q -> ix !! p = Some ip -> ix !! q = Some iq ->
  is_dummy_pair ip iq = true ->
  spinmetric_eval_indexed is_dummy_pair (indexed spinmetric ix) = _ex0
  /\ forall minkowski pos_sig,
       tensepsilon_eval_indexed is_dummy_pair minkowski pos_sig
         (indexed (tensepsilon minkowski pos_sig) ix) = ok _ex0.
Proof.
  intros Hne Hp Hq Hpair.
  pose proof (get_dummy_indices_nonempty ix p q ip iq Hne Hp Hq Hpair) as Hd.
  split.
  - unfold spinmetric_eval_indexed. simpl indices.
    rewrite bool_decide_eq_false_2 by exact Hd. reflexivity.
  - intros minkowski pos_sig. unfold tensepsilon_eval_indexed. simpl indices.
    rewrite bool_decide_eq_false_2 by exact Hd. reflexivity.
Qed.

(** C9. Two spinor metrics that share a dummy pair are contracted by the
    first of four cases, by the slots that match: the partner becomes 1,
    and the factor becomes 2 (both slots matched in parallel), -2 (both
    matched crossed), the delta tensor of the two remaining indices (one
    parallel match) or minus it (one crossed match). *)
Theorem spinmetric_pair_contraction (s1 s2 o1 o2 : idx) :
  let matched a b := is_dummy_pair a b = true in
  let self := indexed spinmetric [s1; s2] in
  let other := indexed spinmetric [o1; o2] in
  matched s1 o1 \/ matched s1 o2 \/ matched s2 o1 \/ matched s2 o2 ->
  exists self',
    spinmetric_contract_with is_dummy_pair self other = ok (true, (self', _ex1))
    /\ (matched s1 o1 -> matched s2 o2 -> self' = _ex2)
    /\ (~ matched s1 o1 -> matched s1 o2 -> matched s2 o1 -> self' = _ex_2)
    /\ (matched s1 o1 -> ~ matched s2 o2 -> self' = delta_tensor s2 o2)
    /\ (~ matched s1 o1 -> ~ matched s1 o2 -> ~ matched s2 o1 -> matched s2 o2 ->
        self' = delta_tensor s1 o1)
    /\ (~ matched s1 o1 -> matched s1 o2 -> ~ matched s2 o1 ->
        self' = (- delta_tensor s2 o1)%ex)
    /\ (~ matched s1 o1 -> ~ matched s1 o2 -> matched s2 o1 ->
        self' = (- delta_tensor s1 o2)%ex).
Proof.
  cbv zeta. unfold spinmetric_contract_with. simpl. intros Hshare.
  destruct (is_dummy_pair s1 o1) eqn:H11, (is_dummy_pair s1 o2) eqn:H12,
           (is_dummy_pair s2 o1) eqn:H21, (is_dummy_pair s2 o2) eqn:H22;
    try (eexists; split; [reflexivity|];
         repeat split; intros; first [reflexivity | congruence]).
  exfalso. destruct Hshare as [H|[H|[H|H]]]; discriminate.
Qed.

Lemma minkowski_sign_factor (pos_sig : bool) (ix : list idx) (sign : Z) :
  forallb is_varidx ix = true ->
  forallb value_is_nonnegint ix = true ->
  minkowski_sign pos_sig ix sign = ok (sign * minkowski_factor pos_sig ix).
Proof.
  revert sign. induction ix as [|x r IH]; intros sign Hvar Hnum; simpl.
  - f_equal. lia.
  - simpl in Hvar, Hnum.
    apply andb_true_iff in Hvar as [Hx Hr]. apply andb_true_iff in Hnum as [Hnx Hnr].
    rewrite Hx. simpl. unfold covariant_factor.
    assert (Hsym : is_symbolic x = false).
    { unfold value_is_nonnegint in Hnx. unfold is_symbolic.
      destruct (get_value x); [discriminate|reflexivity]. }
    rewrite Hsym. simpl.
    destruct (is_covariant x); [|rewrite IH by assumption; f_equal; ring].
    destruct (value_to_int x =? 0), pos_sig; rewrite IH by assumption; f_equal;
      fold (minkowski_factor true r) (minkowski_factor false r); ring.
Qed.


End TensorFacts.

(** ** Contraction rules *)

Section ContractionFacts.

Variable is_dummy_pair : idx -> idx -> bool.
Variable minimal_dim : idx -> idx -> result dimension.
Variable determinant_simplify_indexed : list (list ex) -> ex.

Lemma try_contr_index_total (self_idx free_idx : idx) (self other : ex) (r : bool * (ex * ex)) :
  try_contr_index is_dummy_pair minimal_dim self_idx free_idx self other = Some r ->
  r.1 = false -> r.2 = (self, other).
Proof.
  unfold try_contr_index. intros H Hfalse.
  destruct (is_symbolic self_idx); [|discriminate].
  destruct (List.find _ _); [|discriminate].
  destruct (minimal_dim _ _); injection H as <-; [discriminate|reflexivity].
Qed.

(** [replace_contr_index] always returns, and an answer "no contraction"
    leaves both factors as they were. *)
Lemma replace_contr_index_atomic (self other : ex) :
  exists r, replace_contr_index is_dummy_pair minimal_dim self other = ok r
            /\ (r.1 = false -> r.2 = (self, other)).
Proof.
  unfold replace_contr_index.
  destruct (indices self) as [|i1 [|i2 [|]]]; try (eexists; split; [reflexivity|reflexivity]).
  destruct (try_contr_index _ _ i1 i2 self other) as [r|] eqn:H1.
  { exists r. split; [reflexivity|]. eauto using try_contr_index_total. }
  destruct (try_contr_index _ _ i2 i1 self other) as [r|] eqn:H2.
  { exists r. split; [reflexivity|]. eauto using try_contr_index_total. }
  eexists; split; reflexivity.
Qed.

(** C7. When the dummy pair the search of [replace_contr_index] settles
    on (the first index of [other] paired with the first slot of [self],
    or with the second slot when the first has no partner) has no
    minimal dimension, the answer is "no contraction", with [self] and
    [other] unchanged; the exception is not passed on. More generally
    the function returns on every input, and every "no contraction"
    leaves both factors unchanged. *)
Theorem replace_contr_index_incomparable_dimensions
    (self other : ex) (i1 i2 other_idx : idx) (e : exception) :
  indices self = [i1; i2] ->
  (is_symbolic i1 = true
   /\ List.find (is_dummy_pair i1) (indices other) = Some other_idx
   /\ minimal_dim i1 other_idx = throw e)
  \/ ((is_symbolic i1 = false \/ List.find (is_dummy_pair i1) (indices other) = None)
      /\ is_symbolic i2 = true
      /\ List.find (is_dummy_pair i2) (indices other) = Some other_idx
      /\ minimal_dim i2 other_idx = throw e) ->
  replace_contr_index is_dummy_pair minimal_dim self other = ok (false, (self, other))
  /\ forall s o : ex,
       exists r, replace_contr_index is_dummy_pair minimal_dim s o = ok r
                 /\ (r.1 = false -> r.2 = (s, o)).
Proof.
  intros Hix Hcand. split; [|apply replace_contr_index_atomic].
  unfold replace_contr_index, try_contr_index. rewrite Hix.
  destruct Hcand as [(Hs & Hf & Hm)|(H1 & Hs & Hf & Hm)].
  - rewrite Hs, Hf, Hm. reflexivity.
  - assert (Hfirst : (if is_symbolic i1
                      then match List.find (is_dummy_pair i1) (indices other) with
                           | Some other_idx0 =>
                               match minimal_dim i1 other_idx0 with
                               | ok min_dim =>
                                   Some (true, (_ex1,
                                     subs_idx other_idx0 (replace_dim i2 min_dim) other))
                               | throw _ => Some (false, (self, other))
                               end
                           | None => None
                           end
                      else None) = None).
    { destruct H1 as [H1|H1]; rewrite H1; [reflexivity|].
      destruct (is_symbolic i1); reflexivity. }
    rewrite Hfirst, Hs, Hf, Hm. reflexivity.
Qed.

(** C3. A gamma at [self], two gammas with the indices [a] and [b]
    behind it and a Clifford object at [other = self + 3]: the rule
    answers "contracted", leaves
    4 g(a,b) ONE + (dim - 4) gamma(a) gamma(b) at [self], [dim] being the
    dimension of the index of [self], and 1 at the three other places. *)
Theorem gamma_contraction_gap_two
    (v : list ex) (self : nat) (mu a b : idx) (rl rla rlb : Z) (eother : ex) :
  v !! self = Some (clifford diracgamma [mu] rl) ->
  v !! (self + 1)%nat = Some (clifford diracgamma [a] rla) ->
  v !! (self + 2)%nat = Some (clifford diracgamma [b] rlb) ->
  v !! (self + 3)%nat = Some eother ->
  is_clifford eother = true ->
  is_varidx a = true -> is_varidx b = true ->
  diracgamma_contract_with self (self + 3) v
  = ok (true,
        <[(self + 3)%nat := _ex1]>
          (<[(self + 2)%nat := _ex1]>
             (<[(self + 1)%nat := _ex1]>
                (<[self := (numeric 4 * indexed (minkmetric false) [a; b] * dirac_ONE rl
                            + (ex_of_dim (get_dim mu) - numeric 4)
                              * clifford diracgamma [a] rla
                              * clifford diracgamma [b] rlb)%ex]> v)))).
Proof.
  intros Hself H1 H2 Hother Hcl Ha Hb.
  unfold diracgamma_contract_with. rewrite Hself, Hother.
  replace (self + 3 <=? self)%nat with false by (symmetry; apply Nat.leb_gt; lia).
  simpl. rewrite Hcl. simpl.
  replace (self + 3 - self =? 1)%nat with false by (symmetry; apply Nat.eqb_neq; lia).
  replace (self + 3 - self =? 2)%nat with false by (symmetry; apply Nat.eqb_neq; lia).
  replace (self + 3 - self =? 3)%nat with true by (symmetry; apply Nat.eqb_eq; lia).
  rewrite (list_lookup_total_correct _ _ _ H1), (list_lookup_total_correct _ _ _ H2).
  simpl. unfold lorentz_g. rewrite Ha, Hb. reflexivity.
Qed.

End ContractionFacts.

(** ** Sums over a sequence *)

Lemma sum_list_with_lighter (w : ex -> nat) (l k : list ex) :
  Forall2 (fun x y => (w x <= w y)%nat) l k ->
  (sum_list_with w l <= sum_list_with w k)%nat.
Proof. induction 1; simpl; lia. Qed.

Lemma sum_list_with_lighter_strict (w : ex -> nat) (l k : list ex) (j : nat) (x y : ex) :
  Forall2 (fun x y => (w x <= w y)%nat) l k ->
  l !! j = Some x -> k !! j = Some y -> (w x < w y)%nat ->
  (sum_list_with w l < sum_list_with w k)%nat.
Proof.
  intros H. revert j. induction H as [|a b l k Hab H IH]; intros j Hl Hk Hlt.
  - discriminate.
  - pose proof (sum_list_with_lighter w l k H). destruct j as [|j]; simpl in *.
    + injection Hl as ->. injection Hk as ->. lia.
    + specialize (IH j Hl Hk Hlt). lia.
Qed.

Lemma length_fill_ones (a b : nat) (v : list ex) : length (fill_ones a b v) = length v.
Proof.
  unfold fill_ones, between.
  rewrite !length_app, length_replicate, length_take, length_drop, length_take, length_drop.
  lia.
Qed.

Lemma fill_ones_lookup_outside (a b : nat) (v : list ex) (i : nat) :
  (i < a \/ b <= i)%nat -> (a <= b)%nat -> fill_ones a b v !! i = v !! i.
Proof.
  intros Hi Hab.
  destruct (decide (i < length v)%nat) as [Hin|Hout].
  2:{ rewrite (lookup_ge_None_2 v i) by lia.
      apply lookup_ge_None_2. rewrite length_fill_ones. lia. }
  unfold fill_ones, between. rewrite length_take, length_drop.
  destruct (decide (i < a)%nat) as [Hlt|Hge].
  - rewrite lookup_app_l by (rewrite length_take; lia).
    apply lookup_take_lt. lia.
  - rewrite lookup_app_r by (rewrite length_take; lia).
    rewrite length_take. rewrite lookup_app_r by (rewrite length_replicate; lia).
    rewrite length_replicate, lookup_drop. f_equal. lia.
Qed.

(** ** The counts of indices and factors under a contraction *)















Section Counts.

Variable is_dummy_pair : idx -> idx -> bool.
Variable minimal_dim : idx -> idx -> result dimension.
Variable determinant_simplify_indexed : list (list ex) -> ex.







#[local] Arguments op1 : simpl never.
#[local] Arguments lorentz_g : simpl never.








End Counts.

(** ** Traces *)

Lemma distribute_singletons (w : list ex) : distribute ((fun x => [x]) <$> w) = [w].
Proof.
  induction w as [|x w IH]; [reflexivity|].
  rewrite fmap_cons. cbn [distribute]. rewrite IH. reflexivity.
Qed.

Lemma expand_clifford (e : ex) : is_clifford e = true -> expand e = e.
Proof. destruct e; try discriminate. reflexivity. Qed.

(** A product of Clifford objects is multiplied out already. *)
Lemma expand_clifford_word (w : list ex) :
  Forall (fun e => is_clifford e = true) w -> expand (ncmul w) = ncmul w.
Proof.
  intros Hw.
  assert (Hmap : map (fun x => summands (expand x)) w = (fun x => [x]) <$> w).
  { induction Hw as [|x w Hx _ IH]; [reflexivity|].
    simpl. rewrite IH, (expand_clifford x Hx).
    destruct x; try discriminate. reflexivity. }
  change (expand (ncmul w))
    with (match distribute (map (fun x => summands (expand x)) w) with
          | [w0] => ncmul w0
          | ws => add (map ncmul ws)
          end).
  rewrite Hmap, distribute_singletons. reflexivity.
Qed.

Lemma gamma_string_clifford (rl : Z) (ix : list idx) :
  Forall (fun e => is_clifford e = true) (gamma_string rl ix).
Proof. unfold gamma_string. apply Forall_fmap, Forall_true. reflexivity. Qed.

Lemma land_1_of_nat (n : nat) : Z.land (Z.of_nat n) 1 = if Nat.odd n then 1 else 0.
Proof.
  change 1 with (Z.ones 1) at 1. rewrite Z.land_ones by lia.
  change (2 ^ 1) with 2.
  destruct (Nat.odd n) eqn:Hodd.
  - apply Nat.odd_spec in Hodd as [k ->]. 
    replace (Z.of_nat (2 * k + 1)) with (1 + Z.of_nat k * 2) by lia.
    rewrite Z_mod_plus_full. reflexivity.
  - apply (f_equal negb) in Hodd. rewrite Nat.negb_odd in Hodd. simpl in Hodd.
    apply Nat.even_spec in Hodd as [k ->].
    replace (Z.of_nat (2 * k)) with (0 + Z.of_nat k * 2) by lia.
    rewrite Z_mod_plus_full. reflexivity.
Qed.

Section TraceFacts.

Variable TINFO_clifford : Z.
Variable tinfo_key : ex -> Z.

Lemma return_type_tinfo_clifford_word (base : diracbase) (ix : list idx) (rl : Z) (w : list ex) :
  return_type_tinfo TINFO_clifford tinfo_key (ncmul (clifford base ix rl :: w))
  = TINFO_clifford + rl.
Proof. reflexivity. Qed.

(** C2. The trace of a product of an odd number of gammas of the traced
    label is 0, and so is the trace of gamma5 followed by gammas whose
    number is odd or 2, for all indices (of any dimension and value) and
    every value of the trace of the identity. *)
Theorem dirac_trace_vanishes (fuel : nat) (rl : Z) (trONE : ex) (ix : list idx) :
  (Nat.Odd (length ix) ->
   dirac_trace TINFO_clifford tinfo_key (S fuel)
     (hold_ncmul (gamma_string rl ix)) rl trONE = ok _ex0)
  /\ (Nat.Odd (length ix) \/ length ix = 2%nat ->
      dirac_trace TINFO_clifford tinfo_key (S fuel)
        (hold_ncmul (dirac_gamma5 rl :: gamma_string rl ix)) rl trONE = ok _ex0).
Proof.
  split.
  - intros Hodd. destruct ix as [|mu [|nu ix]].
    + destruct Hodd as [k Hk]. simpl in Hk. lia.
    + simpl. rewrite Z.eqb_refl. reflexivity.
    + change (hold_ncmul (gamma_string rl (mu :: nu :: ix)))
        with (ncmul (clifford diracgamma [mu] rl :: gamma_string rl (nu :: ix))).
      cbn [dirac_trace].
      rewrite return_type_tinfo_clifford_word. unfold is_clifford_tinfo.
      rewrite Z.eqb_refl. cbn [negb].
      rewrite (expand_clifford_word (clifford diracgamma [mu] rl :: gamma_string rl (nu :: ix)))
        by (apply (gamma_string_clifford rl (mu :: nu :: ix))).
      cbn [is_ncmul negb]. 
      change ((clifford diracgamma [mu] rl :: gamma_string rl (nu :: ix)) !!! 0%nat)
        with (clifford diracgamma [mu] rl).
      cbn [op0_is_diracgamma5].
      rewrite land_1_of_nat.
      replace (length (clifford diracgamma [mu] rl :: gamma_string rl (nu :: ix)))
        with (length (mu :: nu :: ix))
        by (unfold gamma_string; simpl; rewrite length_fmap; reflexivity).
      apply Nat.odd_spec in Hodd. rewrite Hodd. reflexivity.
  - intros Hlen.
    destruct ix as [|mu ix].
    { destruct Hlen as [[k Hk]|Hk]; simpl in Hk; lia. }
    change (hold_ncmul (dirac_gamma5 rl :: gamma_string rl (mu :: ix)))
      with (ncmul (clifford diracgamma5 [] rl :: gamma_string rl (mu :: ix))).
    cbn [dirac_trace].
    rewrite return_type_tinfo_clifford_word. unfold is_clifford_tinfo.
    rewrite Z.eqb_refl. cbn [negb].
    rewrite (expand_clifford_word (clifford diracgamma5 [] rl :: gamma_string rl (mu :: ix)))
      by (constructor; [reflexivity|apply gamma_string_clifford]).
    cbn [is_ncmul negb].
    change ((clifford diracgamma5 [] rl :: gamma_string rl (mu :: ix)) !!! 0%nat)
      with (clifford diracgamma5 [] rl).
    cbn [op0_is_diracgamma5].
    rewrite land_1_of_nat.
    replace (length (clifford diracgamma5 [] rl :: gamma_string rl (mu :: ix)))
      with (S (length (mu :: ix)))
      by (unfold gamma_string; simpl; rewrite length_fmap; reflexivity).
    destruct Hlen as [Hodd|Htwo].
    + rewrite Nat.odd_succ. apply Nat.odd_spec in Hodd.
      rewrite <- Nat.negb_odd, Hodd. reflexivity.
    + rewrite Htwo. reflexivity.
Qed.

End TraceFacts.

(** *** The recursion of [trace_string] against the expansion of the
    specification *)

Lemma filter_all (P : nat -> bool) (l : list nat) :
  (forall x, In x l -> P x = true) -> List.filter P l = l.
Proof.
  induction l as [|x l IH]; intros H; [reflexivity|].
  simpl. rewrite (H x (or_introl eq_refl)). f_equal. apply IH.
  intros y Hy. apply H. right. exact Hy.
Qed.

Lemma filter_seq_ne (i len : nat) :
  (1 <= i < len)%nat ->
  List.filter (fun n => negb (n =? i)%nat) (seq 1 (len - 1))
  = seq 1 (i - 1) ++ seq (i + 1) (len - 1 - i).
Proof.
  intros Hi. remember (len - 1 - i)%nat as m eqn:Hm.
  replace (len - 1)%nat with ((i - 1) + (1 + m))%nat by lia.
  rewrite !seq_app, !List.filter_app.
  replace (1 + (i - 1))%nat with i by lia.
  rewrite (filter_all _ (seq 1 (i - 1))), (filter_all _ (seq (i + 1) _)).
  - simpl. rewrite Nat.eqb_refl. reflexivity.
  - intros x Hx. apply in_seq in Hx. apply negb_true_iff, Nat.eqb_neq. lia.
  - intros x Hx. apply in_seq in Hx. apply negb_true_iff, Nat.eqb_neq. lia.
Qed.

Lemma lookup_total_seq (l : list idx) (a k : nat) :
  (a + k <= length l)%nat -> (fun n => l !!! n) <$> seq a k = take k (drop a l).
Proof.
  revert a. induction k as [|k IH]; intros a Hk; [reflexivity|].
  destruct (lookup_lt_is_Some_2 l a) as [x Hx]; [lia|].
  rewrite (drop_S _ _ _ Hx). simpl.
  rewrite (list_lookup_total_correct _ _ _ Hx). f_equal.
  apply IH. lia.
Qed.

(** The vector the loop of [trace_string] builds at position [i] is the
    string with its first index and the index at [i + 1] (counting from
    1) removed. *)
Lemma skip_first_and_remove (i : nat) (ix : list idx) :
  (1 <= i < length ix)%nat -> skip_first_and i ix = remove_first_and (i + 1) ix.
Proof.
  intros Hi. unfold skip_first_and, remove_first_and.
  rewrite (filter_seq_ne i (length ix) Hi), fmap_app.
  rewrite !lookup_total_seq by lia.
  replace (i + 1 - 2)%nat with (i - 1)%nat by lia.
  rewrite delete_take_drop, drop_drop.
  replace (1 + S (i - 1))%nat with (i + 1)%nat by lia.
  f_equal. apply take_ge. rewrite length_drop. lia.
Qed.

Lemma length_skip_first_and (i : nat) (ix : list idx) :
  (1 <= i < length ix)%nat -> length (skip_first_and i ix) = (length ix - 2)%nat.
Proof.
  intros Hi. unfold skip_first_and.
  rewrite length_fmap, (filter_seq_ne i (length ix) Hi), length_app, !length_seq. lia.
Qed.

Lemma skip_first_and_varidx (i : nat) (ix : list idx) :
  Forall (fun j => is_varidx j = true) ix ->
  Forall (fun j => is_varidx j = true) (skip_first_and i ix).
Proof.
  intros Hix. unfold skip_first_and. apply Forall_fmap, Forall_forall.
  intros n Hn. simpl. apply filter_In in Hn as [Hn _].
  apply in_seq in Hn.
  destruct (lookup_lt_is_Some_2 ix n) as [x Hx]; [lia|].
  rewrite (list_lookup_total_correct _ _ _ Hx).
  exact (Forall_lookup_1 _ _ _ _ Hix Hx).
Qed.

Lemma lorentz_g_varidx (a b : idx) :
  is_varidx a = true -> is_varidx b = true ->
  lorentz_g a b false = ok (indexed (minkmetric false) [a; b]).
Proof. intros Ha Hb. unfold lorentz_g. rewrite Ha, Hb. reflexivity. Qed.

Lemma lookup_total_varidx (ix : list idx) (n : nat) :
  Forall (fun j => is_varidx j = true) ix -> (n < length ix)%nat ->
  is_varidx (ix !!! n) = true.
Proof.
  intros Hix Hn. destruct (lookup_lt_is_Some_2 ix n Hn) as [x Hx].
  rewrite (list_lookup_total_correct _ _ _ Hx).
  exact (Forall_lookup_1 _ _ _ _ Hix Hx).
Qed.

Lemma result_bind_ok {A B : Type} (a : A) (f : A -> result B) : (ok a ≫= f) = f a.
Proof. reflexivity. Qed.

Lemma alt_sum_seq (f : nat -> Z) (a n : nat) :
  alt_sum f (seq a n) ((-1) ^ Z.of_nat (a + 1))
  = foldr (fun k acc => (-1) ^ Z.of_nat k * f (k - 1)%nat + acc) 0 (seq (a + 1) n).
Proof.
  revert a. induction n as [|n IH]; intros a; [reflexivity|].
  simpl. replace (a + 1 - 1)%nat with a by lia. f_equal.
  replace (- (-1) ^ Z.of_nat (a + 1)) with ((-1) ^ Z.of_nat (S a + 1)).
  - rewrite IH. replace (S a + 1)%nat with (S (a + 1)) by lia. reflexivity.
  - replace (Z.of_nat (S a + 1)) with (Z.succ (Z.of_nat (a + 1))) by lia.
    rewrite Z.pow_succ_r by lia. ring.
Qed.

Lemma alt_sum_ext (f g : nat -> Z) (positions : list nat) (sign : Z) :
  (forall i, In i positions -> f i = g i) ->
  alt_sum f positions sign = alt_sum g positions sign.
Proof.
  revert sign. induction positions as [|i r IH]; intros sign H; [reflexivity|].
  simpl. rewrite (H i (or_introl eq_refl)), IH; [reflexivity|].
  intros j Hj. apply H. right. exact Hj.
Qed.

Lemma trace_string_loop_denote (rec : list idx -> result ex) (ix : list idx)
    (positions : list nat) (sign : Z) (res : ex) :
  Forall (fun j => is_varidx j = true) ix -> (0 < length ix)%nat ->
  (forall i, In i positions ->
     (i < length ix)%nat /\ exists t, rec (skip_first_and i ix) = ok t) ->
  exists e,
    trace_string_loop rec ix positions sign res = ok e
    /\ forall rho,
         denote rho e
         = denote rho res
           + alt_sum (fun i => rho (indexed (minkmetric false) [ix !!! 0%nat; ix !!! i])
                               * denote rho (trace_string_value rec (skip_first_and i ix)))
               positions sign.
Proof.
  intros Hix Hpos. revert sign res.
  induction positions as [|i rest IH]; intros sign res Hrec.
  - exists res. split; [reflexivity|]. intros rho. simpl. lia.
  - destruct (Hrec i (or_introl eq_refl)) as [Hi [t Ht]].
    destruct (IH (- sign) (res + numeric sign
                           * indexed (minkmetric false) [ix !!! 0%nat; ix !!! i] * t)%ex)
      as [e [He Hden]].
    { intros j Hj. apply Hrec. right. exact Hj. }
    exists e. split.
    + cbn [trace_string_loop].
      rewrite lorentz_g_varidx by (apply lookup_total_varidx; assumption).
      rewrite result_bind_ok, Ht, result_bind_ok. exact He.
    + intros rho. rewrite Hden. cbn [alt_sum].
      unfold trace_string_value at 2. rewrite Ht.
      unfold ex_add, ex_mul. cbn [denote foldr]. ring.
Qed.

Lemma foldr_sum_ext (f g : nat -> Z) (l : list nat) :
  (forall k, In k l -> f k = g k) ->
  foldr (fun k acc => f k + acc) 0 l = foldr (fun k acc => g k + acc) 0 l.
Proof.
  induction l as [|k l IH]; intros H; [reflexivity|].
  simpl. rewrite (H k (or_introl eq_refl)), IH; [reflexivity|].
  intros j Hj. apply H. right. exact Hj.
Qed.

Lemma denote_add_fmap (rho : ex -> Z) (term : nat -> ex) (l : list nat) :
  denote rho (add (term <$> l)) = foldr (fun k acc => denote rho (term k) + acc) 0 l.
Proof.
  cbn [denote]. induction l as [|k l IH]; [reflexivity|].
  rewrite fmap_cons. cbn [foldr]. rewrite IH. reflexivity.
Qed.

Lemma trace_expansion_two (d : nat) (a b : idx) :
  trace_expansion d [a; b] = indexed (minkmetric false) [a; b].
Proof. destruct d; reflexivity. Qed.

Lemma trace_expansion_step (d : nat) (a b c : idx) (ix : list idx) :
  trace_expansion (S d) (a :: b :: c :: ix)
  = add ((fun k => (numeric ((-1) ^ Z.of_nat k)
                    * indexed (minkmetric false)
                        [nth_index (a :: b :: c :: ix) 1; nth_index (a :: b :: c :: ix) k]
                    * trace_expansion d (remove_first_and k (a :: b :: c :: ix)))%ex)
         <$> seq 2 (length (a :: b :: c :: ix) - 1)).
Proof. reflexivity. Qed.

(** [trace_string] returns on a string of an even number of varidx
    indices, with the value of the expansion of the specification. *)
Lemma trace_string_refines (fuel : nat) :
  forall (ix : list idx) (d : nat),
    Forall (fun j => is_varidx j = true) ix ->
    Nat.Even (length ix) -> (2 <= length ix)%nat ->
    (length ix <= 2 * fuel)%nat -> (length ix <= 2 * d + 2)%nat ->
    exists e, trace_string fuel ix = ok e
              /\ forall rho, denote rho e = denote rho (trace_expansion d ix).
Proof.
  induction fuel as [|fuel IH]; intros ix d Hix Heven Hlen Hfuel Hd; [lia|].
  cbn [trace_string].
  destruct (length ix =? 2)%nat eqn:E2.
  { apply Nat.eqb_eq in E2. destruct ix as [|a [|b [|]]]; try discriminate.
    inversion Hix as [|? ? Ha Hix']. inversion Hix' as [|? ? Hb _]. subst.
    exists (indexed (minkmetric false) [a; b]). split.
    - apply lorentz_g_varidx; assumption.
    - intros rho. rewrite trace_expansion_two. reflexivity. }
  destruct (length ix =? 4)%nat eqn:E4.
  { apply Nat.eqb_eq in E4. destruct ix as [|a [|b [|c [|e [|]]]]]; try discriminate.
    inversion Hix as [|? ? Ha Hix1]. inversion Hix1 as [|? ? Hb Hix2].
    inversion Hix2 as [|? ? Hc Hix3]. inversion Hix3 as [|? ? He _]. subst.
    destruct d as [|d]; [simpl in Hd; lia|].
    eexists. split.
    - change ([a; b; c; e] !!! 0%nat) with a. change ([a; b; c; e] !!! 1%nat) with b.
      change ([a; b; c; e] !!! 2%nat) with c. change ([a; b; c; e] !!! 3%nat) with e.
      rewrite !lorentz_g_varidx by assumption. reflexivity.
    - intros rho. rewrite trace_expansion_step.
      change (seq 2 (length [a; b; c; e] - 1)) with [2; 3; 4]%nat.
      rewrite !fmap_cons, fmap_nil.
      change (remove_first_and 2 [a; b; c; e]) with [c; e].
      change (remove_first_and 3 [a; b; c; e]) with [b; e].
      change (remove_first_and 4 [a; b; c; e]) with [b; c].
      rewrite !trace_expansion_two.
      change (nth_index [a; b; c; e] 1) with a. change (nth_index [a; b; c; e] 2) with b.
      change (nth_index [a; b; c; e] 3) with c. change (nth_index [a; b; c; e] 4) with e.
      unfold ex_add, ex_sub, ex_mul. cbn [denote foldr].
      change ((-1) ^ Z.of_nat 2) with 1. change ((-1) ^ Z.of_nat 3) with (-1).
      change ((-1) ^ Z.of_nat 4) with 1. change (denote rho _ex_1) with (-1). ring. }
  apply Nat.eqb_neq in E2. apply Nat.eqb_neq in E4.
  assert (Hsix : (6 <= length ix)%nat).
  { destruct Heven as [k Hk]. lia. }
  replace (length ix <? 2)%nat with false by (symmetry; apply Nat.ltb_ge; lia).
  destruct d as [|d]; [lia|].
  assert (Hsub : forall i, In i (seq 1 (length ix - 1)) ->
            exists t, trace_string fuel (skip_first_and i ix) = ok t
                      /\ forall rho, denote rho t
                                     = denote rho (trace_expansion d (skip_first_and i ix))).
  { intros i Hi. apply in_seq in Hi.
    assert (Hl : length (skip_first_and i ix) = (length ix - 2)%nat)
      by (apply length_skip_first_and; lia).
    apply IH.
    - apply skip_first_and_varidx, Hix.
    - rewrite Hl. destruct Heven as [k Hk]. exists (k - 1)%nat. lia.
    - lia.
    - lia.
    - lia. }
  destruct (trace_string_loop_denote (trace_string fuel) ix (seq 1 (length ix - 1)) 1 _ex0)
    as [e [He Hden]]; [exact Hix|lia| |].
  { intros i Hi. split; [apply in_seq in Hi; lia|].
    destruct (Hsub i Hi) as [t [Ht _]]. exists t. exact Ht. }
  exists e. split; [exact He|].
  intros rho. rewrite Hden.
  destruct ix as [|a [|b [|c ix]]]; try (simpl in Hsix; lia).
  rewrite trace_expansion_step, denote_add_fmap.
  change 1 with ((-1) ^ Z.of_nat (1 + 1)) at 1. rewrite alt_sum_seq.
  change (denote rho _ex0) with 0. rewrite Z.add_0_l.
  change (1 + 1)%nat with 2%nat.
  apply foldr_sum_ext. intros k Hk. pose proof Hk as Hk'. apply in_seq in Hk'.
  assert (Hki : In (k - 1)%nat (seq 1 (length (a :: b :: c :: ix) - 1))).
  { apply in_seq. simpl in *. lia. }
  destruct (Hsub (k - 1)%nat Hki) as [t [Ht Htden]].
  unfold trace_string_value. rewrite Ht, Htden.
  rewrite skip_first_and_remove by (simpl in *; lia).
  replace (k - 1 + 1)%nat with k by lia.
  unfold ex_mul. cbn [denote foldr]. unfold nth_index.
  change (1 - 1)%nat with 0%nat. ring.
Qed.

Lemma result_map_op1_gamma_string (rl : Z) (ix : list idx) :
  result_map op1 (gamma_string rl ix) = ok ix.
Proof.
  induction ix as [|mu ix IH]; [reflexivity|].
  unfold gamma_string in *. rewrite fmap_cons. cbn [result_map].
  change (op1 (clifford diracgamma [mu] rl)) with (ok mu).
  rewrite result_bind_ok.
  change ((fix go (l : list ex) : result (list idx) :=
             match l with
             | [] => ok []
             | x :: r => op1 x ≫= (fun y => go r ≫= (fun ys => ok (y :: ys)))
             end) ((fun mu0 => clifford diracgamma [mu0] rl) <$> ix))
    with (result_map op1 ((fun mu0 => clifford diracgamma [mu0] rl) <$> ix)).
  rewrite IH. reflexivity.
Qed.

Section TraceExpansion.

Variable TINFO_clifford : Z.
Variable tinfo_key : ex -> Z.

(** The trace of two gammas. *)
Lemma dirac_trace_two_gammas (fuel : nat) (rl : Z) (trONE : ex) (mu nu : idx) :
  is_varidx mu = true -> is_varidx nu = true ->
  dirac_trace TINFO_clifford tinfo_key (S fuel) (ncmul (gamma_string rl [mu; nu])) rl trONE
  = ok (trONE * indexed (minkmetric false) [mu; nu])%ex.
Proof.
  intros Hmu Hnu. cbn [dirac_trace gamma_string fmap list_fmap].
  rewrite return_type_tinfo_clifford_word. unfold is_clifford_tinfo.
  rewrite Z.eqb_refl. cbn [negb].
  rewrite (expand_clifford_word [clifford diracgamma [mu] rl; clifford diracgamma [nu] rl])
    by (repeat constructor).
  cbn. unfold lorentz_g. rewrite Hmu, Hnu. reflexivity.
Qed.

(** C1. For a product of an even number N >= 4 of gammas of the traced
    label (with indices of type varidx, as [dirac_gamma] admits them)
    [dirac_trace] returns [trONE] times a sum [t] that has the value of
    the recursive expansion of the specification: the sum over
    k = 2..N of (-1)^k g(idx1, idx_k) times the expansion of the string
    without idx1 and idx_k, down to g(mu, nu) for two indices. For N = 4
    the sum is g(mu,nu) g(rho,sig) + g(nu,rho) g(mu,sig)
    - g(mu,rho) g(nu,sig), and the trace of two gammas is
    [trONE] g(mu, nu). *)
Theorem dirac_trace_even_gamma_string (fuel : nat) (rl : Z) (trONE : ex) (ix : list idx) :
  Forall (fun j => is_varidx j = true) ix ->
  Nat.Even (length ix) -> (4 <= length ix)%nat -> (length ix <= 2 * fuel)%nat ->
  exists t,
    dirac_trace TINFO_clifford tinfo_key (S fuel) (ncmul (gamma_string rl ix)) rl trONE
    = ok (trONE * t)%ex
    /\ (forall rho,
          denote rho (trONE * t)%ex
          = denote rho (trONE * trace_expansion (length ix) ix)%ex)
    /\ (forall mu nu rho sig, ix = [mu; nu; rho; sig] ->
          t = (indexed (minkmetric false) [mu; nu] * indexed (minkmetric false) [rho; sig]
               + indexed (minkmetric false) [nu; rho] * indexed (minkmetric false) [mu; sig]
               - indexed (minkmetric false) [mu; rho] * indexed (minkmetric false) [nu; sig])%ex)
    /\ (forall mu nu, is_varidx mu = true -> is_varidx nu = true ->
          dirac_trace TINFO_clifford tinfo_key (S fuel)
            (ncmul (gamma_string rl [mu; nu])) rl trONE
          = ok (trONE * indexed (minkmetric false) [mu; nu])%ex).
Proof.
  intros Hix Heven Hlen Hfuel.
  destruct (trace_string_refines fuel ix (length ix) Hix Heven) as [t [Ht Hden]]; [lia..|].
  exists t. split; [|split; [|split]].
  - destruct ix as [|a ix]; [simpl in Hlen; lia|].
    change (gamma_string rl (a :: ix))
      with (clifford diracgamma [a] rl :: gamma_string rl ix).
    cbn [dirac_trace].
    rewrite return_type_tinfo_clifford_word. unfold is_clifford_tinfo.
    rewrite Z.eqb_refl. cbn [negb].
    rewrite (expand_clifford_word (clifford diracgamma [a] rl :: gamma_string rl ix))
      by (apply (gamma_string_clifford rl (a :: ix))).
    cbn [is_ncmul negb].
    change ((clifford diracgamma [a] rl :: gamma_string rl ix) !!! 0%nat)
      with (clifford diracgamma [a] rl).
    cbn [op0_is_diracgamma5].
    rewrite land_1_of_nat.
    replace (length (clifford diracgamma [a] rl :: gamma_string rl ix))
      with (length (a :: ix))
      by (unfold gamma_string; simpl; rewrite length_fmap; reflexivity).
    replace (Nat.odd (length (a :: ix))) with false.
    2:{ symmetry. rewrite <- Nat.negb_even. apply Nat.even_spec in Heven.
        rewrite Heven. reflexivity. }
    change (0 =? 1) with false. cbv iota.
    replace (length (a :: ix) =? 2)%nat with false
      by (symmetry; apply Nat.eqb_neq; lia).
    change (clifford diracgamma [a] rl :: gamma_string rl ix)
      with (gamma_string rl (a :: ix)).
    rewrite result_map_op1_gamma_string, result_bind_ok, Ht, result_bind_ok.
    reflexivity.
  - intros rho. unfold ex_mul. cbn [denote foldr]. rewrite Hden. reflexivity.
  - intros mu nu rho sig ->.
    destruct fuel as [|fuel]; [simpl in Hfuel; lia|].
    inversion Hix as [|? ? Ha Hix1]. inversion Hix1 as [|? ? Hb Hix2].
    inversion Hix2 as [|? ? Hc Hix3]. inversion Hix3 as [|? ? He _]. subst.
    revert Ht. cbn [trace_string length Nat.eqb].
    change ([mu; nu; rho; sig] !!! 0%nat) with mu.
    change ([mu; nu; rho; sig] !!! 1%nat) with nu.
    change ([mu; nu; rho; sig] !!! 2%nat) with rho.
    change ([mu; nu; rho; sig] !!! 3%nat) with sig.
    rewrite !lorentz_g_varidx by assumption.
    rewrite !result_bind_ok. intros [= <-]. reflexivity.
  - intros mu nu. apply dirac_trace_two_gammas.
Qed.

End TraceExpansion.

(** ** The normalizer of Clifford products *)

(** One step of the sweep either leaves the state alone or swaps a
    gamma5 with the factor to its left, which is not a gamma5, and flips
    the sign. *)
Lemma swap_step_flips (it : nat) (s : list ex) (sign : Z) (changed : bool) :
  swap_step it (s, sign, changed) = (s, sign, changed)
  \/ exists a b,
       s !! it = Some a /\ s !! (S it) = Some b
       /\ op0_is_diracgamma5 a = false /\ op0_is_diracgamma5 b = true
       /\ swap_step it (s, sign, changed) = (<[S it := a]> (<[it := b]> s), - sign, true).
Proof.
  unfold swap_step.
  destruct (s !! it) as [a|] eqn:Ha; [|left; reflexivity].
  destruct (s !! S it) as [b|] eqn:Hb; [|left; reflexivity].
  destruct (op0_is_diracgamma5 a) eqn:Ga; [left; reflexivity|].
  destruct (op0_is_diracgamma5 b) eqn:Gb; [|left; reflexivity].
  right. exists a, b. rewrite Ga, Gb. repeat split; first [assumption | reflexivity].
Qed.

(** C5. With the automatic evaluation of products of Clifford objects
    of one label, gamma5 gamma(mu) and gamma(mu) gamma5 evaluate to the
    same word with the signs +1 and -1, and gamma5 gamma(mu) gamma5 to
    the word gamma(mu) with the sign -1, so that
    gamma5 gamma(mu) + gamma(mu) gamma5 and
    gamma5 gamma(mu) gamma5 + gamma(mu) are sums of cancelling terms, for
    every index mu. Every swap of the sweep moves a gamma5 to the left
    of a factor that is not a gamma5 and flips the sign, and a product
    of two gamma5 is the identity. *)
Theorem gamma5_anticommutation (fuel : nat) (rl : Z) (mu : idx) :
  let g5 := dirac_gamma5 rl in
  let gmu := clifford diracgamma [mu] rl in
  (exists t1 t2,
     eval_ncmul (S (S fuel)) rl [g5; gmu] = ok t1
     /\ eval_ncmul (S (S fuel)) rl [gmu; g5] = ok t2
     /\ t1 = (1, [], [g5; gmu]) /\ t2 = (-1, [], [g5; gmu])
     /\ cancel t1 t2)
  /\ (exists t3,
        eval_ncmul (S (S fuel)) rl [g5; gmu; g5] = ok t3
        /\ t3 = (-1, [], [gmu])
        /\ cancel t3 (1, [], [gmu]))
  /\ (forall it s sign changed,
        swap_step it (s, sign, changed) = (s, sign, changed)
        \/ exists a b,
             s !! it = Some a /\ s !! (S it) = Some b
             /\ op0_is_diracgamma5 a = false /\ op0_is_diracgamma5 b = true
             /\ swap_step it (s, sign, changed)
                = (<[S it := a]> (<[it := b]> s), - sign, true))
  /\ simplify_ncmul rl [g5; g5] = ok (ONE_times 1)
  /\ (forall r, remove_gamma5_squares (g5 :: g5 :: r)
                = ((remove_gamma5_squares r).1, true)).
Proof.
  cbv zeta. split; [|split; [|split; [|split]]].
  - eexists _, _. split; [reflexivity|]. split; [reflexivity|].
    split; [reflexivity|]. split; [reflexivity|]. repeat split.
  - eexists. split; [reflexivity|]. split; [reflexivity|]. repeat split.
  - intros. apply swap_step_flips.
  - reflexivity.
  - intros r. reflexivity.
Qed.

(** *** Fixed points *)

Lemma filter_all_ex (P : ex -> bool) (l : list ex) :
  forallb P l = true -> List.filter P l = l.
Proof.
  induction l as [|x l IH]; intros H; [reflexivity|].
  simpl in *. apply andb_true_iff in H as [Hx Hl]. rewrite Hx, IH by assumption.
  reflexivity.
Qed.

Lemma adjacent_lookup (v : list ex) (it : nat) (a b : ex) :
  v !! it = Some a -> v !! (S it) = Some b -> In (a, b) (adjacent v).
Proof.
  revert it. induction v as [|x v IH]; intros it Ha Hb; [discriminate|].
  destruct v as [|y v]; [destruct it; discriminate|].
  destruct it as [|it].
  - injection Ha as ->. injection Hb as ->. left. reflexivity.
  - right. apply (IH it); assumption.
Qed.

Lemma inner_sweep_fixed (st : list ex * Z * bool) (it : nat) :
  (forall j, swap_step j st = st) -> inner_sweep it st = st.
Proof.
  intros H. induction it as [|it IH]; cbn [inner_sweep]; cbv zeta; rewrite H;
    [reflexivity|exact IH].
Qed.

Lemma outer_sweep_fixed (st : list ex * Z * bool) (n : nat) :
  (forall j, swap_step j st = st) -> outer_sweep n st = st.
Proof.
  intros H. induction n as [|n IH]; cbn [outer_sweep]; cbv zeta;
    rewrite inner_sweep_fixed by exact H; [reflexivity|exact IH].
Qed.

Lemma anticommute_gamma5_fixed (v : list ex) :
  gamma5_swap_fires v = false -> anticommute_gamma5 v = (v, 1, false).
Proof.
  intros Hno. unfold anticommute_gamma5.
  destruct (2 <=? length v)%nat; [|reflexivity].
  apply outer_sweep_fixed. intros j. unfold swap_step.
  destruct (v !! j) as [a|] eqn:Ha; [|reflexivity].
  destruct (v !! S j) as [b|] eqn:Hb; [|reflexivity].
  unfold gamma5_swap_fires in Hno.
  assert (Hab : negb (op0_is_diracgamma5 a) && op0_is_diracgamma5 b = false).
  { destruct (negb (op0_is_diracgamma5 a) && op0_is_diracgamma5 b) eqn:E; [|reflexivity].
    rewrite <- Hno. symmetry. apply existsb_exists. exists (a, b).
    split; [eapply adjacent_lookup; eauto|exact E]. }
  rewrite Hab. reflexivity.
Qed.

Lemma remove_gamma5_squares_fixed (v : list ex) :
  gamma5_square_fires v = false -> remove_gamma5_squares v = (v, false).
Proof.
  destruct v as [|a [|b r]]; try reflexivity.
  simpl. intros ->. reflexivity.
Qed.

Lemma result_foldl_fixed {A B : Type} (f : A -> B -> result A) (a : A) (l : list B) :
  (forall x, In x l -> f a x = ok a) -> result_foldl f a l = ok a.
Proof.
  induction l as [|x l IH]; intros H; [reflexivity|].
  simpl. rewrite (H x (or_introl eq_refl)), result_bind_ok.
  apply IH. intros y Hy. apply H. right. exact Hy.
Qed.

Lemma remove_equal_adjacent_fixed (rl : Z) (v : list ex) :
  equal_gammas_fire v = false -> remove_equal_adjacent rl (v, false) = ok (v, false).
Proof.
  intros Hno. unfold remove_equal_adjacent. cbn [fst].
  destruct (2 <=? length v)%nat; [|reflexivity].
  apply result_foldl_fixed. intros it Hit. apply in_seq in Hit.
  unfold merge_step.
  destruct (lookup_lt_is_Some_2 v it) as [a Ha]; [lia|].
  destruct (lookup_lt_is_Some_2 v (S it)) as [b Hb]; [lia|].
  rewrite (list_lookup_total_correct _ _ _ Ha), (list_lookup_total_correct _ _ _ Hb).
  destruct (op0_is_diracgamma a && op0_is_diracgamma b) eqn:Hg; [|reflexivity].
  unfold equal_gammas_fire in Hno.
  assert (Hab : match op1 a, op1 b with
                | ok ia, ok ib => bool_decide (ia = ib)
                | _, _ => true
                end = false).
  { destruct (match op1 a, op1 b with
              | ok ia, ok ib => bool_decide (ia = ib)
              | _, _ => true
              end) eqn:E; [|reflexivity].
    rewrite <- Hno. symmetry. apply existsb_exists. exists (a, b).
    split; [eapply adjacent_lookup; eauto|]. cbn [fst snd]. rewrite Hg, E. reflexivity. }
  destruct (op1 a) as [ia|]; [|discriminate].
  destruct (op1 b) as [ib|]; [|discriminate].
  rewrite !result_bind_ok, Hab. reflexivity.
Qed.

(** The normalizer returns a product on which no rule fires as it is,
    with the sign +1, and final. *)
Lemma simplify_ncmul_fixed (rl : Z) (v : list ex) :
  v <> [] -> no_rule_fires v = true ->
  simplify_ncmul rl v = ok (simplified_ncmul v 1).
Proof.
  intros Hne Hno. unfold no_rule_fires in Hno.
  apply andb_true_iff in Hno as [Hno Hd]. apply andb_true_iff in Hno as [Hno Hc].
  apply andb_true_iff in Hno as [Ha Hb].
  apply negb_true_iff in Ha, Hb, Hc, Hd.
  unfold simplify_ncmul.
  rewrite filter_all_ex.
  2:{ unfold identity_fires in Ha. apply forallb_forall. intros x Hx.
      destruct (op0_is_diracone x) eqn:E; [|reflexivity].
      exfalso. apply not_true_iff_false in Ha. apply Ha.
      apply existsb_exists. exists x. split; assumption. }
  rewrite (anticommute_gamma5_fixed v Hb), (remove_gamma5_squares_fixed v Hc).
  cbn [orb]. rewrite (remove_equal_adjacent_fixed rl v Hd), result_bind_ok. cbn [fst snd].
  destruct v; [contradiction|reflexivity].
Qed.

Lemma result_map_fixed (f : ex -> result ex) (l : list ex) :
  Forall (fun x => f x = ok x) l -> result_map f l = ok l.
Proof.
  induction 1 as [|x l Hx _ IH]; [reflexivity|].
  cbn [result_map]. rewrite Hx, result_bind_ok.
  change ((fix go (l0 : list ex) : result (list ex) :=
             match l0 with
             | [] => ok []
             | x0 :: r => f x0 ≫= (fun y => go r ≫= (fun ys => ok (y :: ys)))
             end) l)
    with (result_map f l).
  rewrite IH. reflexivity.
Qed.

Section CanonicalOrder.

Variable TINFO_clifford : Z.
Variable tinfo_key : ex -> Z.
Variable idx_compare : idx -> idx -> Z.

Lemma first_unsorted_none (v : list ex) (positions : list nat) :
  (forall it, In it positions -> in_order idx_compare (v !!! it, v !!! (S it)) = true) ->
  first_unsorted idx_compare v positions = ok None.
Proof.
  induction positions as [|it rest IH]; intros H; [reflexivity|].
  cbn [first_unsorted].
  pose proof (H it (or_introl eq_refl)) as Hit. unfold in_order in Hit. cbn [fst snd] in Hit.
  destruct (op1 (v !!! it)) as [i0|]; [|discriminate].
  destruct (op1 (v !!! S it)) as [i1|]; [|discriminate].
  rewrite !result_bind_ok. apply negb_true_iff in Hit. rewrite Hit.
  apply IH. intros j Hj. apply H. right. exact Hj.
Qed.

Lemma skip_gamma5_drop (v : list ex) :
  skip_gamma5 v = drop (if op0_is_diracgamma5 (v !!! 0%nat) then 1 else 0)%nat v.
Proof.
  destruct v as [|a r]; [reflexivity|].
  change ((a :: r) !!! 0%nat) with a. simpl.
  destruct (op0_is_diracgamma5 a); reflexivity.
Qed.

Lemma gammas_sorted_positions (v : list ex) (it : nat) :
  gammas_sorted idx_compare v = true -> In it (sort_positions v) ->
  in_order idx_compare (v !!! it, v !!! (S it)) = true.
Proof.
  unfold gammas_sorted, sort_positions. rewrite skip_gamma5_drop.
  set (start := (if op0_is_diracgamma5 (v !!! 0%nat) then 1 else 0)%nat).
  intros Hsorted Hit. apply in_seq in Hit.
  destruct (lookup_lt_is_Some_2 v it) as [a Ha]; [lia|].
  destruct (lookup_lt_is_Some_2 v (S it)) as [b Hb]; [lia|].
  rewrite (list_lookup_total_correct _ _ _ Ha), (list_lookup_total_correct _ _ _ Hb).
  eapply forallb_forall; [exact Hsorted|].
  apply (adjacent_lookup _ (it - start)).
  - rewrite lookup_drop. rewrite <- Ha. f_equal. lia.
  - rewrite lookup_drop. rewrite <- Hb. f_equal. lia.
Qed.

Lemma canonicalize_clifford_add (fuel : nat) (ops : list ex) :
  canonicalize_clifford TINFO_clifford tinfo_key idx_compare fuel (add ops)
  = result_map (canonicalize_clifford TINFO_clifford tinfo_key idx_compare fuel) ops
    ≫= (fun ops' => ok (add ops')).
Proof. destruct fuel; reflexivity. Qed.

Lemma canonicalize_clifford_mul (fuel : nat) (ops : list ex) :
  canonicalize_clifford TINFO_clifford tinfo_key idx_compare fuel (mul ops)
  = result_map (canonicalize_clifford TINFO_clifford tinfo_key idx_compare fuel) ops
    ≫= (fun ops' => ok (mul ops')).
Proof. destruct fuel; reflexivity. Qed.

Lemma canonicalize_clifford_sorted_word (fuel : nat) (v : list ex) :
  Forall (fun e => is_clifford e = true) v ->
  gammas_sorted idx_compare v = true ->
  canonicalize_clifford TINFO_clifford tinfo_key idx_compare fuel (ncmul v) = ok (ncmul v).
Proof.
  intros Hcl Hsorted.
  assert (Hfound : first_unsorted idx_compare v (sort_positions v) = ok None).
  { apply first_unsorted_none. intros it Hit. apply gammas_sorted_positions; assumption. }
  destruct fuel; cbn [canonicalize_clifford];
    destruct (return_type_is_noncommutative TINFO_clifford tinfo_key (ncmul v)
              && is_clifford_tinfo_any TINFO_clifford
                   (return_type_tinfo TINFO_clifford tinfo_key (ncmul v)));
    try reflexivity;
    rewrite (expand_clifford_word v Hcl); cbn [is_ncmul negb];
    destruct (is_clifford (v !!! 0%nat)); cbn [negb]; try reflexivity;
    rewrite Hfound, result_bind_ok; reflexivity.
Qed.

(** A canonical expression is returned as it is. *)
Lemma canonicalize_clifford_fixed (fuel : nat) (e : ex) :
  clifford_words_sorted idx_compare e = true ->
  canonicalize_clifford TINFO_clifford tinfo_key idx_compare fuel e = ok e.
Proof.
  induction e as [n| |s|b ix|b ix rl|ops IH|ops IH|v _] using ex_nested_ind;
    intros Hsorted; try (destruct fuel; reflexivity).
  - rewrite canonicalize_clifford_add, result_map_fixed; [reflexivity|].
    cbn [clifford_words_sorted] in Hsorted.
    rewrite forallb_forall in Hsorted. rewrite List.Forall_forall in IH |- *.
    intros x Hx. apply IH; [exact Hx|]. apply Hsorted, Hx.
  - rewrite canonicalize_clifford_mul, result_map_fixed; [reflexivity|].
    cbn [clifford_words_sorted] in Hsorted.
    rewrite forallb_forall in Hsorted. rewrite List.Forall_forall in IH |- *.
    intros x Hx. apply IH; [exact Hx|]. apply Hsorted, Hx.
  - cbn [clifford_words_sorted] in Hsorted. apply andb_true_iff in Hsorted as [Hcl Hs].
    apply canonicalize_clifford_sorted_word; [|exact Hs].
    apply List.Forall_forall. rewrite forallb_forall in Hcl. exact Hcl.
Qed.

(** C8. The normalizer returns a product on which none of its rules
    fires unchanged, with the sign +1, as a final product; the canonical
    orderer returns an expression whose Clifford products are in the
    order of their indices unchanged. *)
Theorem normal_forms_are_fixed_points (rl : Z) (v : list ex) (e : ex) (fuel : nat) :
  v <> [] -> no_rule_fires v = true ->
  clifford_words_sorted idx_compare e = true ->
  simplify_ncmul rl v = ok (simplified_ncmul v 1)
  /\ canonicalize_clifford TINFO_clifford tinfo_key idx_compare fuel e = ok e.
Proof.
  intros Hne Hno Hsorted. split.
  - apply simplify_ncmul_fixed; assumption.
  - apply canonicalize_clifford_fixed, Hsorted.
Qed.

End CanonicalOrder.

(** ** Further rules of the gammas, the metric and the trace *)

(** gamma~mu gamma.mu = dim ONE: two neighbouring factors. *)
Theorem gamma_contraction_gap_zero
    (v : list ex) (self : nat) (mu : idx) (rl : Z) (eother : ex) :
  v !! self = Some (clifford diracgamma [mu] rl) ->
  v !! (self + 1)%nat = Some eother ->
  is_clifford eother = true ->
  diracgamma_contract_with self (self + 1) v
  = ok (true, <[(self + 1)%nat := dirac_ONE rl]> (<[self := ex_of_dim (get_dim mu)]> v)).
Proof.
  intros Hself Hother Hcl. unfold diracgamma_contract_with. rewrite Hself, Hother.
  replace (self + 1 <=? self)%nat with false by (symmetry; apply Nat.leb_gt; lia).
  simpl. rewrite Hcl. simpl.
  replace (self + 1 - self =? 1)%nat with true by (symmetry; apply Nat.eqb_eq; lia).
  reflexivity.
Qed.

(** gamma~mu gamma~alpha gamma.mu = (2 - dim) gamma~alpha: one Clifford
    object in between, which stays. *)
Theorem gamma_contraction_gap_one
    (v : list ex) (self : nat) (mu : idx) (rl : Z) (emid eother : ex) :
  v !! self = Some (clifford diracgamma [mu] rl) ->
  v !! (self + 1)%nat = Some emid ->
  v !! (self + 2)%nat = Some eother ->
  is_clifford emid = true -> is_clifford eother = true ->
  diracgamma_contract_with self (self + 2) v
  = ok (true, <[(self + 2)%nat := _ex1]> (<[self := (_ex2 - ex_of_dim (get_dim mu))%ex]> v)).
Proof.
  intros Hself Hmid Hother Hm Hcl. unfold diracgamma_contract_with. rewrite Hself, Hother.
  replace (self + 2 <=? self)%nat with false by (symmetry; apply Nat.leb_gt; lia).
  simpl. rewrite Hcl. simpl.
  replace (self + 2 - self =? 1)%nat with false by (symmetry; apply Nat.eqb_neq; lia).
  replace (self + 2 - self =? 2)%nat with true by (symmetry; apply Nat.eqb_eq; lia).
  rewrite (list_lookup_total_correct _ _ _ Hmid), Hm. reflexivity.
Qed.

(** A metric tensor leaves the contraction with a delta tensor to the
    delta tensor. *)
Theorem metric_defers_to_delta
    (is_dummy_pair : idx -> idx -> bool) (minimal_dim : idx -> idx -> result dimension)
    (self : ex) (ix : list idx) :
  tensmetric_contract_with is_dummy_pair minimal_dim self (indexed tensdelta ix)
  = ok (false, (self, indexed tensdelta ix)).
Proof. reflexivity. Qed.

(** ONE ONE = ONE and ONE gamma~mu ONE = gamma~mu, with the sign +1. *)
Theorem identity_laws (fuel : nat) (rl : Z) (mu : idx) :
  eval_ncmul (S fuel) rl [dirac_ONE rl; dirac_ONE rl] = ok (1, [], [dirac_ONE rl])
  /\ eval_ncmul (S fuel) rl [dirac_ONE rl; clifford diracgamma [mu] rl; dirac_ONE rl]
     = ok (1, [], [clifford diracgamma [mu] rl]).
Proof. split; reflexivity. Qed.

(** Two neighbouring gammas with the same index become the metric
    tensor at that index and the identity, and the product is evaluated
    again. *)
Theorem equal_adjacent_gammas (rl : Z) (mu : idx) :
  is_varidx mu = true ->
  simplify_ncmul rl [clifford diracgamma [mu] rl; clifford diracgamma [mu] rl]
  = ok (nonsimplified_ncmul [indexed (minkmetric false) [mu; mu]; dirac_ONE rl] 1).
Proof.
  intros Hmu. unfold simplify_ncmul. cbn [List.filter op0_is_diracone negb].
  change (anticommute_gamma5 [clifford diracgamma [mu] rl; clifford diracgamma [mu] rl])
    with ([clifford diracgamma [mu] rl; clifford diracgamma [mu] rl], 1, false).
  cbn [remove_gamma5_squares op0_is_diracgamma5 andb orb].
  unfold remove_equal_adjacent. cbn [fst length Nat.leb seq Nat.sub result_foldl].
  unfold merge_step.
  change ([clifford diracgamma [mu] rl; clifford diracgamma [mu] rl] !!! 0%nat)
    with (clifford diracgamma [mu] rl).
  change ([clifford diracgamma [mu] rl; clifford diracgamma [mu] rl] !!! 1%nat)
    with (clifford diracgamma [mu] rl).
  cbn [op0_is_diracgamma andb].
  change (op1 (clifford diracgamma [mu] rl)) with (ok mu).
  rewrite !result_bind_ok, bool_decide_eq_true_2 by reflexivity.
  rewrite (lorentz_g_varidx mu mu Hmu Hmu), !result_bind_ok. reflexivity.
Qed.

Section TraceOfAtoms.

Variable TINFO_clifford : Z.
Variable tinfo_key : ex -> Z.

(** The trace of the identity of the traced label is [trONE]; the trace
    of a single gamma or gamma5, and of a Clifford object of another
    label, is 0. *)
Theorem dirac_trace_of_a_clifford_object
    (fuel : nat) (rl rl' : Z) (trONE : ex) (base : diracbase) (ix : list idx) :
  dirac_trace TINFO_clifford tinfo_key (S fuel) (dirac_ONE rl) rl trONE = ok trONE
  /\ (base <> diracone ->
      dirac_trace TINFO_clifford tinfo_key (S fuel) (clifford base ix rl) rl trONE = ok _ex0)
  /\ (rl' <> rl ->
      dirac_trace TINFO_clifford tinfo_key (S fuel) (clifford base ix rl') rl trONE = ok _ex0).
Proof.
  split; [|split].
  - simpl. rewrite Z.eqb_refl. reflexivity.
  - intros Hbase. simpl. destruct base; [contradiction|..];
      rewrite andb_false_r; reflexivity.
  - intros Hrl. simpl. apply Z.eqb_neq in Hrl. rewrite Hrl. reflexivity.
Qed.

End TraceOfAtoms.
(** ** What the contraction rules leave alone *)

Section Frame.

Variable is_dummy_pair : idx -> idx -> bool.
Variable minimal_dim : idx -> idx -> result dimension.
Variable determinant_simplify_indexed : list (list ex) -> ex.

Lemma spin_try_contr_index_answer (self_idx free_idx : idx) (sign : Z) (self other : ex)
    (r : bool * (ex * ex)) :
  spin_try_contr_index is_dummy_pair self_idx free_idx sign self other = Some r -> r.1 = true.
Proof.
  unfold spin_try_contr_index. destruct (is_symbolic self_idx); [|discriminate].
  destruct (List.find _ _); [|discriminate]. intros [= <-]. reflexivity.
Qed.

Lemma spinmetric_contract_with_refusal (self other : ex) (r : ex * ex) :
  spinmetric_contract_with is_dummy_pair self other = ok (false, r) -> r = (self, other).
Proof.
  unfold spinmetric_contract_with.
  destruct (indices self) as [|i1 [|i2 [|]]]; try (intros H; congruence).
  assert (Hgen : (if op0_is_tensdelta other then ok (false, (self, other))
                  else match spin_try_contr_index is_dummy_pair i1 i2 1 self other with
                       | Some r => ok r
                       | None =>
                           match spin_try_contr_index is_dummy_pair i2 i1 (-1) self other with
                           | Some r => ok r
                           | None => ok (false, (self, other))
                           end
                       end) = ok (false, r) -> r = (self, other)).
  { destruct (op0_is_tensdelta other); [intros H; congruence|].
    destruct (spin_try_contr_index _ i1 i2 1 self other) as [p|] eqn:H1.
    { apply spin_try_contr_index_answer in H1. intros [= ->]. discriminate. }
    destruct (spin_try_contr_index _ i2 i1 (-1) self other) as [p|] eqn:H2.
    { apply spin_try_contr_index_answer in H2. intros [= ->]. discriminate. }
    intros H; congruence. }
  cbv zeta.
  destruct (op0_is_spinmetric other); [|exact Hgen].
  destruct (indices other) as [|o1 [|o2 [|]]]; try exact Hgen.
  destruct (is_dummy_pair i1 o1).
  { destruct (is_dummy_pair i2 o2); discriminate. }
  destruct (is_dummy_pair i1 o2).
  { destruct (is_dummy_pair i2 o1); discriminate. }
  destruct (is_dummy_pair i2 o1); [discriminate|].
  destruct (is_dummy_pair i2 o2); [discriminate|exact Hgen].
Qed.

Lemma tensepsilon_contract_with_refusal (minkowski pos_sig : bool) (self other : ex) (r : ex * ex) :
  tensepsilon_contract_with determinant_simplify_indexed minkowski pos_sig self other
  = ok (false, r) -> r = (self, other).
Proof.
  unfold tensepsilon_contract_with.
  destruct (_ && _); [|intros H; congruence].
  destruct (result_map _ _); cbn; intros [=].
Qed.

Lemma replace_contr_index_refusal (self other : ex) (r : ex * ex) :
  replace_contr_index is_dummy_pair minimal_dim self other = ok (false, r) -> r = (self, other).
Proof.
  intros H. destruct (replace_contr_index_atomic is_dummy_pair minimal_dim self other)
    as (r' & Hr & Hf).
  rewrite H in Hr. injection Hr as <-. apply Hf. reflexivity.
Qed.

Lemma assign_pair_frame (self other : nat) (v v' : list ex) (eself eother : ex) (b : bool)
    (r : result (bool * (ex * ex))) :
  v !! self = Some eself -> v !! other = Some eother -> (self < other)%nat ->
  (forall p, r = ok (false, p) -> p = (eself, eother)) ->
  assign_pair self other v r = ok (b, v') -> frame self other v v' b.
Proof.
  intros Hs Ho Hlt Href. unfold assign_pair.
  destruct r as [[b' [self' other']]|]; [|intros [=]].
  intros [= -> <-]. repeat split.
  - rewrite !length_insert. reflexivity.
  - intros i Hi. rewrite !list_lookup_insert_ne by lia. reflexivity.
  - intros ->. specialize (Href _ eq_refl). injection Href as -> ->.
    rewrite (list_insert_id v self eself Hs). apply list_insert_id. exact Ho.
Qed.

#[local] Arguments op1 : simpl never.
#[local] Arguments lorentz_g : simpl never.

Lemma diracgamma_contract_with_frame (self other : nat) (v v' : list ex) (b : bool) :
  diracgamma_contract_with self other v = ok (b, v') -> frame self other v v' b.
Proof.
  unfold diracgamma_contract_with, frame.
  destruct (v !! self) as [eself|] eqn:Hs; [|discriminate].
  destruct (v !! other) as [eother|] eqn:Ho; [|discriminate].
  destruct (other <=? self)%nat eqn:Hle; [discriminate|]. apply Nat.leb_gt in Hle.
  destruct (get_representation_label eself) as [rl|]; [|cbn; intros [=]]. simpl.
  destruct (is_clifford eother); [|intros [= <- <-]; repeat split; reflexivity].
  destruct (op1 eself) as [mu|]; [|cbn; intros [=]]. simpl.
  destruct (other - self =? 1)%nat eqn:E1.
  { intros [= <- <-]. repeat split; [rewrite !length_insert; reflexivity| |discriminate].
    intros i Hi. rewrite !list_lookup_insert_ne by lia. reflexivity. }
  apply Nat.eqb_neq in E1.
  destruct ((other - self =? 2)%nat && _).
  { intros [= <- <-]. repeat split; [rewrite !length_insert; reflexivity| |discriminate].
    intros i Hi. rewrite !list_lookup_insert_ne by lia. reflexivity. }
  destruct ((other - self =? 3)%nat && _ && _) eqn:H3.
  { apply andb_true_iff in H3 as [H3 _]. apply andb_true_iff in H3 as [H3 _].
    apply Nat.eqb_eq in H3.
    destruct (op1 (v !!! (self + 1)%nat)) as [a|]; [|cbn; intros [=]]. simpl.
    destruct (op1 (v !!! (self + 2)%nat)) as [c|]; [|cbn; intros [=]]. simpl.
    destruct (lorentz_g a c false) as [g|]; [|cbn; intros [=]]. simpl.
    intros [= <- <-]. repeat split; [rewrite !length_insert; reflexivity| |discriminate].
    intros i Hi. rewrite !list_lookup_insert_ne by lia. reflexivity. }
  destruct (forallb is_clifford _); simpl; [|intros [= <- <-]; repeat split; reflexivity].
  intros [= <- <-]. repeat split; [rewrite !length_insert; apply length_fill_ones| |discriminate].
  intros i Hi. rewrite !list_lookup_insert_ne by lia.
  apply fill_ones_lookup_outside; lia.
Qed.

(** A contraction rule that returns leaves the product at its length and
    every factor before [self] and after [other] as it was; when it
    answers false the whole product is as it was. *)
Theorem contraction_rules_keep_the_frame (self other : nat) (v v' : list ex) (b : bool) :
  contract_with is_dummy_pair minimal_dim determinant_simplify_indexed self other v
  = ok (b, v') ->
  length v' = length v
  /\ (forall i, (i < self \/ other < i)%nat -> v' !! i = v !! i)
  /\ (b = false -> v' = v).
Proof.
  unfold contract_with.
  destruct (v !! self) as [eself|] eqn:Hs; [|intros [=]].
  destruct (v !! other) as [eother|] eqn:Ho; [|intros [=]].
  destruct (other <=? self)%nat eqn:Hle; [intros [=]|]. apply Nat.leb_gt in Hle.
  destruct eself as [| | |base ix|base ix rl| | |];
    try (intros [= <- <-]; repeat split; reflexivity).
  - destruct base; intros H;
      (eapply assign_pair_frame; [exact Hs|exact Ho|exact Hle| |exact H]).
    + apply replace_contr_index_refusal.
    + unfold tensmetric_contract_with. destruct (op0_is_tensdelta eother);
        [intros p [= <-]; reflexivity|apply replace_contr_index_refusal].
    + unfold tensmetric_contract_with. destruct (op0_is_tensdelta eother);
        [intros p [= <-]; reflexivity|apply replace_contr_index_refusal].
    + apply spinmetric_contract_with_refusal.
    + apply tensepsilon_contract_with_refusal.
  - destruct base; try (intros [= <- <-]; repeat split; reflexivity).
    apply diracgamma_contract_with_frame.
Qed.

End Frame.


(** ** What a successful contraction does *)

Section ContractionResults.

#[local] Arguments op1 : simpl never.
#[local] Arguments lorentz_g : simpl never.

Section Contraction.

Variable is_dummy_pair : idx -> idx -> bool.
Variable minimal_dim : idx -> idx -> result dimension.

Lemma try_contr_index_contracts (self_idx free_idx : idx) (self other self' other' : ex) :
  try_contr_index is_dummy_pair minimal_dim self_idx free_idx self other
  = Some (true, (self', other')) ->
  self' = _ex1
  /\ is_symbolic self_idx = true
  /\ exists other_idx min_dim,
       other_idx ∈ indices other
       /\ is_dummy_pair self_idx other_idx = true
       /\ minimal_dim self_idx other_idx = ok min_dim
       /\ other' = subs_idx other_idx (replace_dim free_idx min_dim) other.
Proof.
  unfold try_contr_index. destruct (is_symbolic self_idx); [|discriminate].
  destruct (List.find _ _) as [other_idx|] eqn:Hf; [|discriminate].
  apply find_some in Hf as [Hin Hp].
  destruct (minimal_dim self_idx other_idx) as [min_dim|] eqn:Hm; [|discriminate].
  intros [= <- <-]. repeat split. exists other_idx, min_dim.
  repeat split; auto. apply list_elem_of_In, Hin.
Qed.

(** When [replace_contr_index] answers true, [self] is 1 and [other] is
    the old [other] with one index replaced: a symbolic index of
    [self] formed a dummy pair with that index of [other], and the index
    put in its place has the value of the other index of [self] and the
    minimal dimension of the pair. *)
Theorem a_contraction_consumes_a_dummy_pair (self other self' other' : ex) :
  replace_contr_index is_dummy_pair minimal_dim self other = ok (true, (self', other')) ->
  self' = _ex1
  /\ exists self_idx free_idx other_idx min_dim,
       (indices self = [self_idx; free_idx] \/ indices self = [free_idx; self_idx])
       /\ is_symbolic self_idx = true
       /\ other_idx ∈ indices other
       /\ is_dummy_pair self_idx other_idx = true
       /\ minimal_dim self_idx other_idx = ok min_dim
       /\ other' = subs_idx other_idx (replace_dim free_idx min_dim) other
       /\ get_dim (replace_dim free_idx min_dim) = min_dim
       /\ get_value (replace_dim free_idx min_dim) = get_value free_idx.
Proof.
  unfold replace_contr_index.
  destruct (indices self) as [|i1 [|i2 [|]]] eqn:Hix; try discriminate.
  destruct (try_contr_index _ _ i1 i2 self other) as [[b [s o]]|] eqn:H1.
  - intros [= -> -> ->].
    apply try_contr_index_contracts in H1 as (-> & Hs & oi & md & Hin & Hp & Hm & ->).
    split; [reflexivity|]. exists i1, i2, oi, md. repeat split; auto.
  - destruct (try_contr_index _ _ i2 i1 self other) as [[b [s o]]|] eqn:H2; [|discriminate].
    intros [= -> -> ->].
    apply try_contr_index_contracts in H2 as (-> & Hs & oi & md & Hin & Hp & Hm & ->).
    split; [reflexivity|]. exists i2, i1, oi, md. repeat split; auto.
Qed.

End Contraction.

(** Two gammas with three or more Clifford objects between them: with S
    the product of all but the last of these and [last] the last,
    [self] becomes 2 last S - gamma~mu S gamma.mu last, and every place
    after [self] up to [other] becomes 1. *)
Theorem gamma_contraction_long_gap
    (v : list ex) (self other : nat) (mu : idx) (rl : Z) (eother last : ex) :
  v !! self = Some (clifford diracgamma [mu] rl) ->
  v !! other = Some eother -> is_clifford eother = true ->
  (self + 4 <= other)%nat ->
  v !! (other - 1)%nat = Some last ->
  forallb is_clifford (between (self + 1) other v) = true ->
  let S := foldl ex_mul _ex1 (between (self + 1) (other - 1) v) in
  diracgamma_contract_with self other v
  = ok (true,
        <[other := _ex1]>
          (<[(other - 1)%nat := _ex1]>
             (<[self := (_ex2 * last * S
                         - clifford diracgamma [mu] rl * S * eother * last)%ex]>
                (fill_ones (self + 1) (other - 1) v)))).
Proof.
  intros Hself Hother Hcl Hgap Hlast Hall. cbv zeta.
  unfold diracgamma_contract_with. rewrite Hself, Hother.
  replace (other <=? self)%nat with false by (symmetry; apply Nat.leb_gt; lia).
  simpl. rewrite Hcl. change (op1 (clifford diracgamma [mu] rl)) with (ok mu). simpl.
  replace (other - self =? 1)%nat with false by (symmetry; apply Nat.eqb_neq; lia).
  replace (other - self =? 2)%nat with false by (symmetry; apply Nat.eqb_neq; lia).
  replace (other - self =? 3)%nat with false by (symmetry; apply Nat.eqb_neq; lia).
  simpl. rewrite Hall. simpl.
  rewrite (list_lookup_total_correct _ _ _ Hlast). reflexivity.
Qed.


End ContractionResults.

(** ** The products the normalizer calls final *)

Section NormalForms.

#[local] Arguments op1 : simpl never.
#[local] Arguments lorentz_g : simpl never.

Lemma swap_step_changed (it : nat) (st : list ex * Z * bool) :
  st.2 = true -> (swap_step it st).2 = true.
Proof.
  destruct st as [[s sign] ch]. simpl. intros ->.
  destruct (s !! it), (s !! S it); try reflexivity.
  destruct (_ && _); reflexivity.
Qed.

Lemma swap_step_quiet (it : nat) (st : list ex * Z * bool) :
  (swap_step it st).2 = false -> swap_step it st = st /\ fires st.1.1 it = false.
Proof.
  destruct st as [[s sign] ch]. unfold fires. simpl.
  destruct (s !! it), (s !! S it); auto.
  destruct (_ && _); [discriminate|auto].
Qed.

Lemma inner_sweep_changed (it : nat) (st : list ex * Z * bool) :
  st.2 = true -> (inner_sweep it st).2 = true.
Proof.
  revert st. induction it as [|it IH]; intros st H; cbn [inner_sweep]; cbv zeta.
  - apply swap_step_changed, H.
  - apply IH, swap_step_changed, H.
Qed.

Lemma inner_sweep_quiet (it : nat) (st : list ex * Z * bool) :
  (inner_sweep it st).2 = false ->
  inner_sweep it st = st /\ forall j, (j <= it)%nat -> fires st.1.1 j = false.
Proof.
  revert st. induction it as [|it IH]; intros st; cbn [inner_sweep]; cbv zeta; intros H.
  - apply swap_step_quiet in H as [-> Hf]. split; [reflexivity|].
    intros j Hj. replace j with 0%nat by lia. exact Hf.
  - destruct (swap_step (S it) st).2 eqn:Hc.
    { rewrite inner_sweep_changed in H by exact Hc. discriminate. }
    apply swap_step_quiet in Hc as [Hst Hf]. rewrite Hst in H |- *.
    apply IH in H as [-> Hall]. split; [reflexivity|].
    intros j Hj. destruct (decide (j = S it)) as [->|]; [exact Hf|apply Hall; lia].
Qed.

Lemma outer_sweep_changed (n : nat) (st : list ex * Z * bool) :
  st.2 = true -> (outer_sweep n st).2 = true.
Proof.
  revert st. induction n as [|n IH]; intros st H; cbn [outer_sweep]; cbv zeta.
  - apply inner_sweep_changed, H.
  - apply IH, inner_sweep_changed, H.
Qed.

Lemma outer_sweep_quiet (n : nat) (st : list ex * Z * bool) :
  (outer_sweep n st).2 = false ->
  outer_sweep n st = st /\ forall j, (j <= n)%nat -> fires st.1.1 j = false.
Proof.
  destruct n as [|n]; cbn [outer_sweep]; cbv zeta; intros H.
  - apply inner_sweep_quiet, H.
  - destruct (inner_sweep (S n) st).2 eqn:Hc.
    { rewrite outer_sweep_changed in H by exact Hc. discriminate. }
    apply inner_sweep_quiet in Hc as [Hst Hf]. rewrite Hst in H |- *.
    split; [|exact Hf].
    clear Hf Hst. revert H. generalize st. induction n as [|n IH]; intros st0 H.
    + cbn [outer_sweep] in *. apply inner_sweep_quiet in H as [H _]. exact H.
    + cbn [outer_sweep] in *. cbv zeta in *.
      destruct (inner_sweep (S n) st0).2 eqn:Hc.
      { rewrite outer_sweep_changed in H by exact Hc. discriminate. }
      apply inner_sweep_quiet in Hc as [Hst _]. rewrite Hst in H |- *. apply IH, H.
Qed.

Lemma adjacent_positions (v : list ex) (a b : ex) :
  In (a, b) (adjacent v) ->
  exists it, v !! it = Some a /\ v !! (S it) = Some b /\ (S it < length v)%nat.
Proof.
  induction v as [|x [|y r] IH]; simpl; try contradiction.
  intros [[= -> ->]|H].
  - exists 0%nat. simpl. repeat split; lia.
  - destruct (IH H) as (it & Ha & Hb & Hl). exists (S it). simpl in *. repeat split; auto; lia.
Qed.

Lemma anticommute_gamma5_quiet (v s : list ex) (sign : Z) :
  anticommute_gamma5 v = (s, sign, false) ->
  s = v /\ sign = 1 /\ gamma5_swap_fires v = false.
Proof.
  unfold anticommute_gamma5, gamma5_swap_fires.
  destruct (2 <=? length v)%nat eqn:Hlen.
  - apply Nat.leb_le in Hlen. intros H.
    assert (Hq : (outer_sweep (length v - 2) (v, 1, false)).2 = false) by (rewrite H; reflexivity).
    apply outer_sweep_quiet in Hq as [Hst Hf]. rewrite Hst in H. injection H as <- <-.
    repeat split. apply not_true_iff_false. intros Hex.
    apply existsb_exists in Hex as ([a b] & Hin & Hab).
    apply adjacent_positions in Hin as (it & Ha & Hb & Hl).
    specialize (Hf it ltac:(lia)). unfold fires in Hf. simpl in Hf.
    rewrite Ha, Hb in Hf. simpl in Hab. congruence.
  - intros [= <- <-]. repeat split. apply Nat.leb_gt in Hlen.
    destruct v as [|x [|y r]]; simpl in *; try reflexivity. lia.
Qed.

Lemma remove_gamma5_squares_quiet (v s : list ex) :
  remove_gamma5_squares v = (s, false) -> s = v /\ gamma5_square_fires v = false.
Proof.
  destruct v as [|a [|b r]]; simpl; try (intros [= <-]; auto).
  destruct (_ && _); [discriminate|]. intros [= <-]. auto.
Qed.

Lemma merge_step_quiet (rl : Z) (st st' : list ex * bool) (it : nat) :
  merge_step rl st it = ok st' ->
  (st.2 = true -> st'.2 = true)
  /\ (st'.2 = false -> st' = st /\ merges st.1 it = false).
Proof.
  destruct st as [s ch]. unfold merge_step, merges. simpl.
  destruct (op0_is_diracgamma (s !!! it) && op0_is_diracgamma (s !!! S it)); simpl;
    [|intros [= <-]; auto].
  destruct (op1 (s !!! it)) as [ia|]; [|cbn; intros [=]]. simpl.
  destruct (op1 (s !!! S it)) as [ib|]; [|cbn; intros [=]]. simpl.
  destruct (bool_decide (ia = ib)); [|intros [= <-]; auto].
  destruct (lorentz_g ia ib false); cbn; intros [= <-]; simpl.
  split; [auto|discriminate].
Qed.

Lemma result_foldl_merge_quiet (rl : Z) (positions : list nat) (st st' : list ex * bool) :
  result_foldl (merge_step rl) st positions = ok st' ->
  (st.2 = true -> st'.2 = true)
  /\ (st'.2 = false -> st' = st /\ forall it, In it positions -> merges st.1 it = false).
Proof.
  revert st. induction positions as [|it r IH]; intros st; simpl.
  - intros [= <-]. split; [auto|]. intros _. split; [reflexivity|contradiction].
  - destruct (merge_step rl st it) as [st1|] eqn:H1; [|cbn; intros [=]].
    rewrite result_bind_ok. intros H.
    apply merge_step_quiet in H1 as [Hm1 Hq1]. apply IH in H as [Hm Hq].
    split; [auto|]. intros Hf.
    destruct (Hq Hf) as [-> Hall].
    destruct (Hq1 Hf) as [-> H0]. split; [reflexivity|].
    intros j [<-|Hj]; auto.
Qed.

Lemma remove_equal_adjacent_quiet (rl : Z) (s s' : list ex) (ch : bool) :
  remove_equal_adjacent rl (s, ch) = ok (s', false) ->
  s' = s /\ ch = false /\ equal_gammas_fire s = false.
Proof.
  unfold remove_equal_adjacent, equal_gammas_fire. cbn [fst].
  destruct (2 <=? length s)%nat eqn:Hlen.
  - apply Nat.leb_le in Hlen. intros H.
    apply result_foldl_merge_quiet in H as [Hm Hq]. simpl in *.
    destruct (Hq eq_refl) as [[= -> <-] Hall]. repeat split.
    apply not_true_iff_false. intros Hex.
    apply existsb_exists in Hex as ([a b] & Hin & Hab).
    apply adjacent_positions in Hin as (it & Ha & Hb & Hl).
    specialize (Hall it). unfold merges in Hall.
    rewrite (list_lookup_total_correct _ _ _ Ha), (list_lookup_total_correct _ _ _ Hb) in Hall.
    simpl in Hab. rewrite Hall in Hab; [discriminate|].
    apply in_seq. lia.
  - intros [= <- ->]. repeat split. apply Nat.leb_gt in Hlen.
    destruct s as [|x [|y r]]; simpl in *; try reflexivity. lia.
Qed.

(** A product that [simplify_ncmul] returns as final is the input without
    its identities, is not empty, carries the sign +1, and none of the
    rules fires on it. *)
Theorem final_products_are_normal (rl : Z) (v s : list ex) (sign : Z) :
  simplify_ncmul rl v = ok (simplified_ncmul s sign) ->
  sign = 1
  /\ s = List.filter (fun x => negb (op0_is_diracone x)) v
  /\ s <> []
  /\ no_rule_fires s = true.
Proof.
  unfold simplify_ncmul.
  set (s0 := List.filter _ v).
  destruct (anticommute_gamma5 s0) as [[s1 sign1] ch1] eqn:H1.
  destruct (remove_gamma5_squares s1) as [s2 ch2] eqn:H2.
  destruct (remove_equal_adjacent rl (s2, ch1 || ch2)) as [[s3 ch3]|] eqn:H3;
    [|cbn; intros [=]].
  rewrite result_bind_ok. simpl.
  destruct (length s3 =? 0)%nat eqn:Hlen; [intros [=]|].
  destruct ch3; intros [= <- <-].
  apply remove_equal_adjacent_quiet in H3 as (-> & Hch & Heq).
  apply orb_false_iff in Hch as [-> ->].
  apply remove_gamma5_squares_quiet in H2 as [-> Hsq].
  apply anticommute_gamma5_quiet in H1 as (-> & -> & Hsw).
  repeat split.
  - intros E. rewrite E in Hlen. discriminate.
  - unfold no_rule_fires. rewrite Hsw, Hsq, Heq.
    replace (identity_fires s0) with false; [reflexivity|].
    symmetry. apply not_true_iff_false. intros Hex.
    apply existsb_exists in Hex as (x & Hin & Hx).
    apply filter_In in Hin as [_ Hn]. rewrite Hx in Hn. discriminate.
Qed.


End NormalForms.

(** ** The passes of the normalizer *)

Section Passes.

#[local] Arguments op1 : simpl never.
#[local] Arguments lorentz_g : simpl never.

Lemma gamma5_count_swap (s : list ex) (it : nat) (a b : ex) :
  s !! it = Some a -> s !! (S it) = Some b ->
  gamma5_count (<[S it := a]> (<[it := b]> s)) = gamma5_count s.
Proof.
  revert it. induction s as [|x r IH]; intros it Ha Hb; [discriminate|].
  destruct it as [|it]; simpl in *.
  - injection Ha as ->. destruct r as [|y r]; [discriminate|]. simpl in *. injection Hb as ->.
    unfold gamma5_count. simpl.
    destruct (op0_is_diracgamma5 a), (op0_is_diracgamma5 b); reflexivity.
  - unfold gamma5_count in *. simpl. specialize (IH it Ha Hb).
    destruct (op0_is_diracgamma5 x); simpl; rewrite IH; reflexivity.
Qed.

Lemma gamma5_inversions_swap (s : list ex) (it : nat) (a b : ex) :
  s !! it = Some a -> s !! (S it) = Some b ->
  op0_is_diracgamma5 a = false -> op0_is_diracgamma5 b = true ->
  S (gamma5_inversions (<[S it := a]> (<[it := b]> s))) = gamma5_inversions s.
Proof.
  revert it. induction s as [|x r IH]; intros it Ha Hb Hga Hgb; [discriminate|].
  destruct it as [|it]; simpl in *.
  - injection Ha as ->. destruct r as [|y r]; [discriminate|]. simpl in *. injection Hb as ->.
    rewrite Hga, Hgb. unfold gamma5_count. simpl. rewrite Hgb. simpl. lia.
  - rewrite (gamma5_count_swap r it a b Ha Hb). rewrite <- (IH it Ha Hb Hga Hgb). lia.
Qed.

Lemma sweep_progress_refl st : sweep_progress st st.
Proof. repeat split; auto. Qed.

Lemma sweep_progress_trans st1 st2 st3 :
  sweep_progress st1 st2 -> sweep_progress st2 st3 -> sweep_progress st1 st3.
Proof.
  intros (L1 & M1 & I1 & S1 & F1) (L2 & M2 & I2 & S2 & F2). repeat split.
  - congruence.
  - auto.
  - lia.
  - destruct S1 as [S1|S1], S2 as [S2|S2]; rewrite S2, S1; [left|right|right|left]; lia.
  - intros H. destruct (F2 H) as [H'|H']; [destruct (F1 H')|]; auto; right; lia.
Qed.

Lemma swap_step_progress (it : nat) (st : list ex * Z * bool) :
  sweep_progress st (swap_step it st).
Proof.
  destruct st as [[s sign] ch].
  destruct (swap_step_flips it s sign ch) as [->|(a & b & Ha & Hb & Hga & Hgb & ->)].
  - apply sweep_progress_refl.
  - pose proof (gamma5_inversions_swap s it a b Ha Hb Hga Hgb) as Hinv.
    repeat split; simpl.
    + rewrite !length_insert. reflexivity.
    + intros x Hx. apply list_elem_of_lookup in Hx as [j Hj].
      destruct (decide (j = S it)) as [->|Hne].
      { rewrite list_lookup_insert_eq in Hj by (rewrite length_insert; eapply lookup_lt_Some, Hb).
        injection Hj as <-. eapply list_elem_of_lookup_2, Ha. }
      rewrite list_lookup_insert_ne in Hj by auto.
      destruct (decide (j = it)) as [->|Hne'].
      { rewrite list_lookup_insert_eq in Hj by (eapply lookup_lt_Some, Ha).
        injection Hj as <-. eapply list_elem_of_lookup_2, Hb. }
      rewrite list_lookup_insert_ne in Hj by auto. eapply list_elem_of_lookup_2, Hj.
    + lia.
    + auto.
    + intros _. right. lia.
Qed.

Lemma inner_sweep_progress (it : nat) (st : list ex * Z * bool) :
  sweep_progress st (inner_sweep it st).
Proof.
  revert st. induction it as [|it IH]; intros st; cbn [inner_sweep]; cbv zeta.
  - apply swap_step_progress.
  - eapply sweep_progress_trans; [apply swap_step_progress|apply IH].
Qed.

Lemma outer_sweep_progress (n : nat) (st : list ex * Z * bool) :
  sweep_progress st (outer_sweep n st).
Proof.
  revert st. induction n as [|n IH]; intros st; cbn [outer_sweep]; cbv zeta.
  - apply inner_sweep_progress.
  - eapply sweep_progress_trans; [apply inner_sweep_progress|apply IH].
Qed.

Lemma anticommute_gamma5_progress (s : list ex) :
  sweep_progress (s, 1, false) (anticommute_gamma5 s).
Proof.
  unfold anticommute_gamma5. destruct (2 <=? length s)%nat.
  - apply outer_sweep_progress.
  - apply sweep_progress_refl.
Qed.

Lemma remove_gamma5_squares_progress (s : list ex) :
  (forall x, x ∈ (remove_gamma5_squares s).1 -> x ∈ s)
  /\ (length (remove_gamma5_squares s).1 <= length s)%nat
  /\ ((remove_gamma5_squares s).2 = true ->
      (length (remove_gamma5_squares s).1 < length s)%nat)
  /\ ((remove_gamma5_squares s).2 = false -> (remove_gamma5_squares s).1 = s).
Proof.
  induction s as [s IH] using (induction_ltof1 _ (@length ex)). unfold ltof in IH.
  destruct s as [|a [|b r]]; simpl; try (repeat split; auto; discriminate).
  destruct (_ && _); simpl; [|repeat split; auto; discriminate].
  destruct (IH r ltac:(simpl; lia)) as (M & L & _ & _). repeat split.
  - intros x Hx. do 2 apply list_elem_of_further. auto.
  - lia.
  - lia.
  - discriminate.
Qed.

Lemma noncommutative_count_filter (v : list ex) :
  length (List.filter is_noncommutative v) = noncommutative_count v.
Proof.
  unfold noncommutative_count. induction v as [|x r IH]; [reflexivity|].
  cbn [List.filter sum_list_with]. unfold noncommutative_weight at 1.
  destruct (is_noncommutative x); simpl; lia.
Qed.

Lemma noncommutative_count_le (v : list ex) : (noncommutative_count v <= length v)%nat.
Proof.
  unfold noncommutative_count. induction v as [|x r IH]; simpl; [lia|].
  unfold noncommutative_weight at 1. destruct (is_noncommutative x); lia.
Qed.

Lemma filter_length_le {A : Type} (p : A -> bool) (l : list A) :
  (length (List.filter p l) <= length l)%nat.
Proof. induction l as [|x r IH]; simpl; [lia|]. destruct (p x); simpl; lia. Qed.

Lemma filter_length_eq {A : Type} (p : A -> bool) (l : list A) :
  length (List.filter p l) = length l -> List.filter p l = l.
Proof.
  induction l as [|x r IH]; simpl; [reflexivity|].
  pose proof (filter_length_le p r) as Hle. destruct (p x); simpl; intros H; [|lia].
  f_equal. apply IH. lia.
Qed.

Lemma merge_step_progress (rl : Z) (st st' : list ex * bool) (it : nat) :
  (S it < length st.1)%nat ->
  merge_step rl st it = ok st' -> merge_progress st st'.
Proof.
  destruct st as [s ch]. unfold merge_step, merge_progress. simpl. intros Hlen.
  destruct (op0_is_diracgamma (s !!! it)) eqn:Ga; simpl;
    [|intros [= <-]; repeat split; auto].
  destruct (op0_is_diracgamma (s !!! S it)) eqn:Gb; simpl;
    [|intros [= <-]; repeat split; auto].
  destruct (op1 (s !!! it)) as [ia|]; [|cbn; intros [=]]. simpl.
  destruct (op1 (s !!! S it)) as [ib|]; [|cbn; intros [=]]. simpl.
  destruct (bool_decide (ia = ib)); [|intros [= <-]; repeat split; auto].
  unfold lorentz_g. destruct (_ || _); cbn; intros [= <-]; simpl.
  destruct (lookup_lt_is_Some_2 s it ltac:(lia)) as [a Ha].
  destruct (lookup_lt_is_Some_2 s (S it) ltac:(lia)) as [b Hb].
  rewrite (list_lookup_total_correct _ _ _ Ha) in Ga.
  rewrite (list_lookup_total_correct _ _ _ Hb) in Gb.
  assert (Hw : forall e, op0_is_diracgamma e = true -> noncommutative_weight e = 1%nat).
  { intros [] He; try discriminate. reflexivity. }
  assert (HF : Forall2 (fun x y => (noncommutative_weight x <= noncommutative_weight y)%nat)
                 (<[S it := dirac_ONE rl]> (<[it := indexed (minkmetric false) [ia; ib]]> s)) s).
  { rewrite <- (list_insert_id s (S it) b Hb) at 2.
    apply Forall2_insert; [|rewrite (Hw b Gb); reflexivity].
    rewrite <- (list_insert_id s it a Ha) at 2.
    apply Forall2_insert; [|rewrite (Hw a Ga); unfold noncommutative_weight; simpl; lia].
    apply Forall2_same_length_lookup_2; [reflexivity|]. intros i x y Hx Hy.
    rewrite Hx in Hy. injection Hy as <-. lia. }
  split.
  - rewrite !length_insert. reflexivity.
  - right. split; [|reflexivity].
    apply (sum_list_with_lighter_strict _ _ _ it (indexed (minkmetric false) [ia; ib]) a HF).
    + rewrite list_lookup_insert_ne by lia. apply list_lookup_insert_eq. lia.
    + exact Ha.
    + rewrite (Hw a Ga). unfold noncommutative_weight. simpl. lia.
Qed.

Lemma merge_progress_trans st1 st2 st3 :
  merge_progress st1 st2 -> merge_progress st2 st3 -> merge_progress st1 st3.
Proof.
  intros (L1 & [->|[C1 F1]]) (L2 & [->|[C2 F2]]); split; auto; try congruence.
  right. split; [lia|assumption].
Qed.

Lemma result_foldl_merge_progress (rl : Z) (positions : list nat) (st st' : list ex * bool) :
  (forall it, In it positions -> (S it < length st.1)%nat) ->
  result_foldl (merge_step rl) st positions = ok st' -> merge_progress st st'.
Proof.
  revert st. induction positions as [|it r IH]; intros st Hpos; simpl.
  - intros [= <-]. split; auto.
  - destruct (merge_step rl st it) as [st1|] eqn:H1; [|cbn; intros [=]].
    rewrite result_bind_ok. intros H.
    apply merge_step_progress in H1; [|apply Hpos; left; reflexivity].
    eapply merge_progress_trans; [exact H1|]. apply IH; [|exact H].
    intros j Hj. destruct H1 as (-> & _). apply Hpos. right. exact Hj.
Qed.

Lemma remove_equal_adjacent_progress (rl : Z) (st st' : list ex * bool) :
  remove_equal_adjacent rl st = ok st' -> merge_progress st st'.
Proof.
  unfold remove_equal_adjacent. destruct (2 <=? length st.1)%nat eqn:Hlen.
  - apply result_foldl_merge_progress. intros it Hit. apply in_seq in Hit.
    apply Nat.leb_le in Hlen. lia.
  - intros [= <-]. split; auto.
Qed.

Lemma simplify_ncmul_progress (rl : Z) (v s : list ex) (sign : Z) :
  simplify_ncmul rl v = ok (nonsimplified_ncmul s sign) ->
  simpler (List.filter is_noncommutative s) v.
Proof.
  unfold simplify_ncmul.
  set (s0 := List.filter _ v).
  pose proof (anticommute_gamma5_progress s0) as H1.
  destruct (anticommute_gamma5 s0) as [[s1 sign1] ch1].
  destruct H1 as (L1 & _ & I1 & _ & F1). simpl in L1, I1, F1.
  pose proof (remove_gamma5_squares_progress s1) as H2.
  destruct (remove_gamma5_squares s1) as [s2 ch2]. destruct H2 as (_ & L2 & F2 & Q2).
  simpl in L2, F2, Q2.
  destruct (remove_equal_adjacent rl (s2, ch1 || ch2)) as [[s3 ch3]|] eqn:H3;
    [|cbn; intros [=]].
  apply remove_equal_adjacent_progress in H3 as (L3 & M3). simpl in L3, M3.
  rewrite result_bind_ok. simpl.
  destruct (length s3 =? 0)%nat; [intros [=]|].
  destruct ch3; intros [= <- <-].
  pose proof (filter_length_le (fun x => negb (op0_is_diracone x)) v) as L0. fold s0 in L0.
  pose proof (noncommutative_count_le s2) as C2.
  pose proof (noncommutative_count_le s3) as C3.
  unfold simpler. rewrite noncommutative_count_filter.
  destruct M3 as [[= -> Hch]|[Hlt _]]; [|left; lia].
  destruct ch2; [left; specialize (F2 eq_refl); lia|].
  rewrite orb_false_r in Hch. subst ch1. specialize (Q2 eq_refl). subst s2.
  destruct (F1 eq_refl) as [[=]|Hinv].
  destruct (decide (noncommutative_count s1 = length v)) as [E|]; [right|left; lia].
  split; [exact E|].
  assert (Es1 : List.filter is_noncommutative s1 = s1).
  { apply filter_length_eq. rewrite noncommutative_count_filter. lia. }
  assert (Es0 : s0 = v) by (apply filter_length_eq; fold s0; lia).
  rewrite Es1. rewrite <- Es0. exact Hinv.
Qed.

Lemma merge_step_regular (rl : Z) (st : list ex * bool) (it : nat) :
  Forall regular st.1 -> (S it < length st.1)%nat ->
  exists st', merge_step rl st it = ok st' /\ Forall regular st'.1.
Proof.
  destruct st as [s ch]. unfold merge_step. simpl. intros Hreg Hlen.
  destruct (lookup_lt_is_Some_2 s it ltac:(lia)) as [a Ha].
  destruct (lookup_lt_is_Some_2 s (S it) ltac:(lia)) as [b Hb].
  rewrite (list_lookup_total_correct _ _ _ Ha), (list_lookup_total_correct _ _ _ Hb).
  assert (Hgamma : forall e, e ∈ s -> op0_is_diracgamma e = true ->
            exists mu rl', e = clifford diracgamma [mu] rl' /\ is_varidx mu = true).
  { intros e He Hg. rewrite list.Forall_forall in Hreg. destruct (Hreg e He) as [Hat|Hnc].
    - destruct e as [| | | |[] [|mu [|]] rl'| | |]; try discriminate. eauto.
    - destruct e as [| | | |[] ? ?| | |]; discriminate. }
  destruct (op0_is_diracgamma a) eqn:Ga; simpl; [|eexists; split; [reflexivity|exact Hreg]].
  destruct (op0_is_diracgamma b) eqn:Gb; simpl; [|eexists; split; [reflexivity|exact Hreg]].
  destruct (Hgamma a (list_elem_of_lookup_2 _ _ _ Ha) Ga) as (ma & rla & -> & Hma).
  destruct (Hgamma b (list_elem_of_lookup_2 _ _ _ Hb) Gb) as (mb & rlb & -> & Hmb).
  change (op1 (clifford diracgamma [ma] rla)) with (ok ma).
  change (op1 (clifford diracgamma [mb] rlb)) with (ok mb).
  rewrite !result_bind_ok.
  destruct (bool_decide (ma = mb)); [|eexists; split; [reflexivity|exact Hreg]].
  rewrite (lorentz_g_varidx ma mb Hma Hmb), result_bind_ok.
  eexists; split; [reflexivity|]. simpl.
  apply Forall_insert; [apply Forall_insert; [exact Hreg|]|].
  - right. reflexivity.
  - left. reflexivity.
Qed.

Lemma result_foldl_merge_regular (rl : Z) (positions : list nat) (st : list ex * bool) :
  Forall regular st.1 -> (forall it, In it positions -> (S it < length st.1)%nat) ->
  exists st', result_foldl (merge_step rl) st positions = ok st' /\ Forall regular st'.1.
Proof.
  revert st. induction positions as [|it r IH]; intros st Hreg Hpos; simpl.
  - eauto.
  - destruct (merge_step_regular rl st it Hreg) as (st1 & H1 & Hreg1);
      [apply Hpos; left; reflexivity|].
    rewrite H1, result_bind_ok. apply IH; [exact Hreg1|].
    intros j Hj. apply merge_step_progress in H1 as [-> _]; [|apply Hpos; left; reflexivity].
    apply Hpos. right. exact Hj.
Qed.

Lemma simplify_ncmul_regular (rl : Z) (v : list ex) :
  Forall regular v ->
  exists r, simplify_ncmul rl v = ok r
            /\ (sign_of r = 1 \/ sign_of r = -1)
            /\ forall s sign, r = nonsimplified_ncmul s sign -> Forall regular s.
Proof.
  intros Hreg. unfold simplify_ncmul.
  set (s0 := List.filter _ v).
  assert (H0 : Forall regular s0).
  { rewrite list.Forall_forall in Hreg |- *. intros x Hx. apply Hreg.
    apply list_elem_of_In in Hx. apply filter_In in Hx as [Hx _]. apply list_elem_of_In, Hx. }
  pose proof (anticommute_gamma5_progress s0) as H1.
  destruct (anticommute_gamma5 s0) as [[s1 sign1] ch1].
  destruct H1 as (_ & M1 & _ & S1 & _). simpl in M1, S1.
  pose proof (remove_gamma5_squares_progress s1) as H2.
  destruct (remove_gamma5_squares s1) as [s2 ch2]. destruct H2 as (M2 & _). simpl in M2.
  assert (Hreg2 : Forall regular s2).
  { rewrite list.Forall_forall in H0 |- *. auto. }
  assert (H3 : exists st', remove_equal_adjacent rl (s2, ch1 || ch2) = ok st'
                           /\ Forall regular st'.1).
  { unfold remove_equal_adjacent. cbn [fst]. destruct (2 <=? length s2)%nat eqn:Hlen.
    - apply result_foldl_merge_regular; [exact Hreg2|]. intros it Hit. apply in_seq in Hit.
      apply Nat.leb_le in Hlen. simpl. lia.
    - eexists; split; [reflexivity|exact Hreg2]. }
  destruct H3 as ([s3 ch3] & -> & Hreg3). rewrite result_bind_ok. simpl in *.
  assert (Hsign : sign1 = 1 \/ sign1 = -1) by (destruct S1; lia).
  destruct (length s3 =? 0)%nat; [|destruct ch3];
    (eexists; split; [reflexivity|split; [exact Hsign|]]); intros s sign [=]; subst; auto.
Qed.

Lemma gamma5_inversions_bound (v : list ex) :
  (gamma5_inversions v <= length v * length v)%nat.
Proof.
  induction v as [|x r IH]; simpl; [lia|].
  pose proof (filter_length_le op0_is_diracgamma5 r) as Hc. fold (gamma5_count r) in Hc.
  destruct (op0_is_diracgamma5 x); nia.
Qed.

Lemma simpler_rank (w v : list ex) : simpler w v -> (rank w < rank v)%nat.
Proof.
  unfold simpler, rank. pose proof (gamma5_inversions_bound w).
  intros [Hlt|[Heq Hinv]]; [|rewrite Heq; lia].
  assert (length w + 1 <= length v)%nat as Hle by lia.
  assert ((length w + 1) * (length w + 1) * (length w + 1)
          <= length v * length v * length v)%nat.
  { apply Nat.mul_le_mono; [apply Nat.mul_le_mono|]; exact Hle. }
  nia.
Qed.

Lemma eval_ncmul_rank (rl : Z) (k : nat) :
  forall v fuel, Forall regular v -> (rank v < k)%nat -> (k <= fuel)%nat ->
    exists r, eval_ncmul fuel rl v = ok r /\ (r.1.1 = 1 \/ r.1.1 = -1).
Proof.
  induction k as [|k IH]; intros v fuel Hreg Hrank Hfuel; [lia|].
  destruct fuel as [|fuel]; [lia|]. cbn [eval_ncmul].
  destruct (simplify_ncmul_regular rl v Hreg) as (r & Hr & Hsign & Hs).
  rewrite Hr, result_bind_ok.
  destruct r as [sign|s sign|s sign]; simpl in Hsign; try (eexists; split; [reflexivity|exact Hsign]).
  cbv zeta.
  pose proof (simplify_ncmul_progress rl v s sign Hr) as Hprog. apply simpler_rank in Hprog.
  specialize (Hs s sign eq_refl).
  destruct (List.filter is_noncommutative s) as [|x [|y w]] eqn:Hw;
    try (eexists; split; [reflexivity|exact Hsign]).
  rewrite <- Hw in *.
  destruct (IH (List.filter is_noncommutative s) fuel) as (r' & -> & Hsign'); [|lia|lia|].
  { rewrite list.Forall_forall in Hs |- *. intros e He. apply Hs.
    apply list_elem_of_In in He. apply filter_In in He as [He _]. apply list_elem_of_In, He. }
  rewrite result_bind_ok. eexists; split; [reflexivity|]. simpl. lia.
Qed.

(** The evaluation of a product of [n] objects of the constructors comes
    to an end: [passes n] rounds of fuel are enough for a result, whose
    sign is +1 or -1. *)
Theorem the_normalizer_terminates (rl : Z) (v : list ex) (fuel : nat) :
  Forall (fun e => clifford_atom e = true) v -> (passes (length v) <= fuel)%nat ->
  exists sign scalars word,
    eval_ncmul fuel rl v = ok (sign, scalars, word) /\ (sign = 1 \/ sign = -1).
Proof.
  intros Hat Hfuel.
  destruct (eval_ncmul_rank rl (passes (length v)) v fuel) as ([[sign scalars] word] & H & Hs).
  - eapply list.Forall_impl; [exact Hat|]. intros e He. left. exact He.
  - unfold rank, passes. pose proof (gamma5_inversions_bound v). lia.
  - exact Hfuel.
  - eauto.
Qed.


(** A pass of [simplify_ncmul] that asks for another pass hands on a
    product whose non-commuting part is shorter than the input, or as
    long with fewer gamma5 to the right of other factors. *)
Theorem a_pass_of_the_normalizer_makes_progress (rl : Z) (v s : list ex) (sign : Z) :
  simplify_ncmul rl v = ok (nonsimplified_ncmul s sign) ->
  simpler (List.filter is_noncommutative s) v.
Proof. exact (simplify_ncmul_progress rl v s sign). Qed.


End Passes.

(** ** Numeric indices and dimensions that do not compare *)

Section Evaluation.

Variable is_dummy_pair : idx -> idx -> bool.
Variable minimal_dim : idx -> idx -> result dimension.


(** The spinor metric at numeric indices is antisymmetric, and zero
    exactly at equal values. *)
Lemma spinmetric_numeric_is_antisymmetric (i1 i2 : idx) :
  value_is_nonnegint i1 = true -> value_is_nonnegint i2 = true ->
  get_dummy_indices is_dummy_pair [i1; i2] = [] ->
  get_dummy_indices is_dummy_pair [i2; i1] = [] ->
  exists z,
    spinmetric_eval_indexed is_dummy_pair (indexed spinmetric [i1; i2]) = numeric z
    /\ spinmetric_eval_indexed is_dummy_pair (indexed spinmetric [i2; i1]) = numeric (- z)
    /\ (z = 0 <-> value_to_int i1 = value_to_int i2).
Proof.
  intros H1 H2 Hd Hd'. unfold spinmetric_eval_indexed, all_index_values_are_nonnegint.
  cbn [indices]. rewrite Hd, Hd'. simpl. rewrite H1, H2. simpl.
  destruct (Z.compare_spec (value_to_int i1) (value_to_int i2)) as [E|L|G].
  - exists 0. rewrite E, Z.eqb_refl. repeat split; auto.
  - exists 1.
    rewrite (proj2 (Z.eqb_neq _ _)) by lia. rewrite (proj2 (Z.ltb_lt _ _)) by lia.
    rewrite (proj2 (Z.eqb_neq _ _)) by lia. rewrite (proj2 (Z.ltb_ge _ _)) by lia.
    repeat split; lia.
  - exists (-1).
    rewrite (proj2 (Z.eqb_neq _ _)) by lia. rewrite (proj2 (Z.ltb_ge _ _)) by lia.
    rewrite (proj2 (Z.eqb_neq _ _)) by lia. rewrite (proj2 (Z.ltb_lt _ _)) by lia.
    repeat split; lia.
Qed.

(** Indices whose dimensions cannot be compared: the delta tensor with a
    dummy pair catches the exception of [minimal_dim] and stays as it
    is, the metric tensors let it through. *)
Theorem incomparable_dimensions_delta_holds_metric_throws
    (pos_sig : bool) (i1 i2 : idx) (e : exception) :
  minimal_dim i1 i2 = throw e ->
  (is_dummy_pair i1 i2 = true ->
   tensdelta_eval_indexed is_dummy_pair minimal_dim (indexed tensdelta [i1; i2])
   = indexed tensdelta [i1; i2])
  /\ (get_dim i1 <> get_dim i2 ->
      tensmetric_eval_indexed minimal_dim (indexed tensmetric [i1; i2]) = throw e
      /\ (all_index_values_are_nonnegint [i1; i2] = false ->
          minkmetric_eval_indexed minimal_dim pos_sig (indexed (minkmetric pos_sig) [i1; i2])
          = throw e)).
Proof.
  intros Hm. split.
  - intros Hp. unfold tensdelta_eval_indexed. simpl. rewrite Hp, Hm. reflexivity.
  - intros Hd.
    assert (Ht : forall b, tensmetric_eval_indexed minimal_dim (indexed b [i1; i2]) = throw e).
    { intros b. unfold tensmetric_eval_indexed. simpl.
      rewrite bool_decide_eq_false_2 by exact Hd. simpl. rewrite Hm. reflexivity. }
    split; [apply Ht|]. intros Hn. unfold minkmetric_eval_indexed. cbn [indices].
    rewrite Hn. apply Ht.
Qed.

End Evaluation.


(** ** The epsilon tensor with lowered indices *)

Section Epsilon.

Variable is_dummy_pair : idx -> idx -> bool.

Lemma minkowski_factor_contravariant (pos_sig : bool) (ix : list idx) :
  Forall (fun i => is_covariant i = false) ix -> minkowski_factor pos_sig ix = 1.
Proof.
  induction 1 as [|i r Hi _ IH]; [reflexivity|].
  unfold minkowski_factor in *. simpl. unfold covariant_factor at 1. rewrite Hi, IH. reflexivity.
Qed.

Lemma minkowski_factor_covariant (pos_sig : bool) (ix : list idx) :
  Forall (fun i => is_covariant i = true) ix ->
  minkowski_factor pos_sig ix
  = foldr (fun n acc => lowered_factor pos_sig n * acc) 1 (value_to_int <$> ix).
Proof.
  induction 1 as [|i r Hi _ IH]; [reflexivity|].
  unfold minkowski_factor in *. simpl. unfold covariant_factor at 1. rewrite Hi, IH. reflexivity.
Qed.

Lemma lowered_product_permutation (pos_sig : bool) (l k : list Z) :
  l ≡ₚ k ->
  foldr (fun n acc => lowered_factor pos_sig n * acc) 1 l
  = foldr (fun n acc => lowered_factor pos_sig n * acc) 1 k.
Proof. induction 1; simpl; try congruence. ring. Qed.

Lemma toggle_variance_varidx (i : idx) :
  is_varidx i = true ->
  is_varidx (toggle_variance i) = true
  /\ is_covariant (toggle_variance i) = negb (is_covariant i)
  /\ value_to_int (toggle_variance i) = value_to_int i
  /\ value_is_nonnegint (toggle_variance i) = value_is_nonnegint i
  /\ get_dim (toggle_variance i) = get_dim i.
Proof.
  destruct i as [v d [|c|c dot]]; [discriminate|..]; intros _; repeat split.
Qed.

(** The Lorentz epsilon tensor at a permutation of the values 0, 1, 2, 3:
    with all four indices lowered it has the opposite sign, in both
    signatures. *)
Theorem lowering_all_indices_flips_the_lorentz_epsilon (pos_sig : bool) (ix : list idx) :
  forallb is_varidx ix = true ->
  Forall (fun i => is_covariant i = false) ix ->
  value_to_int <$> ix ≡ₚ [0; 1; 2; 3] ->
  forallb value_is_nonnegint ix = true ->
  get_dummy_indices is_dummy_pair ix = [] ->
  get_dummy_indices is_dummy_pair (toggle_variance <$> ix) = [] ->
  exists z,
    tensepsilon_eval_indexed is_dummy_pair true pos_sig
      (indexed (tensepsilon true pos_sig) ix) = ok (numeric z)
    /\ tensepsilon_eval_indexed is_dummy_pair true pos_sig
         (indexed (tensepsilon true pos_sig) (toggle_variance <$> ix)) = ok (numeric (- z)).
Proof.
  intros Hvar Hup Hperm Hnum Hd Hd'.
  assert (Hall : Forall (fun i => is_varidx i = true) ix).
  { apply list.Forall_forall. intros i Hi. rewrite forallb_forall in Hvar.
    apply Hvar, list_elem_of_In, Hi. }
  assert (Hvals : value_to_int <$> (toggle_variance <$> ix) = value_to_int <$> ix).
  { rewrite <- list_fmap_compose. apply list_fmap_ext. intros j i Hi. simpl.
    apply toggle_variance_varidx. eapply Forall_lookup_1 in Hall; eauto. }
  assert (Hvar' : forallb is_varidx (toggle_variance <$> ix) = true).
  { apply forallb_forall. intros i Hi. apply list_elem_of_In, list_elem_of_fmap in Hi
      as (j & -> & Hj). apply toggle_variance_varidx.
    rewrite list.Forall_forall in Hall. auto. }
  assert (Hnum' : forallb value_is_nonnegint (toggle_variance <$> ix) = true).
  { apply forallb_forall. intros i Hi. apply list_elem_of_In, list_elem_of_fmap in Hi
      as (j & -> & Hj).
    rewrite list.Forall_forall in Hall.
    destruct (toggle_variance_varidx j (Hall j Hj)) as (_ & _ & _ & -> & _).
    rewrite forallb_forall in Hnum. apply Hnum, list_elem_of_In, Hj. }
  assert (Hdown : Forall (fun i => is_covariant i = true) (toggle_variance <$> ix)).
  { apply Forall_fmap. rewrite list.Forall_forall in Hall, Hup |- *. intros i Hi. simpl.
    destruct (toggle_variance_varidx i (Hall i Hi)) as (_ & -> & _).
    rewrite (Hup i Hi). reflexivity. }
  exists (permutation_sign (value_to_int <$> ix)).
  unfold tensepsilon_eval_indexed, all_index_values_are_nonnegint. cbn [indices].
  rewrite Hd, Hd', Hnum, Hnum'. simpl.
  rewrite !minkowski_sign_factor by assumption. simpl.
  rewrite minkowski_factor_contravariant by exact Hup.
  rewrite minkowski_factor_covariant by exact Hdown.
  change (map value_to_int) with (fmap (M:=list) value_to_int).
  rewrite !Hvals, (lowered_product_permutation pos_sig _ _ Hperm).
  assert (foldr (fun n acc => lowered_factor pos_sig n * acc) 1 [0; 1; 2; 3] = -1) as ->
    by (destruct pos_sig; reflexivity).
  split; apply (f_equal (fun z => ok (numeric z))); ring.
Qed.

End Epsilon.


(** ** Constructors and the contraction of two epsilon tensors *)

Lemma result_map_ok {A B : Type} (f : A -> result B) (g : A -> B) (l : list A) :
  Forall (fun x => f x = ok (g x)) l -> result_map f l = ok (g <$> l).
Proof.
  induction 1 as [|x r Hx _ IH]; [reflexivity|].
  cbn [result_map] in *. rewrite Hx, result_bind_ok, IH, result_bind_ok. reflexivity.
Qed.

Lemma result_map_throw {A B : Type} (f : A -> result B) (e : exception) (l : list A) :
  Forall (fun x => (exists y, f x = ok y) \/ f x = throw e) l ->
  Exists (fun x => f x = throw e) l ->
  result_map f l = throw e.
Proof.
  induction 1 as [|x r Hx _ IH]; intros Hex; [inversion Hex|].
  cbn [result_map] in *. destruct Hx as [[y Hy]|Hx].
  - rewrite Hy, result_bind_ok. inversion Hex as [? ? Hh|? ? Ht]; subst; [congruence|].
    rewrite (IH Ht). reflexivity.
  - rewrite Hx. reflexivity.
Qed.

Section EpsilonContraction.

Variable determinant_simplify_indexed : list (list ex) -> ex.

(** What the constructors [epsilon_tensor], [lorentz_eps] and
    [spinor_metric] return has indices of the dimension of the tensor,
    of type varidx for the Lorentz epsilon and spinidx for the spinor
    metric. *)
Theorem constructed_tensors_fit_their_dimension
    (i1 i2 i3 i4 : idx) (pos_sig : bool) (e : ex) :
  (epsilon_tensor2 i1 i2 = ok e ->
   e = indexed (tensepsilon false false) [i1; i2]
   /\ Forall (fun i => get_dim i = num_dim 2) [i1; i2])
  /\ (epsilon_tensor3 i1 i2 i3 = ok e ->
      e = indexed (tensepsilon false false) [i1; i2; i3]
      /\ Forall (fun i => get_dim i = num_dim 3) [i1; i2; i3])
  /\ (lorentz_eps i1 i2 i3 i4 pos_sig = ok e ->
      e = indexed (tensepsilon true pos_sig) [i1; i2; i3; i4]
      /\ Forall (fun i => get_dim i = num_dim 4 /\ is_varidx i = true) [i1; i2; i3; i4])
  /\ (spinor_metric i1 i2 = ok e ->
      e = indexed spinmetric [i1; i2]
      /\ Forall (fun i => get_dim i = num_dim 2 /\ is_spinidx i = true) [i1; i2]).
Proof.
  unfold epsilon_tensor2, epsilon_tensor3, lorentz_eps, spinor_metric.
  split; [|split; [|split]]; intros H.
  - destruct (bool_decide (get_dim i1 = get_dim i2)) eqn:E1; [|discriminate].
    destruct (bool_decide (get_dim i1 = num_dim 2)) eqn:E2; [|discriminate].
    apply bool_decide_eq_true in E1, E2. injection H as <-.
    split; [reflexivity|]. repeat apply Forall_cons; try apply Forall_nil; congruence.
  - destruct (bool_decide (get_dim i1 = get_dim i2)) eqn:E1; [|discriminate].
    destruct (bool_decide (get_dim i1 = get_dim i3)) eqn:E3; [|discriminate].
    destruct (bool_decide (get_dim i1 = num_dim 3)) eqn:E2; [|discriminate].
    apply bool_decide_eq_true in E1, E2, E3. injection H as <-.
    split; [reflexivity|]. repeat apply Forall_cons; try apply Forall_nil; congruence.
  - destruct (is_varidx i1) eqn:V1; [|discriminate].
    destruct (is_varidx i2) eqn:V2; [|discriminate].
    destruct (is_varidx i3) eqn:V3; [|discriminate].
    destruct (is_varidx i4) eqn:V4; [|discriminate]. simpl in H.
    destruct (bool_decide (get_dim i1 = get_dim i2)) eqn:E1; [|discriminate].
    destruct (bool_decide (get_dim i1 = get_dim i3)) eqn:E3; [|discriminate].
    destruct (bool_decide (get_dim i1 = get_dim i4)) eqn:E4; [|discriminate].
    destruct (bool_decide (get_dim i1 = num_dim 4)) eqn:E2; [|discriminate].
    apply bool_decide_eq_true in E1, E2, E3, E4. injection H as <-.
    split; [reflexivity|].
    repeat apply Forall_cons; try apply Forall_nil; split; congruence.
  - destruct (is_spinidx i1) eqn:V1; [|discriminate].
    destruct (is_spinidx i2) eqn:V2; [|discriminate]. simpl in H.
    destruct (bool_decide (get_dim i1 = num_dim 2)) eqn:E1; [|discriminate].
    destruct (bool_decide (get_dim i2 = num_dim 2)) eqn:E2; [|discriminate].
    apply bool_decide_eq_true in E1, E2. injection H as <-.
    split; [reflexivity|].
    repeat apply Forall_cons; try apply Forall_nil; split; congruence.
Qed.

(** Two epsilon tensors made by [lorentz_eps] contract to minus the
    determinant of the Minkowski metric tensors of their indices, in
    the signature of the first; the second factor becomes 1. *)
Theorem lorentz_epsilons_contract_to_a_determinant
    (i1 i2 i3 i4 j1 j2 j3 j4 : idx) (pos_sig pos_sig' : bool) (self other : ex) :
  lorentz_eps i1 i2 i3 i4 pos_sig = ok self ->
  lorentz_eps j1 j2 j3 j4 pos_sig' = ok other ->
  tensepsilon_contract_with determinant_simplify_indexed true pos_sig self other
  = ok (true,
        ((numeric (-1)
          * determinant_simplify_indexed
              ((fun si => (fun oj => indexed (minkmetric pos_sig) [si; oj])
                          <$> [j1; j2; j3; j4]) <$> [i1; i2; i3; i4]))%ex,
         _ex1)).
Proof.
  unfold lorentz_eps.
  destruct (is_varidx i1) eqn:V1; [|discriminate].
  destruct (is_varidx i2) eqn:V2; [|discriminate].
  destruct (is_varidx i3) eqn:V3; [|discriminate].
  destruct (is_varidx i4) eqn:V4; [|discriminate]. simpl.
  destruct (_ || _); [discriminate|]. destruct (negb _); [discriminate|]. intros [= <-].
  destruct (is_varidx j1) eqn:W1; [|discriminate].
  destruct (is_varidx j2) eqn:W2; [|discriminate].
  destruct (is_varidx j3) eqn:W3; [|discriminate].
  destruct (is_varidx j4) eqn:W4; [|discriminate]. simpl.
  destruct (_ || _); [discriminate|]. destruct (negb _); [discriminate|]. intros [= <-].
  unfold tensepsilon_contract_with. cbn [indices op0_is_tensepsilon length Nat.eqb andb].
  rewrite (result_map_ok _ (fun si => (fun oj => indexed (minkmetric pos_sig) [si; oj])
                                        <$> [j1; j2; j3; j4])).
  - rewrite result_bind_ok. reflexivity.
  - repeat constructor;
      (apply result_map_ok; repeat constructor; unfold epsilon_matrix_entry, lorentz_g;
       rewrite ?V1, ?V2, ?V3, ?V4, ?W1, ?W2, ?W3, ?W4; reflexivity).
Qed.

(** Two Euclidean epsilon tensors of the same rank contract to a
    determinant of delta tensors when the first index of [self] is not
    a varidx, and of metric tensors when all indices are; when the
    first index of [self] is a varidx and some index is not, the
    contraction throws [invalid_argument]. *)
Theorem euclidean_epsilons_need_one_class_of_indices (sx ox : list idx) (s1 : idx) :
  let self := indexed (tensepsilon false false) sx in
  let other := indexed (tensepsilon false false) ox in
  let contraction :=
    tensepsilon_contract_with determinant_simplify_indexed false false self other in
  length ox = length sx -> sx !! 0%nat = Some s1 ->
  (is_varidx s1 = false ->
   contraction
   = ok (true, ((numeric 1
                 * determinant_simplify_indexed
                     ((fun si => delta_tensor si <$> ox) <$> sx))%ex, _ex1)))
  /\ (is_varidx s1 = true -> forallb is_varidx (sx ++ ox) = true ->
      contraction
      = ok (true, ((numeric 1
                    * determinant_simplify_indexed
                        ((fun si => (fun oj => indexed tensmetric [si; oj]) <$> ox)
                         <$> sx))%ex, _ex1)))
  /\ (is_varidx s1 = true -> forallb is_varidx (sx ++ ox) = false ->
      contraction
      = throw (invalid_argument "indices of metric tensor must be of type varidx")).
Proof.
  cbv zeta. intros Hlen Hs1. unfold tensepsilon_contract_with.
  cbn [indices op0_is_tensepsilon andb]. rewrite Hlen, Nat.eqb_refl.
  destruct sx as [|s sx']; [discriminate|]. injection Hs1 as ->.
  destruct ox as [|o ox']; [discriminate|].
  set (sx := s1 :: sx'). set (ox := o :: ox'). split; [|split].
  - intros Hv. rewrite Hv.
    rewrite (result_map_ok _ (fun si => delta_tensor si <$> ox)).
    + rewrite result_bind_ok. reflexivity.
    + apply list.Forall_forall. intros si _. apply result_map_ok.
      apply list.Forall_forall. intros oj _. reflexivity.
  - intros Hv Hall. rewrite Hv. rewrite forallb_app in Hall.
    apply andb_true_iff in Hall as [Hsx Hox]. rewrite forallb_forall in Hsx, Hox.
    rewrite (result_map_ok _ (fun si => (fun oj => indexed tensmetric [si; oj]) <$> ox)).
    + rewrite result_bind_ok. reflexivity.
    + apply list.Forall_forall. intros si Hsi. apply result_map_ok.
      apply list.Forall_forall. intros oj Hoj. unfold epsilon_matrix_entry, metric_tensor.
      rewrite (Hsx si), (Hox oj) by (apply list_elem_of_In; assumption). reflexivity.
  - intros Hv Hall. rewrite Hv.
    set (e := invalid_argument "indices of metric tensor must be of type varidx").
    assert (Hentry : forall si oj,
              (exists y, epsilon_matrix_entry false false true si oj = ok y)
              \/ epsilon_matrix_entry false false true si oj = throw e).
    { intros si oj. unfold epsilon_matrix_entry, metric_tensor.
      destruct (_ || _); eauto. }
    assert (Hrow : forall si,
              (exists y, result_map (epsilon_matrix_entry false false true si) ox = ok y)
              \/ result_map (epsilon_matrix_entry false false true si) ox = throw e).
    { intros si. generalize ox. intros l. induction l as [|oj r IH]; [left; eauto|].
      cbn [result_map]. destruct (Hentry si oj) as [[y ->] | ->]; [|right; reflexivity].
      rewrite result_bind_ok. destruct IH as [[ys ->] | ->]; [left|right]; eauto. }
    assert (Hthrow : forall si oj, oj ∈ ox ->
              is_varidx si = false \/ is_varidx oj = false ->
              result_map (epsilon_matrix_entry false false true si) ox = throw e).
    { intros si oj Hoj Hbad. apply result_map_throw.
      - apply list.Forall_forall. intros x _. apply Hentry.
      - apply list.Exists_exists. exists oj. split; [exact Hoj|].
        unfold epsilon_matrix_entry, metric_tensor.
        destruct Hbad as [-> | ->]; [reflexivity|]. rewrite orb_true_r. reflexivity. }
    rewrite (result_map_throw _ e); [reflexivity| |].
    + apply list.Forall_forall. intros si _. apply Hrow.
    + apply list.Exists_exists. rewrite forallb_app in Hall.
      apply andb_false_iff in Hall as [Hbad|Hbad];
        apply not_true_iff_false in Hbad; rewrite forallb_forall in Hbad.
      * assert (Hex : exists si, si ∈ sx /\ is_varidx si = false).
        { destruct (existsb (fun i => negb (is_varidx i)) sx) eqn:Hx.
          - apply existsb_exists in Hx as (si & Hsi & Hv').
            exists si. split; [apply list_elem_of_In, Hsi|].
            destruct (is_varidx si); [discriminate|reflexivity].
          - exfalso. apply Hbad. intros si Hsi.
            destruct (is_varidx si) eqn:Hv'; [reflexivity|].
            assert (existsb (fun i => negb (is_varidx i)) sx = true); [|congruence].
            apply existsb_exists. exists si. rewrite Hv'. auto. }
        destruct Hex as (si & Hsi & Hv'). exists si. split; [exact Hsi|].
        apply (Hthrow si o); [apply list_elem_of_here|auto].
      * assert (Hex : exists oj, oj ∈ ox /\ is_varidx oj = false).
        { destruct (existsb (fun i => negb (is_varidx i)) ox) eqn:Hx.
          - apply existsb_exists in Hx as (oj & Hoj & Hv').
            exists oj. split; [apply list_elem_of_In, Hoj|].
            destruct (is_varidx oj); [discriminate|reflexivity].
          - exfalso. apply Hbad. intros oj Hoj.
            destruct (is_varidx oj) eqn:Hv'; [reflexivity|].
            assert (existsb (fun i => negb (is_varidx i)) ox = true); [|congruence].
            apply existsb_exists. exists oj. rewrite Hv'. auto. }
        destruct Hex as (oj & Hoj & Hv'). exists s1. split; [apply list_elem_of_here|].
        apply (Hthrow s1 oj); auto.
Qed.

End EpsilonContraction.


(** ** Cyclicity of the trace *)

Section Cyclic.

Variable TINFO_clifford : Z.
Variable tinfo_key : ex -> Z.

Lemma dirac_trace_gamma_string (fuel : nat) (rl : Z) (trONE t : ex) (ix : list idx) :
  Nat.Even (length ix) -> (4 <= length ix)%nat ->
  trace_string fuel ix = ok t ->
  dirac_trace TINFO_clifford tinfo_key (S fuel) (ncmul (gamma_string rl ix)) rl trONE
  = ok (trONE * t)%ex.
Proof.
  intros Heven Hlen Ht.
  destruct ix as [|a ix]; [simpl in Hlen; lia|].
  change (gamma_string rl (a :: ix))
    with (clifford diracgamma [a] rl :: gamma_string rl ix).
  cbn [dirac_trace].
  rewrite return_type_tinfo_clifford_word. unfold is_clifford_tinfo.
  rewrite Z.eqb_refl. cbn [negb].
  rewrite (expand_clifford_word (clifford diracgamma [a] rl :: gamma_string rl ix))
    by (apply (gamma_string_clifford rl (a :: ix))).
  cbn [is_ncmul negb].
  change ((clifford diracgamma [a] rl :: gamma_string rl ix) !!! 0%nat)
    with (clifford diracgamma [a] rl).
  cbn [op0_is_diracgamma5].
  rewrite land_1_of_nat.
  replace (length (clifford diracgamma [a] rl :: gamma_string rl ix))
    with (length (a :: ix))
    by (unfold gamma_string; simpl; rewrite length_fmap; reflexivity).
  replace (Nat.odd (length (a :: ix))) with false.
  2:{ symmetry. rewrite <- Nat.negb_even. apply Nat.even_spec in Heven.
      rewrite Heven. reflexivity. }
  change (0 =? 1) with false. cbv iota.
  replace (length (a :: ix) =? 2)%nat with false
    by (symmetry; apply Nat.eqb_neq; lia).
  change (clifford diracgamma [a] rl :: gamma_string rl ix)
    with (gamma_string rl (a :: ix)).
  rewrite result_map_op1_gamma_string, result_bind_ok, Ht, result_bind_ok.
  reflexivity.
Qed.

Lemma dirac_trace_gamma_string_value (fuel : nat) (rl : Z) (trONE : ex) (ix : list idx) :
  Forall (fun j => is_varidx j = true) ix ->
  Nat.Even (length ix) -> (4 <= length ix)%nat -> (length ix <= 2 * fuel)%nat ->
  exists t,
    dirac_trace TINFO_clifford tinfo_key (S fuel) (ncmul (gamma_string rl ix)) rl trONE = ok t
    /\ forall rho, denote rho t = denote rho trONE * (denote rho (trace_expansion (length ix) ix) * 1).
Proof.
  intros Hix Heven Hlen Hfuel.
  destruct (trace_string_refines fuel ix (length ix) Hix Heven) as [t [Ht Hden]]; [lia..|].
  exists (trONE * t)%ex. split; [apply dirac_trace_gamma_string; assumption|].
  intros rho. unfold ex_mul. cbn [denote foldr]. rewrite Hden. reflexivity.
Qed.

(** The trace of four and of six gammas has the same value when the
    first gamma is moved to the end, under every valuation that gives
    the metric tensor symmetric values. *)
Theorem trace_of_gammas_is_cyclic
    (fuel : nat) (rl : Z) (trONE : ex) (a b c d e f : idx) (rho : ex -> Z) :
  Forall (fun j => is_varidx j = true) [a; b; c; d; e; f] ->
  symmetric_metric rho ->
  (exists t t',
     dirac_trace TINFO_clifford tinfo_key (S (S (S fuel)))
       (ncmul (gamma_string rl [a; b; c; d])) rl trONE = ok t
     /\ dirac_trace TINFO_clifford tinfo_key (S (S (S fuel)))
          (ncmul (gamma_string rl [b; c; d; a])) rl trONE = ok t'
     /\ denote rho t = denote rho t')
  /\ (exists t t',
        dirac_trace TINFO_clifford tinfo_key (S (S (S (S fuel))))
          (ncmul (gamma_string rl [a; b; c; d; e; f])) rl trONE = ok t
        /\ dirac_trace TINFO_clifford tinfo_key (S (S (S (S fuel))))
             (ncmul (gamma_string rl [b; c; d; e; f; a])) rl trONE = ok t'
        /\ denote rho t = denote rho t').
Proof.
  intros Hvar Hsym.
  inversion Hvar as [|? ? Ha H1]; subst. inversion H1 as [|? ? Hb H2]; subst.
  inversion H2 as [|? ? Hc H3]; subst. inversion H3 as [|? ? Hd H4]; subst.
  inversion H4 as [|? ? He H5]; subst. inversion H5 as [|? ? Hf _]; subst.
  assert (E4 : Nat.Even 4) by (exists 2%nat; reflexivity).
  assert (E6 : Nat.Even 6) by (exists 3%nat; reflexivity).
  split.
  - destruct (dirac_trace_gamma_string_value (S (S fuel)) rl trONE [a; b; c; d])
      as (t & Ht & Hden); [repeat constructor; assumption|exact E4|simpl; lia..|].
    destruct (dirac_trace_gamma_string_value (S (S fuel)) rl trONE [b; c; d; a])
      as (t' & Ht' & Hden'); [repeat constructor; assumption|exact E4|simpl; lia..|].
    exists t, t'. split; [exact Ht|split; [exact Ht'|]].
    rewrite Hden, Hden'. f_equal. f_equal.
    cbn. change ((-1) ^ Z.of_nat 2) with 1. change ((-1) ^ Z.of_nat 3) with (-1).
    change ((-1) ^ Z.of_nat 4) with 1. rewrite ?(Hsym b a), ?(Hsym c a), ?(Hsym d a), ?(Hsym c b), ?(Hsym d b), ?(Hsym d c).
    ring.
  - destruct (dirac_trace_gamma_string_value (S (S (S fuel))) rl trONE [a; b; c; d; e; f])
      as (t & Ht & Hden); [repeat constructor; assumption|exact E6|simpl; lia..|].
    destruct (dirac_trace_gamma_string_value (S (S (S fuel))) rl trONE [b; c; d; e; f; a])
      as (t' & Ht' & Hden'); [repeat constructor; assumption|exact E6|simpl; lia..|].
    exists t, t'. split; [exact Ht|split; [exact Ht'|]].
    rewrite Hden, Hden'. f_equal. f_equal.
    cbn. change ((-1) ^ Z.of_nat 2) with 1. change ((-1) ^ Z.of_nat 3) with (-1).
    change ((-1) ^ Z.of_nat 4) with 1. change ((-1) ^ Z.of_nat 5) with (-1).
    change ((-1) ^ Z.of_nat 6) with 1.
    rewrite ?(Hsym b a), ?(Hsym c a), ?(Hsym d a), ?(Hsym e a), ?(Hsym f a),
      ?(Hsym c b), ?(Hsym d b), ?(Hsym e b), ?(Hsym f b),
      ?(Hsym d c), ?(Hsym e c), ?(Hsym f c), ?(Hsym e d), ?(Hsym f d), ?(Hsym f e).
    ring.
Qed.

End Cyclic.


(** ** Gammas that are neighbours or one apart *)

(** gamma~mu gamma.mu = dim ONE for two neighbours, and
    gamma~mu gamma~alpha gamma.mu = (2 - dim) gamma~alpha with one
    Clifford object between the two, which stays. *)
Theorem gamma_contraction_short_gaps
    (v : list ex) (self : nat) (mu : idx) (rl : Z) (emid eother : ex) :
  v !! self = Some (clifford diracgamma [mu] rl) ->
  is_clifford eother = true ->
  (v !! (self + 1)%nat = Some eother ->
   diracgamma_contract_with self (self + 1) v
   = ok (true, <[(self + 1)%nat := dirac_ONE rl]> (<[self := ex_of_dim (get_dim mu)]> v)))
  /\ (v !! (self + 1)%nat = Some emid -> is_clifford emid = true ->
      v !! (self + 2)%nat = Some eother ->
      diracgamma_contract_with self (self + 2) v
      = ok (true, <[(self + 2)%nat := _ex1]>
                    (<[self := (_ex2 - ex_of_dim (get_dim mu))%ex]> v))).
Proof.
  intros Hself Hcl. split.
  - intros Hother. apply (gamma_contraction_gap_zero v self mu rl eother); assumption.
  - intros Hmid Hm Hother. apply (gamma_contraction_gap_one v self mu rl emid eother); assumption.
Qed.

(** ** The archive *)

Section ArchiveFacts.

Import Archive.
Local Open Scope N_scope.

Lemma lor_disjoint (a b s : N) : a < 2 ^ s -> N.lor a (b * 2 ^ s) = a + b * 2 ^ s.
Proof.
  intros Ha. rewrite N.add_nocarry_lxor, N.lxor_lor; [reflexivity| |];
    (apply N.bits_inj; intros n; rewrite N.land_spec, N.bits_0;
     destruct (N.lt_ge_cases n s) as [Hn|Hn];
     [rewrite N.mul_pow2_bits_low by exact Hn; apply andb_false_r|];
     replace a with (a mod 2 ^ s) by (apply N.mod_small, Ha);
     rewrite N.mod_pow2_bits_high by exact Hn; reflexivity).
Qed.

Lemma land_pow2 (x k : N) : N.land x (2 ^ k) = if N.testbit x k then 2 ^ k else 0.
Proof.
  apply N.bits_inj. intros n. rewrite N.land_spec, N.pow2_bits_eqb.
  destruct (N.eqb_spec k n) as [->|Hne].
  - destruct (N.testbit x n); [rewrite N.pow2_bits_true|rewrite N.bits_0]; reflexivity.
  - rewrite andb_false_r. destruct (N.testbit x k);
      [rewrite N.pow2_bits_false by exact Hne|rewrite N.bits_0]; reflexivity.
Qed.

Lemma land_0x7f (x : N) : N.land x 0x7f = x mod 128.
Proof. change 0x7f with (N.ones 7). apply N.land_ones. Qed.

Lemma land_0xff (x : N) : N.land x 0xff = x mod 256.
Proof. change 0xff with (N.ones 8). apply N.land_ones. Qed.

Lemma land_0x80 (x : N) : N.land x 0x80 = if (x / 128) mod 2 =? 1 then 128 else 0.
Proof.
  change 0x80 with (2 ^ 7). rewrite land_pow2, N.testbit_eqb. reflexivity.
Qed.

Lemma continuation_byte (val : N) :
  let b := N.lor (N.land val 0x7f) 0x80 in
  b = val mod 128 + 128 /\ N.land b 0x7f = val mod 128 /\ N.land b 0x80 = 0x80.
Proof.
  cbv zeta.
  assert (H : val mod 128 < 128) by (apply N.mod_lt; lia).
  assert (Hb : N.lor (N.land val 0x7f) 0x80 = val mod 128 + 128).
  { rewrite land_0x7f. apply (lor_disjoint (val mod 128) 1 7 H). }
  rewrite Hb. remember (val mod 128) as m eqn:Em. clear Em Hb.
  split; [reflexivity|]. split.
  - rewrite land_0x7f. replace (m + 128) with (m + 1 * 128) by lia. rewrite N.Div0.mod_add.
    apply N.mod_small, H.
  - rewrite land_0x80. replace ((m + 128) / 128) with 1; [reflexivity|].
    apply (N.div_unique _ _ _ m); lia.
Qed.

Lemma size_nat_shiftr (val : N) : 0x80 < val -> (S (N.size_nat (N.shiftr val 7)) <= N.size_nat val)%nat.
Proof.
  intros H. destruct val as [|p]; [lia|].
  do 7 (destruct p as [p|p|]; try (vm_compute in H; discriminate)); simpl; lia.
Qed.

Lemma size_nat_zero (val : N) : N.size_nat val = 0%nat -> val = 0.
Proof. destruct val as [|[]]; simpl; intros; congruence. Qed.

Lemma writable_shiftr (val : N) :
  val < 2 ^ 32 -> writable val = true -> writable (N.shiftr val 7) = true.
Proof.
  unfold writable. cbn [forallb]. rewrite !N.shiftr_shiftr.
  change (7 + 0) with 7. change (7 + 7) with 14. change (7 + 14) with 21.
  change (7 + 21) with 28. change (7 + 28) with 35.
  intros Hlt H. repeat (apply andb_true_iff in H as [? H]).
  repeat (apply andb_true_iff; split); try assumption.
  replace (N.shiftr val 35) with 0; [reflexivity|].
  symmetry. apply N.shiftr_eq_0. destruct val as [|p]; [reflexivity|].
  apply N.log2_lt_pow2; lia.
Qed.

Lemma read_write_unsigned_loop (fuel : nat) (val : N) (rest : list N) (ret shift : N) :
  (N.size_nat val <= fuel)%nat ->
  writable val = true -> ret < 2 ^ shift -> shift < 32 -> val * 2 ^ shift < 2 ^ 32 ->
  read_unsigned_loop (write_unsigned_loop fuel val ++ rest) ret shift
  = returns (ret + val * 2 ^ shift, rest).
Proof.
  revert val ret shift. induction fuel as [|fuel IH]; intros val ret shift Hfuel Hw Hret Hs Hval.
  - assert (val = 0) as -> by (apply size_nat_zero; lia). simpl.
    apply N.leb_gt in Hs as Hs'. rewrite Hs'. rewrite N.add_0_r, N.lor_0_r. reflexivity.
  - cbn [write_unsigned_loop]. destruct (0x80 <? val) eqn:Hbig.
    + apply N.ltb_lt in Hbig.
      destruct (continuation_byte val) as (Hb & H7f & H80).
      cbn [app read_unsigned_loop]. cbv zeta.
      assert (Hshift : shift + 7 < 32).
      { destruct (N.lt_ge_cases shift 25) as [|Hge]; [lia|].
        assert (2 ^ 25 <= 2 ^ shift) by (apply N.pow_le_mono_r; lia).
        assert (129 * 2 ^ 25 <= val * 2 ^ shift) by (apply N.mul_le_mono; lia).
        change (2 ^ 32) with (128 * 2 ^ 25) in Hval. lia. }
      apply N.leb_gt in Hs as Hs'. rewrite Hs'. rewrite H7f, H80.
      change (0x80 =? 0) with false. cbv iota.
      assert (Hm : val mod 128 < 128) by (apply N.mod_lt; lia).
      assert (Hdiv : val = 128 * (val / 128) + val mod 128) by (apply N.div_mod; lia).
      rewrite N.shiftl_mul_pow2.
      assert (Hpow : 2 ^ (shift + 7) = 2 ^ shift * 128).
      { rewrite N.pow_add_r. reflexivity. }
      assert (Hchunk : val mod 128 * 2 ^ shift < 2 ^ 32).
      { eapply N.le_lt_trans; [|exact Hval]. apply N.mul_le_mono_r. lia. }
      rewrite N.mod_small by exact Hchunk. rewrite lor_disjoint by exact Hret.
      assert (Hshr : N.shiftr val 7 = val / 128) by apply N.shiftr_div_pow2.
      rewrite IH.
      * f_equal. f_equal. rewrite Hshr, Hpow. rewrite Hdiv at 3. lia.
      * pose proof (size_nat_shiftr val Hbig) as Hsz. lia.
      * apply writable_shiftr; [|exact Hw].
        eapply N.le_lt_trans; [|exact Hval]. rewrite <- (N.mul_1_r val) at 1.
        apply N.mul_le_mono_l.
        assert (0 < 2 ^ shift) by (apply N.neq_0_lt_0, N.pow_nonzero; lia). lia.
      * rewrite Hpow. nia.
      * exact Hshift.
      * rewrite Hshr, Hpow. eapply N.le_lt_trans; [|exact Hval]. rewrite Hdiv at 2. nia.
    + apply N.ltb_ge in Hbig.
      assert (Hne : val <> 0x80).
      { unfold writable in Hw. cbn [forallb] in Hw. apply andb_true_iff in Hw as [Hw _].
        rewrite N.shiftr_0_r in Hw. apply negb_true_iff, N.eqb_neq in Hw. exact Hw. }
      assert (Hsmall : val < 128) by lia.
      cbn [app read_unsigned_loop]. cbv zeta.
      apply N.leb_gt in Hs as Hs'. rewrite Hs'.
      rewrite land_0xff, (N.mod_small val 256) by lia.
      rewrite land_0x7f, (N.mod_small val 128) by lia.
      rewrite land_0x80. rewrite (N.div_small val 128) by lia.
      change (0 mod 2 =? 1) with false. cbv iota. change (0 =? 0) with true. cbv iota.
      rewrite N.shiftl_mul_pow2, N.mod_small by exact Hval.
      rewrite lor_disjoint by exact Hret. reflexivity.
Qed.

(** A number below 2^32 that no shift by a multiple of seven bits turns
    into 0x80 is read back as it was written. *)
Lemma read_unsigned_write_unsigned (val : N) (rest : list N) :
  val < 2 ^ 32 -> writable val = true ->
  read_unsigned (write_unsigned val ++ rest) = returns (val, rest).
Proof.
  intros Hval Hw. unfold read_unsigned, write_unsigned.
  change (2 ^ 32) with 4294967296 in Hval.
  rewrite read_write_unsigned_loop;
    [f_equal; f_equal; lia|lia|exact Hw|reflexivity|reflexivity|].
  change (2 ^ 0) with 1. change (2 ^ 32) with 4294967296. lia.
Qed.

Lemma write_unsigned_loop_continues (fuel : nat) (val : N) :
  (N.size_nat val <= fuel)%nat -> (exists k, N.shiftr val (7 * k) = 0x80) ->
  Forall (fun b => N.land b 0x80 = 0x80) (write_unsigned_loop fuel val).
Proof.
  revert val. induction fuel as [|fuel IH]; intros val Hfuel [k Hk].
  - assert (val = 0) as -> by (apply size_nat_zero; lia).
    rewrite N.shiftr_0_l in Hk. discriminate.
  - cbn [write_unsigned_loop]. destruct (0x80 <? val) eqn:Hbig.
    + apply N.ltb_lt in Hbig. constructor; [apply continuation_byte|].
      apply IH; [pose proof (size_nat_shiftr val Hbig); lia|].
      destruct k as [|k] using N.peano_ind.
      { rewrite N.mul_0_r, N.shiftr_0_r in Hk. lia. }
      exists k. rewrite N.shiftr_shiftr. rewrite <- Hk. f_equal. lia.
    + apply N.ltb_ge in Hbig. constructor; [|constructor].
      destruct k as [|k] using N.peano_ind.
      { rewrite N.mul_0_r, N.shiftr_0_r in Hk. subst val. reflexivity. }
      exfalso. assert (Hz : N.shiftr val (7 * N.succ k) = 0 \/ N.shiftr val (7 * N.succ k) = 1).
      { replace (7 * N.succ k) with (7 + 7 * k) by lia. rewrite <- N.shiftr_shiftr.
        assert (N.shiftr val 7 <= 1).
        { rewrite N.shiftr_div_pow2. change (2 ^ 7) with 128.
          apply N.Div0.div_le_upper_bound. lia. }
        assert (N.shiftr (N.shiftr val 7) (7 * k) <= N.shiftr val 7).
        { rewrite (N.shiftr_div_pow2 _ (7 * k)). apply N.Div0.div_le_upper_bound.
          assert (0 < 2 ^ (7 * k)) by (apply N.neq_0_lt_0, N.pow_nonzero; lia). nia. }
        lia. }
      destruct Hz as [Hz|Hz]; rewrite Hz in Hk; discriminate.
Qed.

Lemma read_unsigned_loop_consumes (input : list N) (ret shift v : N) (r : list N) :
  read_unsigned_loop input ret shift = returns (v, r) -> (length r < length input)%nat.
Proof.
  revert ret shift. induction input as [|b rest IH]; intros ret shift; simpl; [discriminate|].
  destruct (32 <=? shift); [discriminate|].
  destruct (N.land b 0x80 =? 0).
  - intros [= _ <-]. lia.
  - intros H. apply IH in H. lia.
Qed.

Lemma read_unsigned_loop_continues (w rest : list N) (ret shift v : N) (r : list N) :
  Forall (fun b => N.land b 0x80 = 0x80) w ->
  read_unsigned_loop (w ++ rest) ret shift = returns (v, r) -> (length r < length rest)%nat.
Proof.
  intros Hw. revert ret shift. induction Hw as [|b w Hb _ IH]; intros ret shift.
  - apply read_unsigned_loop_consumes.
  - cbn [app read_unsigned_loop]. destruct (32 <=? shift); [discriminate|].
    cbv zeta. rewrite Hb. change (0x80 =? 0) with false. cbv iota. apply IH.
Qed.

Lemma writable_false (val : N) :
  writable val = false -> exists k, N.shiftr val (7 * k) = 0x80.
Proof.
  unfold writable. cbn [forallb]. intros H.
  repeat (apply andb_false_iff in H as [H|H];
          [apply negb_false_iff, N.eqb_eq in H|]).
  - exists 0. exact H.
  - exists 1. exact H.
  - exists 2. exact H.
  - exists 3. exact H.
  - exists 4. exact H.
  - discriminate.
Qed.

Lemma write_unsigned_loop_fuels (fuel fuel' : nat) (val : N) :
  (N.size_nat val <= fuel)%nat -> (N.size_nat val <= fuel')%nat ->
  write_unsigned_loop fuel val = write_unsigned_loop fuel' val.
Proof.
  revert fuel' val. induction fuel as [|fuel IH]; intros fuel' val Hle Hle'.
  - assert (Hz : val = 0) by (apply size_nat_zero; lia). subst val.
    destruct fuel'; reflexivity.
  - cbn [write_unsigned_loop]. destruct (0x80 <? val) eqn:E.
    + pose proof (size_nat_shiftr val (proj1 (N.ltb_lt _ _) E)) as Hs.
      destruct fuel' as [|fuel']; [lia|].
      cbn [write_unsigned_loop]. rewrite E. f_equal. apply IH; lia.
    + destruct fuel'; cbn [write_unsigned_loop]; rewrite ?E; reflexivity.
Qed.

(** The fuel of [write_unsigned] is enough: more of it writes the same
    bytes. *)
Lemma write_unsigned_loop_fuel (fuel : nat) (val : N) :
  (N.size_nat val <= fuel)%nat -> write_unsigned_loop fuel val = write_unsigned val.
Proof. intros Hle. apply write_unsigned_loop_fuels; [exact Hle|reflexivity]. Qed.

(** [read_unsigned] reads back what [write_unsigned] wrote for a number
    below 2^32 exactly when no shift of the number by a multiple of
    seven bits is 0x80: the loop of [write_unsigned] stops at 0x80 and
    writes it as the last byte, which [read_unsigned] takes for a byte
    that is followed by another. *)
Theorem read_unsigned_inverts_write_unsigned (val : N) (rest : list N) :
  val < 2 ^ 32 ->
  read_unsigned (write_unsigned val ++ rest) = returns (val, rest) <-> writable val = true.
Proof.
  intros Hval. split.
  - intros H. destruct (writable val) eqn:Hw; [reflexivity|]. exfalso.
    apply writable_false in Hw.
    apply read_unsigned_loop_continues in H; [lia|].
    apply write_unsigned_loop_continues; [lia|exact Hw].
  - apply read_unsigned_write_unsigned, Hval.
Qed.

Section Atoms.

Context {handle : Type}.

Lemma atomize_search_found (l : list string) (s : string) (id0 id : N) :
  atomize_search l s id0 = inl id ->
  exists k, id = id0 + N.of_nat k /\ l !! k = Some s
            /\ forall j, (j < k)%nat -> l !! j <> Some s.
Proof.
  revert id0. induction l as [|x r IH]; intros id0; simpl; [discriminate|].
  destruct (bool_decide (x = s)) eqn:E.
  - apply bool_decide_eq_true in E. intros [= <-]. exists 0%nat. simpl.
    repeat split; [lia|congruence|lia].
  - apply bool_decide_eq_false in E. intros H. destruct (IH _ H) as (k & -> & Hk & Hmin).
    exists (S k). repeat split; [lia|exact Hk|].
    intros [|j] Hj; simpl; [congruence|apply Hmin; lia].
Qed.

Lemma atomize_search_missing (l : list string) (s : string) (id0 id : N) :
  atomize_search l s id0 = inr id -> id = id0 + N.of_nat (length l) /\ s ∉ l.
Proof.
  revert id0. induction l as [|x r IH]; intros id0; simpl.
  - intros [= <-]. split; [lia|apply not_elem_of_nil].
  - destruct (bool_decide (x = s)) eqn:E; [discriminate|].
    apply bool_decide_eq_false in E. intros H. destruct (IH _ H) as (-> & Hs).
    split; [lia|]. apply not_elem_of_cons. auto.
Qed.

Lemma atomize_search_elem (l : list string) (s : string) (id0 : N) :
  s ∈ l -> exists id, atomize_search l s id0 = inl id.
Proof.
  intros Hs. destruct (atomize_search l s id0) as [id|id] eqn:H; [eauto|].
  apply atomize_search_missing in H as [_ H]. contradiction.
Qed.

Lemma atomize_search_app (l k : list string) (s : string) (id0 id : N) :
  atomize_search l s id0 = inl id -> atomize_search (l ++ k) s id0 = inl id.
Proof.
  revert id0. induction l as [|x r IH]; intros id0; simpl; [discriminate|].
  destruct (bool_decide (x = s)); [auto|apply IH].
Qed.

Lemma atomize_search_last (l : list string) (s : string) (id0 id : N) :
  atomize_search l s id0 = inr id -> atomize_search (l ++ [s]) s id0 = inl id.
Proof.
  revert id0. induction l as [|x r IH]; intros id0; simpl.
  - intros [= <-]. rewrite bool_decide_eq_true_2 by reflexivity. reflexivity.
  - destruct (bool_decide (x = s)); [discriminate|apply IH].
Qed.

Lemma atomize_unatomize_facts (a : archive handle) (s : string) :
  let id := (atomize a s).1 in
  let a' := (atomize a s).2 in
  unatomize a' id = returns s
  /\ atomize a' s = (id, a')
  /\ (forall id0 s0, unatomize a id0 = returns s0 -> unatomize a' id0 = returns s0)
  /\ (s ∈ atoms a -> a' = a)
  /\ (NoDup (atoms a) -> NoDup (atoms a'))
  /\ exprs a' = exprs a /\ nodes a' = nodes a.
Proof.
  cbv zeta. unfold atomize, unatomize.
  destruct (atomize_search (atoms a) s 0) as [id|id] eqn:H; cbn [fst snd atoms exprs nodes].
  - rewrite H. destruct (atomize_search_found _ _ _ _ H) as (k & -> & Hk & _).
    rewrite N.add_0_l, Nat2N.id, Hk. repeat split; auto.
  - rewrite (atomize_search_last _ _ _ _ H).
    destruct (atomize_search_missing _ _ _ _ H) as (-> & Hs).
    rewrite N.add_0_l, Nat2N.id. repeat split.
    + rewrite lookup_app_r by lia. rewrite Nat.sub_diag. reflexivity.
    + intros id0 s0. destruct (atoms a !! N.to_nat id0) eqn:E; [|discriminate].
      rewrite (lookup_app_l_Some _ _ _ _ E). auto.
    + intros Hin. contradiction.
    + intros Hnd. apply list.NoDup_app. repeat split; [exact Hnd| |apply NoDup_singleton].
      intros x Hx Hx'. apply list_elem_of_singleton in Hx'. subst. contradiction.
Qed.

(** [atomize] answers with a number that [unatomize] turns back into the
    string, and answers with the same number when the string is asked
    for again; the atoms there were keep their numbers, a string that
    is known adds nothing, and the table stays free of duplicates. *)
Theorem atomize_and_unatomize (a : archive handle) (s : string) :
  let id := (atomize a s).1 in
  let a' := (atomize a s).2 in
  unatomize a' id = returns s
  /\ atomize a' s = (id, a')
  /\ (forall id0 s0, unatomize a id0 = returns s0 -> unatomize a' id0 = returns s0)
  /\ (s ∈ atoms a -> a' = a)
  /\ (NoDup (atoms a) -> NoDup (atoms a'))
  /\ exprs a' = exprs a /\ nodes a' = nodes a.
Proof. exact (atomize_unatomize_facts a s). Qed.

End Atoms.

Section Properties.

Context {handle : Type}.
Variables PTYPE_BOOL PTYPE_UNSIGNED PTYPE_STRING PTYPE_NODE : N.

Lemma atomize_again (a : archive handle) (s : string) :
  atomize (atomize a s).2 s = atomize a s.
Proof.
  destruct (atomize_unatomize_facts a s) as (_ & H & _). rewrite H.
  destruct (atomize a s). reflexivity.
Qed.

Lemma find_property_push_back (ty id : N) (n : archive_node handle) (p : property) :
  find_property ty id (push_back n p)
  = match find_property ty id n with
    | Some i => Some i
    | None => if (type p =? ty) && (name p =? id) then Some p else None
    end.
Proof.
  unfold find_property, push_back. cbn [props].
  induction (props n) as [|x r IH]; simpl; [reflexivity|].
  destruct ((type x =? ty) && (name x =? id)); [reflexivity|exact IH].
Qed.

(** After [add_bool] and [add_unsigned] the name is found. The value
    found is the one that was added, unless the node held a property of
    the type and name before: the search stops at the first one, and
    the older value is found. A property of another type under the same
    name changes nothing for the search. *)
Theorem find_after_add (a : archive handle) (n : archive_node handle) (nm : string)
    (b ret : bool) (u retu : N) :
  let ab := add_bool PTYPE_BOOL a n nm b in
  let au := add_unsigned PTYPE_UNSIGNED a n nm u in
  find_bool PTYPE_BOOL ab.1 ab.2 nm ret
  = (true, (if (find_bool PTYPE_BOOL a n nm ret).1.1
            then (find_bool PTYPE_BOOL a n nm ret).1.2 else b), ab.1)
  /\ find_unsigned PTYPE_UNSIGNED au.1 au.2 nm retu
     = (true, (if (find_unsigned PTYPE_UNSIGNED a n nm retu).1.1
               then (find_unsigned PTYPE_UNSIGNED a n nm retu).1.2 else u), au.1)
  /\ (PTYPE_BOOL <> PTYPE_UNSIGNED ->
      (find_unsigned PTYPE_UNSIGNED ab.1 ab.2 nm retu).1
      = (find_unsigned PTYPE_UNSIGNED a n nm retu).1).
Proof.
  cbv zeta. unfold add_bool, add_unsigned, find_bool, find_unsigned. cbn [fst snd].
  rewrite !atomize_again, !find_property_push_back. cbn [type name value].
  rewrite !N.eqb_refl. cbn [andb]. repeat split.
  - destruct (find_property PTYPE_BOOL _ n); [reflexivity|]. cbn [fst snd].
    destruct b; reflexivity.
  - destruct (find_property PTYPE_UNSIGNED _ n); reflexivity.
  - intros Hne. apply N.eqb_neq in Hne. rewrite Hne. cbn [andb].
    destruct (find_property PTYPE_UNSIGNED _ n); reflexivity.
Qed.

(** The search for a name that is not an atom of the archive answers
    false and leaves the variable that was to receive the value as it
    was, and it adds the name to the atoms of the archive. *)
Theorem find_of_an_unknown_name (a : archive handle) (n : archive_node handle) (nm : string)
    (ret : bool) (retu : N) (rets : string) :
  nm ∉ atoms a ->
  Forall (fun p => name p < N.of_nat (length (atoms a))) (props n) ->
  let a' := mk_archive (atoms a ++ [nm]) (exprs a) (nodes a) in
  find_bool PTYPE_BOOL a n nm ret = (false, ret, a')
  /\ find_unsigned PTYPE_UNSIGNED a n nm retu = (false, retu, a')
  /\ find_string PTYPE_STRING a n nm rets = returns (false, rets, a').
Proof.
  intros Hnm Hwf. cbv zeta. unfold find_bool, find_unsigned, find_string, atomize.
  destruct (atomize_search (atoms a) nm 0) as [id|id] eqn:H.
  { apply atomize_search_found in H as (k & _ & Hk & _).
    exfalso. apply Hnm. eapply list_elem_of_lookup_2, Hk. }
  apply atomize_search_missing in H as [-> _]. cbn [fst snd].
  assert (Hnone : forall ty, find_property ty (0 + N.of_nat (length (atoms a))) n = None).
  { intros ty. unfold find_property.
    destruct (List.find _ (props n)) as [p|] eqn:Hf; [|reflexivity].
    apply find_some in Hf as [Hp Hf]. apply andb_true_iff in Hf as [_ Hf].
    apply N.eqb_eq in Hf. rewrite list.Forall_forall in Hwf.
    specialize (Hwf p (proj2 (list_elem_of_In _ _) Hp)). lia. }
  rewrite !Hnone. repeat split.
Qed.

End Properties.

Section Strings.

Context {handle : Type}.
Variable PTYPE_STRING : N.

Lemma atomize_known (a : archive handle) (s : string) :
  s ∈ atoms a -> (atomize a s).2 = a /\ atoms a !! N.to_nat (atomize a s).1 = Some s.
Proof.
  intros Hs. unfold atomize.
  destruct (atomize_search_elem (atoms a) s 0 Hs) as [id H]. rewrite H. cbn [fst snd].
  apply atomize_search_found in H as (k & -> & Hk & _).
  rewrite N.add_0_l, Nat2N.id. auto.
Qed.

Lemma atomize_elem (a : archive handle) (s : string) : s ∈ atoms (atomize a s).2.
Proof.
  destruct (atomize_unatomize_facts a s) as (H & _). unfold unatomize in H.
  destruct (atoms (atomize a s).2 !! N.to_nat (atomize a s).1) eqn:E; [|discriminate].
  injection H as ->. eapply list_elem_of_lookup_2, E.
Qed.

Lemma atomize_grows (a : archive handle) (s s0 : string) :
  s0 ∈ atoms a -> s0 ∈ atoms (atomize a s).2 /\ (atomize (atomize a s).2 s0).1 = (atomize a s0).1.
Proof.
  intros Hs0. unfold atomize at 1 3.
  destruct (atomize_search (atoms a) s 0) as [id|id] eqn:H; cbn [fst snd atoms]; [auto|].
  split; [apply elem_of_app; auto|].
  unfold atomize. cbn [atoms].
  destruct (atomize_search_elem (atoms a) s0 0 Hs0) as [id0 H0].
  rewrite H0, (atomize_search_app _ [s] _ _ _ H0). reflexivity.
Qed.

Lemma atomize_prefix (a : archive handle) (s : string) :
  atoms a `prefix_of` atoms (atomize a s).2.
Proof.
  unfold atomize. destruct (atomize_search (atoms a) s 0); cbn [snd atoms].
  - reflexivity.
  - apply prefix_app_r. reflexivity.
Qed.

Lemma find_string_add_string_facts
    (name_first : bool) (a : archive handle) (n : archive_node handle) (nm v ret : string) :
  Forall (fun p => name p < N.of_nat (length (atoms a))) (props n) ->
  (forall p, p ∈ props n -> type p = PTYPE_STRING ->
             atoms a !! N.to_nat (name p) <> Some nm) ->
  let s := add_string PTYPE_STRING name_first a n nm v in
  find_string PTYPE_STRING s.1 s.2 nm ret = returns (true, v, s.1).
Proof.
  intros Hwf Hnone. cbv zeta.
  set (s := add_string PTYPE_STRING name_first a n nm v).
  assert (Hs : exists A id_n id_v,
             s = (A, push_back n (mk_property PTYPE_STRING id_n id_v))
             /\ atomize A nm = (id_n, A)
             /\ unatomize A id_n = returns nm
             /\ unatomize A id_v = returns v
             /\ atoms a `prefix_of` atoms A).
  { unfold s, add_string. destruct name_first; cbv zeta.
    - set (a1 := (atomize a nm).2). set (A := (atomize a1 v).2).
      exists A, (atomize a nm).1, (atomize a1 v).1.
      destruct (atomize_grows a1 v nm (atomize_elem a nm)) as [Hin Hid].
      destruct (atomize_known A nm Hin) as [HA Hlook].
      assert (Hidn : (atomize A nm).1 = (atomize a nm).1).
      { fold A in Hid. rewrite Hid. unfold a1. rewrite atomize_again. reflexivity. }
      split; [reflexivity|]. split; [|split; [|split]].
      + transitivity ((atomize A nm).1, (atomize A nm).2);
          [destruct (atomize A nm); reflexivity|rewrite Hidn, HA; reflexivity].
      + unfold unatomize. rewrite <- Hidn, Hlook. reflexivity.
      + exact (proj1 (atomize_unatomize_facts a1 v)).
      + etransitivity; [apply (atomize_prefix a nm)|apply (atomize_prefix a1 v)].
    - set (a1 := (atomize a v).2). set (A := (atomize a1 nm).2).
      exists A, (atomize a1 nm).1, (atomize a v).1.
      destruct (atomize_unatomize_facts a1 nm) as (Hun & Hagain & Hkeep & _).
      split; [reflexivity|]. split; [|split; [|split]].
      + exact Hagain.
      + exact Hun.
      + apply Hkeep. exact (proj1 (atomize_unatomize_facts a v)).
      + etransitivity; [apply (atomize_prefix a v)|apply (atomize_prefix a1 nm)]. }
  destruct Hs as (A & id_n & id_v & -> & Hat & Hn & Hv & Hpre). cbn [fst snd].
  unfold find_string. rewrite Hat. cbn [fst snd].
  rewrite find_property_push_back. cbn [type name value]. rewrite !N.eqb_refl. cbn [andb].
  replace (find_property PTYPE_STRING id_n n) with (@None property).
  - cbn [fst snd value]. rewrite Hv. reflexivity.
  - symmetry. unfold find_property.
    destruct (List.find _ (props n)) as [p|] eqn:Hf; [|reflexivity]. exfalso.
    apply find_some in Hf as [Hp Hf]. apply andb_true_iff in Hf as [Hty Hname].
    apply N.eqb_eq in Hty, Hname. apply list_elem_of_In in Hp.
    apply (Hnone p Hp Hty). rewrite list.Forall_forall in Hwf. specialize (Hwf p Hp).
    destruct (lookup_lt_is_Some_2 (atoms a) (N.to_nat (name p)) ltac:(lia)) as [x Hx].
    rewrite Hx. f_equal.
    pose proof (prefix_lookup_Some _ _ _ _ Hx Hpre) as HA.
    unfold unatomize in Hn. rewrite <- Hname, HA in Hn. congruence.
Qed.

(** A string stored under a name that the node does not hold yet as a
    string is found again under the name, whichever of the name and the
    value was made an atom first. *)
Theorem find_string_after_add_string
    (name_first : bool) (a : archive handle) (n : archive_node handle) (nm v ret : string) :
  Forall (fun p => name p < N.of_nat (length (atoms a))) (props n) ->
  (forall p, p ∈ props n -> type p = PTYPE_STRING ->
             atoms a !! N.to_nat (name p) <> Some nm) ->
  let s := add_string PTYPE_STRING name_first a n nm v in
  find_string PTYPE_STRING s.1 s.2 nm ret = returns (true, v, s.1).
Proof. exact (find_string_add_string_facts name_first a n nm v ret). Qed.

End Strings.

Lemma answer_bind_returns {A B : Type} (a : A) (f : A -> answer B) :
  (returns a ≫= f) = f a.
Proof. reflexivity. Qed.

Lemma read_items_concat {A : Type} (read : list N -> answer (A * list N))
    (enc : A -> list N) (l : list A) (rest : list N) :
  Forall (fun x => forall r, read (enc x ++ r) = returns (x, r)) l ->
  read_items read (length l) (concat (enc <$> l) ++ rest) = returns (l, rest).
Proof.
  induction 1 as [|x l Hx _ IH]; [reflexivity|].
  cbn [length fmap list_fmap concat read_items]. rewrite <- app_assoc, Hx.
  rewrite answer_bind_returns. cbn [fst snd]. rewrite IH. reflexivity.
Qed.

Lemma storable_read (val : N) (rest : list N) :
  storable val = true -> read_unsigned (write_unsigned val ++ rest) = returns (val, rest).
Proof.
  unfold storable. intros H. apply andb_true_iff in H as [Hlt Hw].
  apply N.ltb_lt in Hlt. apply read_unsigned_write_unsigned; assumption.
Qed.

Lemma packed_word (t n : N) :
  t < 8 -> n < 2 ^ 29 ->
  N.lor t (N.shiftl n 3 mod 2 ^ 32) = N.lor t (N.shiftl n 3)
  /\ N.land (N.lor t (N.shiftl n 3)) 7 = t
  /\ N.shiftr (N.lor t (N.shiftl n 3)) 3 = n.
Proof.
  intros Ht Hn. rewrite N.shiftl_mul_pow2.
  assert (Hs : n * 2 ^ 3 < 2 ^ 32).
  { change (2 ^ 32) with (2 ^ 29 * 2 ^ 3). apply N.mul_lt_mono_pos_r; [reflexivity|exact Hn]. }
  rewrite N.mod_small by exact Hs. rewrite lor_disjoint by exact Ht.
  split; [reflexivity|]. split.
  - change 7 with (N.ones 3). rewrite N.land_ones. rewrite N.Div0.mod_add.
    apply N.mod_small, Ht.
  - rewrite N.shiftr_div_pow2. rewrite N.div_add by discriminate.
    rewrite N.div_small by exact Ht. reflexivity.
Qed.

Section Streams.

Context {handle : Type}.
Variable ex0 : handle.

Lemma read_property_write_property (p : property) (rest : list N) :
  storable_property p = true ->
  read_property (write_property p ++ rest) = returns (p, rest).
Proof.
  unfold storable_property. intros H.
  apply andb_true_iff in H as [H Hv]. apply andb_true_iff in H as [H Hw].
  apply andb_true_iff in H as [Ht Hn]. apply N.ltb_lt in Ht, Hn.
  destruct (packed_word (type p) (name p) Ht Hn) as (Hmod & Hland & Hshr).
  unfold read_property, write_property. rewrite Hmod, <- app_assoc.
  rewrite (storable_read _ _ Hw), answer_bind_returns. cbn [fst snd].
  rewrite (storable_read _ _ Hv), answer_bind_returns. cbn [fst snd].
  rewrite Hland, Hshr. destruct p. reflexivity.
Qed.

Lemma storable_length {A : Type} (l : list A) :
  storable (N.of_nat (length l)) = true ->
  size l = N.of_nat (length l) /\ first_items l = l.
Proof.
  unfold storable, first_items, size. intros H. apply andb_true_iff in H as [H _].
  apply N.ltb_lt in H. rewrite N.mod_small by exact H.
  split; [reflexivity|]. rewrite Nat2N.id. apply firstn_all.
Qed.

(** A node read back from its bytes has the properties that were
    written, and the expression that the node read into held before. *)
Lemma read_archive_node_write_archive_node
    (n0 n : archive_node handle) (rest : list N) :
  storable_node n = true ->
  read_archive_node n0 (write_archive_node n ++ rest)
  = returns (mk_archive_node (props n) (has_expression n0) (e n0), rest).
Proof.
  unfold storable_node. intros H. apply andb_true_iff in H as [Hlen Hall].
  unfold read_archive_node, write_archive_node.
  destruct (storable_length _ Hlen) as [-> ->]. rewrite <- app_assoc.
  rewrite (storable_read _ _ Hlen), answer_bind_returns. cbn [fst snd].
  rewrite Nat2N.id, read_items_concat.
  - reflexivity.
  - apply list.Forall_forall. intros p Hp r. apply read_property_write_property.
    rewrite forallb_forall in Hall. apply Hall, list_elem_of_In, Hp.
Qed.

Lemma getline_bytes_of_string (s : string) (rest : list N) :
  storable_string s = true ->
  getline (bytes_of_string s ++ 0 :: rest) = returns (s, rest).
Proof.
  unfold storable_string, bytes_of_string.
  induction s as [|c s IH]; cbn [String.list_ascii_of_string forallb fmap list_fmap app getline].
  - reflexivity.
  - intros H. apply andb_true_iff in H as [Hc Hs]. apply negb_true_iff in Hc.
    rewrite Hc. fold (fmap (M:=list) N_of_ascii). rewrite (IH Hs), answer_bind_returns.
    cbn [fst snd]. rewrite ascii_N_embedding. reflexivity.
Qed.

Lemma read_archived_ex_write (x : archived_ex) (rest : list N) :
  storable (ex_name x) && storable (root x) = true ->
  read_archived_ex ((write_unsigned (ex_name x) ++ write_unsigned (root x)) ++ rest)
  = returns (x, rest).
Proof.
  intros H. apply andb_true_iff in H as [Hn Hr]. unfold read_archived_ex.
  rewrite <- !app_assoc.
  rewrite (storable_read _ _ Hn), answer_bind_returns. cbn [fst snd].
  rewrite (storable_read _ _ Hr), answer_bind_returns. cbn [fst snd].
  destruct x. reflexivity.
Qed.

Lemma read_nodes_write (l0 ns : list (archive_node handle)) (rest : list N) :
  length l0 = length ns -> forallb storable_node ns = true ->
  read_nodes l0 (concat (write_archive_node <$> ns) ++ rest)
  = returns (zip_with (fun n0 n => mk_archive_node (props n) (has_expression n0) (e n0)) l0 ns,
             rest).
Proof.
  revert ns. induction l0 as [|n0 l0 IH]; intros [|n ns] Hlen Hall; try discriminate.
  - reflexivity.
  - cbn [forallb] in Hall. apply andb_true_iff in Hall as [Hn Hns].
    cbn [fmap list_fmap concat read_nodes zip_with]. rewrite <- app_assoc.
    rewrite (read_archive_node_write_archive_node n0 n _ Hn), answer_bind_returns.
    cbn [fst snd]. rewrite IH by (simpl in Hlen; congruence). reflexivity.
Qed.

Lemma length_resize_nodes (l : list (archive_node handle)) (k : nat) :
  length (resize_nodes ex0 l k) = k.
Proof. unfold resize_nodes. rewrite length_app, length_take, length_replicate. lia. Qed.

Variables ARCHIVE_VERSION ARCHIVE_AGE : N.
Variable ToString : N -> string.

(** An archive read back from its bytes has the atoms, the archived
    expressions and the properties of the nodes that were written; the
    nodes read into keep the expressions they held, and the nodes that
    are new hold none. *)
Theorem read_archive_write_archive (ar0 ar : archive handle) (rest : list N) :
  storable_archive ar = true -> storable ARCHIVE_VERSION = true ->
  ARCHIVE_AGE <= ARCHIVE_VERSION ->
  read_archive ex0 ARCHIVE_VERSION ARCHIVE_AGE ToString ar0
    (write_archive ARCHIVE_VERSION ar ++ rest)
  = returns
      (mk_archive (atoms ar) (exprs ar)
         (zip_with (fun n0 n => mk_archive_node (props n) (has_expression n0) (e n0))
            (resize_nodes ex0 (nodes ar0) (length (nodes ar))) (nodes ar)),
       rest).
Proof.
  unfold storable_archive. intros H Hv Hage.
  apply andb_true_iff in H as [H Hnodes]. apply andb_true_iff in H as [H Hnn].
  apply andb_true_iff in H as [H Hexprs]. apply andb_true_iff in H as [H Hne].
  apply andb_true_iff in H as [Hna Hatoms].
  unfold write_archive. cbn [app read_archive N.eqb Pos.eqb negb orb].
  rewrite <- !app_assoc.
  rewrite (storable_read _ _ Hv), answer_bind_returns. cbn [fst snd].
  replace (ARCHIVE_VERSION <? ARCHIVE_VERSION) with false
    by (symmetry; apply N.ltb_irrefl).
  assert (Hlt : ARCHIVE_VERSION < 2 ^ 32).
  { unfold storable in Hv. apply andb_true_iff in Hv as [Hv _]. apply N.ltb_lt, Hv. }
  replace ((ARCHIVE_VERSION + 2 ^ 32 - ARCHIVE_AGE) mod 2 ^ 32)
    with (ARCHIVE_VERSION - ARCHIVE_AGE).
  2:{ replace (ARCHIVE_VERSION + 2 ^ 32 - ARCHIVE_AGE)
        with (ARCHIVE_VERSION - ARCHIVE_AGE + 1 * 2 ^ 32) by lia.
      rewrite N.Div0.mod_add. symmetry. apply N.mod_small. lia. }
  cbv zeta.
  replace (ARCHIVE_VERSION <? ARCHIVE_VERSION - ARCHIVE_AGE) with false
    by (symmetry; apply N.ltb_ge; lia).
  cbn [orb].
  destruct (storable_length _ Hna) as [-> ->].
  destruct (storable_length _ Hne) as [-> ->].
  destruct (storable_length _ Hnn) as [-> ->].
  rewrite (storable_read _ _ Hna), answer_bind_returns. cbn [fst snd]. rewrite Nat2N.id.
  rewrite (read_items_concat getline (fun s => bytes_of_string s ++ [0])).
  2:{ apply list.Forall_forall. intros s Hs r. rewrite <- app_assoc.
      apply getline_bytes_of_string. rewrite forallb_forall in Hatoms.
      apply Hatoms, list_elem_of_In, Hs. }
  rewrite answer_bind_returns. cbn [fst snd].
  rewrite (storable_read _ _ Hne), answer_bind_returns. cbn [fst snd]. rewrite Nat2N.id.
  rewrite (read_items_concat read_archived_ex
             (fun x => write_unsigned (ex_name x) ++ write_unsigned (root x))).
  2:{ apply list.Forall_forall. intros x Hx r. apply read_archived_ex_write.
      rewrite forallb_forall in Hexprs. apply Hexprs, list_elem_of_In, Hx. }
  rewrite answer_bind_returns. cbn [fst snd].
  rewrite (storable_read _ _ Hnn), answer_bind_returns. cbn [fst snd]. rewrite Nat2N.id.
  rewrite read_nodes_write; [reflexivity|apply length_resize_nodes|exact Hnodes].
Qed.

End Streams.

Lemma find_app' {A : Type} (f : A -> bool) (l k : list A) :
  List.find f (l ++ k) = match List.find f l with Some x => Some x | None => List.find f k end.
Proof. induction l as [|x r IH]; simpl; [reflexivity|]. destruct (f x); auto. Qed.

Section NodeStore.

Context {handle : Type}.
Variable bp : handle -> N.

Lemma add_node_search_found (l : list (archive_node handle)) (n : archive_node handle)
    (id0 id : N) :
  add_node_search bp l n id0 = inl id ->
  exists k m, id = id0 + N.of_nat k /\ l !! k = Some m /\ has_same_ex_as bp m n = true.
Proof.
  revert id0. induction l as [|x r IH]; intros id0; simpl; [discriminate|].
  destruct (has_same_ex_as bp x n) eqn:E.
  - intros [= <-]. exists 0%nat, x. simpl. repeat split; [lia|exact E].
  - intros H. destruct (IH _ H) as (k & m & -> & Hk & Hm).
    exists (S k), m. repeat split; [lia|exact Hk|exact Hm].
Qed.

Lemma add_node_search_missing (l : list (archive_node handle)) (n : archive_node handle)
    (id0 id : N) :
  add_node_search bp l n id0 = inr id -> id = id0 + N.of_nat (length l).
Proof.
  revert id0. induction l as [|x r IH]; intros id0; simpl.
  - intros [= <-]. lia.
  - destruct (has_same_ex_as bp x n); [discriminate|]. intros H. rewrite (IH _ H). lia.
Qed.

Lemma add_node_search_app (l k : list (archive_node handle)) (n : archive_node handle)
    (id0 : N) :
  add_node_search bp (l ++ k) n id0
  = match add_node_search bp l n id0 with
    | inl id => inl id
    | inr id => add_node_search bp k n id
    end.
Proof.
  revert id0. induction l as [|x r IH]; intros id0; simpl; [reflexivity|].
  destruct (has_same_ex_as bp x n); [reflexivity|apply IH].
Qed.

Lemma add_node_get_node_facts (a : archive handle) (n : archive_node handle) :
  let id := (add_node bp a n).1 in
  let a' := (add_node bp a n).2 in
  (exists m, get_node a' id = returns m
             /\ (has_expression n = true -> has_same_ex_as bp m n = true)
             /\ (has_expression n = false -> m = n /\ id = N.of_nat (length (nodes a))))
  /\ (forall id0 m0, get_node a id0 = returns m0 -> get_node a' id0 = returns m0)
  /\ (has_expression n = true -> add_node bp a' n = (id, a'))
  /\ atoms a' = atoms a /\ exprs a' = exprs a.
Proof.
  cbv zeta. unfold add_node, get_node.
  destruct (add_node_search bp (nodes a) n 0) as [id|id] eqn:H; cbn [fst snd atoms exprs nodes].
  - destruct (add_node_search_found _ _ _ _ H) as (k & m & -> & Hk & Hm).
    rewrite N.add_0_l, Nat2N.id, Hk.
    split; [|split; [|split; [|split]]]; auto.
    + exists m. split; [reflexivity|]. split; [auto|]. intros Hn.
      unfold has_same_ex_as in Hm. rewrite Hn, orb_true_r in Hm. discriminate.
    + intros _. rewrite H. reflexivity.
  - pose proof (add_node_search_missing _ _ _ _ H) as ->.
    rewrite N.add_0_l, Nat2N.id.
    split; [|split; [|split; [|split]]]; auto.
    + exists n. rewrite lookup_app_r by lia. rewrite Nat.sub_diag.
      split; [reflexivity|]. split; [|auto].
      intros Hn. unfold has_same_ex_as. rewrite Hn. cbn. apply N.eqb_refl.
    + intros id0 m0. destruct (nodes a !! N.to_nat id0) eqn:E; [|discriminate].
      rewrite (lookup_app_l_Some _ _ _ _ E). auto.
    + intros Hn. rewrite add_node_search_app, H. cbn [add_node_search].
      unfold has_same_ex_as. rewrite Hn. cbn. rewrite N.eqb_refl. reflexivity.
Qed.

(** [add_node] answers with a number under which [get_node] finds a node
    of the same expression; an expression that is in the archive is not
    stored a second time, the nodes there were keep their numbers, and
    the atoms and the archived expressions are untouched. *)
Theorem add_node_and_get_node (a : archive handle) (n : archive_node handle) :
  let id := (add_node bp a n).1 in
  let a' := (add_node bp a n).2 in
  (exists m, get_node a' id = returns m
             /\ (has_expression n = true -> has_same_ex_as bp m n = true)
             /\ (has_expression n = false -> m = n /\ id = N.of_nat (length (nodes a))))
  /\ (forall id0 m0, get_node a id0 = returns m0 -> get_node a' id0 = returns m0)
  /\ (has_expression n = true -> add_node bp a' n = (id, a'))
  /\ atoms a' = atoms a /\ exprs a' = exprs a.
Proof. exact (add_node_get_node_facts a n). Qed.

End NodeStore.

Section Cache.

Context {handle : Type}.
Variable PTYPE_STRING : N.
Variable ex0 : handle.
Variable find_unarch_func :
  string -> archive handle -> archive_node handle -> answer (handle * archive handle).

Hypothesis find_unarch_func_keeps_the_nodes :
  forall cls a n h a', find_unarch_func cls a n = returns (h, a') ->
                       length (nodes a') = length (nodes a).

(** An expression taken out of a node stays in the node: a second
    [unarchive] answers with the same expression and changes nothing,
    until [forget] empties every node. *)
Theorem unarchive_caches_the_expression (a a' : archive handle) (id : N) (h : handle) :
  unarchive_at PTYPE_STRING find_unarch_func a id = returns (h, a') ->
  unarchive_at PTYPE_STRING find_unarch_func a' id = returns (h, a')
  /\ (exists m, get_node a' id = returns m /\ has_expression m = true /\ e m = h)
  /\ Forall (fun m => has_expression m = false) (nodes (forget ex0 a')).
Proof.
  unfold unarchive_at, get_node. intros H.
  assert (Hforget : Forall (fun m => has_expression m = false) (nodes (forget ex0 a'))).
  { unfold forget. cbn [nodes]. apply Forall_fmap, list.Forall_forall. reflexivity. }
  destruct (nodes a !! N.to_nat id) as [n|] eqn:Hn; [|discriminate].
  unfold unarchive in H. destruct (has_expression n) eqn:Hc.
  - injection H as <- <-. rewrite Hn. unfold unarchive. rewrite Hc.
    split; [reflexivity|]. split; [exists n; auto|exact Hforget].
  - unfold find_string in H.
    set (p := atomize a "class") in *.
    assert (Hp : nodes p.2 = nodes a) by apply (atomize_unatomize_facts a "class").
    destruct (find_property PTYPE_STRING p.1 n) as [i|].
    + destruct (unatomize p.2 (value i)) as [cls|]; [|discriminate].
      rewrite !answer_bind_returns in H. cbn [fst snd negb] in H.
      destruct (find_unarch_func cls p.2 n) as [[h1 a1]|] eqn:Hf; [|discriminate].
      rewrite answer_bind_returns in H. cbn [fst snd] in H. injection H as <- <-.
      apply find_unarch_func_keeps_the_nodes in Hf. cbn [nodes].
      rewrite list_lookup_insert_eq
        by (rewrite Hf, Hp; eapply lookup_lt_Some, Hn).
      unfold unarchive. cbn [has_expression e].
      split; [reflexivity|]. split; [eexists; split; [reflexivity|auto]|exact Hforget].
    + rewrite answer_bind_returns in H. cbn [fst snd negb] in H. discriminate.
Qed.

End Cache.

Section ArchiveEx.

Context {handle : Type}.
Variable PTYPE_STRING : N.
Variable bp : handle -> N.
Variable bp_archive :
  handle -> archive handle -> archive_node handle -> archive handle * archive_node handle.
Variable find_unarch_func :
  string -> archive handle -> archive_node handle -> answer (handle * archive handle).

Hypothesis bp_archive_fills_the_node :
  forall h a n, has_expression (bp_archive h a n).2 = has_expression n
                /\ e (bp_archive h a n).2 = e n.
Hypothesis bp_archive_keeps_the_expressions :
  forall h a n, exprs (bp_archive h a n).1 = exprs a.
Hypothesis bp_archive_keeps_the_atoms :
  forall h a n, atoms a `prefix_of` atoms (bp_archive h a n).1.

(** An expression archived under a name that is not in use is found
    under this name as the same object, and the archive holds one
    expression more. *)
Theorem archive_ex_then_unarchive_ex (ar : archive handle) (expr : handle) (nm : string) :
  (forall x, x ∈ exprs ar ->
             ex_name x < N.of_nat (length (atoms ar))
             /\ atoms ar !! N.to_nat (ex_name x) <> Some nm) ->
  let ar' := archive_ex bp bp_archive ar expr nm in
  exists h,
    unarchive_ex_by_name PTYPE_STRING find_unarch_func ar' nm = returns (h, ar')
    /\ bp h = bp expr
    /\ (N.of_nat (length (exprs ar)) + 1 < 2 ^ 32 ->
        num_expressions ar' = num_expressions ar + 1).
Proof.
  intros Hfresh. cbv zeta. unfold archive_ex, archive_node_of.
  set (c := bp_archive expr ar (mk_archive_node [] true expr)).
  destruct (bp_archive_fills_the_node expr ar (mk_archive_node [] true expr)) as [Hhas He].
  fold c in Hhas, He. cbn [has_expression e] in Hhas, He.
  pose proof (bp_archive_keeps_the_expressions expr ar (mk_archive_node [] true expr)) as Hex.
  pose proof (bp_archive_keeps_the_atoms expr ar (mk_archive_node [] true expr)) as Hat.
  fold c in Hex, Hat.
  destruct (add_node_get_node_facts bp c.1 c.2) as ((m & Hm & Hsame & _) & _ & _ & Hat2 & Hex2).
  set (i := add_node bp c.1 c.2) in *.
  specialize (Hsame Hhas).
  destruct (atomize_unatomize_facts i.2 nm) as (Hun & Hagain & _ & _ & _ & Hex3 & Hnd3).
  pose proof (atomize_prefix i.2 nm) as Hat3.
  set (p := atomize i.2 nm) in *.
  set (ar' := mk_archive (atoms p.2) (exprs p.2 ++ [mk_archived_ex p.1 i.1]) (nodes p.2)).
  assert (Hatomize : atomize ar' nm = (p.1, ar')).
  { destruct (atomize_search_elem (atoms p.2) nm 0 (atomize_elem i.2 nm)) as [id Hid].
    change (atomize ar' nm)
      with (match atomize_search (atoms p.2) nm 0 with
            | inl id => (id, ar')
            | inr id => (id, mk_archive (atoms ar' ++ [nm]) (exprs ar') (nodes ar'))
            end).
    unfold atomize in Hagain. rewrite Hid in Hagain |- *.
    injection Hagain as ->. reflexivity. }
  assert (Hm' : has_expression m = true /\ bp (e m) = bp expr).
  { unfold has_same_ex_as in Hsame. destruct (has_expression m); [|discriminate].
    rewrite Hhas in Hsame. cbn in Hsame. apply N.eqb_eq in Hsame. rewrite He in Hsame. auto. }
  exists (e m). split; [|split; [apply Hm'|]].
  - unfold unarchive_ex_by_name. rewrite Hatomize. cbn [fst snd]. unfold ar' at 1. cbn [exprs].
    rewrite find_app'.
    replace (List.find (fun x => ex_name x =? p.1) (exprs p.2)) with (@None archived_ex).
    + cbn [List.find ex_name root]. rewrite N.eqb_refl.
      unfold unarchive_at. unfold ar' at 1. cbn [nodes root]. rewrite Hnd3.
      unfold get_node in Hm. destruct (nodes i.2 !! N.to_nat i.1) as [m'|]; [|discriminate].
      injection Hm as Heq. rewrite Heq. unfold unarchive. rewrite (proj1 Hm'). reflexivity.
    + symmetry. destruct (List.find _ (exprs p.2)) as [x|] eqn:Hf; [|reflexivity]. exfalso.
      apply find_some in Hf as [Hx Hf]. apply N.eqb_eq in Hf.
      rewrite Hex3, Hex2, Hex in Hx. apply list_elem_of_In in Hx.
      destruct (Hfresh x Hx) as [Hlt Hne].
      destruct (lookup_lt_is_Some_2 (atoms ar) (N.to_nat (ex_name x)) ltac:(lia)) as [y Hy].
      apply Hne. rewrite Hy. f_equal.
      assert (Hpre : atoms ar `prefix_of` atoms p.2).
      { etransitivity; [exact Hat|]. rewrite <- Hat2. exact Hat3. }
      pose proof (prefix_lookup_Some _ _ _ _ Hy Hpre) as HA.
      unfold unatomize in Hun. rewrite <- Hf, HA in Hun. congruence.
  - intros Hsmall. unfold num_expressions, size, ar'. cbn [exprs].
    rewrite length_app, Hex3, Hex2, Hex. cbn [length].
    rewrite !N.mod_small by lia. lia.
Qed.

End ArchiveEx.

Section ClassArchiving.

Context {handle : Type}.
Variables PTYPE_BOOL PTYPE_UNSIGNED : N.
Variable inherited_archive :
  archive handle -> archive_node handle -> archive handle * archive_node handle.

Lemma find_property_absent (ty id : N) (nm : string) (a A : archive handle)
    (n : archive_node handle) :
  names_in_range a n -> no_property ty nm a n ->
  atoms a `prefix_of` atoms A -> atoms A !! N.to_nat id = Some nm ->
  find_property ty id n = None.
Proof.
  intros Hwf Hno Hpre Hid. unfold find_property.
  destruct (List.find _ (props n)) as [p|] eqn:Hf; [|reflexivity]. exfalso.
  apply find_some in Hf as [Hp Hf]. apply andb_true_iff in Hf as [Hty Hname].
  apply N.eqb_eq in Hty, Hname. apply list_elem_of_In in Hp.
  apply (Hno p Hp Hty). unfold names_in_range in Hwf. rewrite list.Forall_forall in Hwf.
  specialize (Hwf p Hp).
  destruct (lookup_lt_is_Some_2 (atoms a) (N.to_nat (name p)) ltac:(lia)) as [x Hx].
  rewrite Hx. f_equal. pose proof (prefix_lookup_Some _ _ _ _ Hx Hpre) as HA.
  rewrite Hname in HA. congruence.
Qed.

Lemma atomize_lookup (a : archive handle) (s : string) :
  atoms (atomize a s).2 !! N.to_nat (atomize a s).1 = Some s.
Proof.
  destruct (atomize_unatomize_facts a s) as (H & _). unfold unatomize in H.
  destruct (atoms (atomize a s).2 !! N.to_nat (atomize a s).1); [congruence|discriminate].
Qed.

Lemma pair_eta {A B : Type} (p : A * B) : p = (p.1, p.2).
Proof. destruct p. reflexivity. Qed.

(** What [archive] of the classes clifford, minkmetric and tensepsilon
    stores, the constructors from a node read back: the label, the
    signature, and the two flags of the epsilon tensor. *)
Theorem archived_members_come_back
    (a : archive handle) (n : archive_node handle)
    (representation_label rl : N) (minkowski pos_sig m0 p0 : bool) :
  let i := inherited_archive a n in
  names_in_range i.1 i.2 ->
  no_property PTYPE_UNSIGNED "label" i.1 i.2 ->
  no_property PTYPE_BOOL "minkowski" i.1 i.2 ->
  no_property PTYPE_BOOL "pos_sig" i.1 i.2 ->
  representation_label < 256 ->
  let c := clifford_archive PTYPE_UNSIGNED inherited_archive a n representation_label in
  let g := minkmetric_archive PTYPE_BOOL inherited_archive a n pos_sig in
  let t := tensepsilon_archive PTYPE_BOOL inherited_archive a n minkowski pos_sig in
  clifford_unarchive PTYPE_UNSIGNED c.1 c.2 rl = (representation_label, c.1)
  /\ minkmetric_unarchive PTYPE_BOOL g.1 g.2 p0 = (pos_sig, g.1)
  /\ tensepsilon_unarchive PTYPE_BOOL t.1 t.2 m0 p0 = (minkowski, pos_sig, t.1).
Proof.
  cbv zeta. set (i := inherited_archive a n). intros Hwf Hlabel Hmink Hpos Hrl.
  split; [|split].
  - unfold clifford_unarchive, clifford_archive. fold i.
    unfold add_unsigned, find_unsigned. cbn [fst snd].
    rewrite atomize_again, find_property_push_back. cbn [fst snd type name value].
    rewrite (find_property_absent _ _ "label" i.1 (atomize i.1 "label").2 i.2 Hwf Hlabel
               (atomize_prefix _ _) (atomize_lookup _ _)).
    rewrite !N.eqb_refl. cbn [andb fst snd value]. rewrite N.mod_small by exact Hrl.
    reflexivity.
  - unfold minkmetric_unarchive, minkmetric_archive. fold i.
    unfold add_bool, find_bool. cbn [fst snd].
    rewrite atomize_again, find_property_push_back. cbn [fst snd type name value].
    rewrite (find_property_absent _ _ "pos_sig" i.1 (atomize i.1 "pos_sig").2 i.2 Hwf Hpos
               (atomize_prefix _ _) (atomize_lookup _ _)).
    rewrite !N.eqb_refl. cbn [andb fst snd value]. destruct pos_sig; reflexivity.
  - unfold tensepsilon_unarchive, tensepsilon_archive. fold i.
    unfold add_bool. cbn [fst snd].
    set (a1 := (atomize i.1 "minkowski").2). set (idm := (atomize i.1 "minkowski").1).
    set (a2 := (atomize a1 "pos_sig").2). set (idp := (atomize a1 "pos_sig").1).
    assert (Hm_in : "minkowski" ∈ atoms a1) by apply atomize_elem.
    destruct (atomize_grows a1 "pos_sig" "minkowski" Hm_in) as [Hm_in2 Hm_id].
    fold a2 in Hm_in2, Hm_id.
    destruct (atomize_known a2 "minkowski" Hm_in2) as [Hm_a2 Hm_look].
    assert (Hidm : (atomize a2 "minkowski").1 = idm).
    { rewrite Hm_id. unfold a1, idm. rewrite atomize_again. reflexivity. }
    assert (Hatm : atomize a2 "minkowski" = (idm, a2)).
    { rewrite (pair_eta (atomize a2 "minkowski")), Hidm, Hm_a2. reflexivity. }
    assert (Hatp : atomize a2 "pos_sig" = (idp, a2)).
    { unfold a2, idp. rewrite atomize_again. apply pair_eta. }
    assert (Hpre1 : atoms i.1 `prefix_of` atoms a1) by apply atomize_prefix.
    assert (Hpre2 : atoms i.1 `prefix_of` atoms a2).
    { etransitivity; [exact Hpre1|apply atomize_prefix]. }
    assert (Hlookp : atoms a2 !! N.to_nat idp = Some "pos_sig") by apply atomize_lookup.
    assert (Hlookm : atoms a2 !! N.to_nat idm = Some "minkowski").
    { rewrite <- Hidm. exact Hm_look. }
    assert (Hne : idm <> idp).
    { intros E. rewrite E in Hlookm. rewrite Hlookp in Hlookm. discriminate. }
    unfold find_bool. rewrite Hatm. cbn [fst snd].
    rewrite !find_property_push_back. cbn [type name value].
    rewrite (find_property_absent _ _ "minkowski" i.1 a2 i.2 Hwf Hmink Hpre2 Hlookm).
    rewrite !N.eqb_refl. cbn [andb fst snd value].
    rewrite Hatp. cbn [fst snd].
    rewrite ?find_property_push_back. cbn [type name value].
    rewrite (find_property_absent _ _ "pos_sig" i.1 a2 i.2 Hwf Hpos Hpre2 Hlookp).
    rewrite !N.eqb_refl. cbn [andb].
    replace (idm =? idp) with false by (symmetry; apply N.eqb_neq, Hne).
    cbn [fst snd value]. destruct minkowski, pos_sig; reflexivity.
Qed.

End ClassArchiving.

End ArchiveFacts.

(** ** Symbols *)

Section SymbolsAndCopies.

Import Symbol.
Local Open Scope N_scope.

Section SymbolFacts.

Variable basic : Type.
Variables _ex0 _ex1 : basic.
Variables evaluated expanded : N.
Variable max_recursion_level : Z.
Variable hold : symbol -> symbol.
Variable ex_eval : ex basic -> Z -> memory basic -> Archive.answer (ex basic).
Variable copied_flags : N -> N.

Lemma construct_serial (l : list string) (m : memory basic) (i : nat) (s : symbol) :
  next_serial m < 2 ^ 32 ->
  (construct _ex0 evaluated expanded l m).1 !! i = Some s ->
  serial s = (next_serial m + N.of_nat i) mod 2 ^ 32.
Proof.
  revert m i. induction l as [|nm l IH]; intros m i Hm; [discriminate|].
  destruct i as [|i]; cbn [construct fst lookup list_lookup].
  - intros [= <-]. cbn. rewrite N.add_0_r, N.mod_small; auto.
  - intros H. apply IH in H.
    + rewrite H. cbn [symbol_named new_assigned_ex_info take_serial snd fst next_serial].
      rewrite N.Div0.add_mod_idemp_l. f_equal. lia.
    + cbn [symbol_named new_assigned_ex_info take_serial snd fst next_serial].
      apply N.mod_lt. discriminate.
Qed.

Lemma construct_length (l : list string) (m : memory basic) :
  length (construct _ex0 evaluated expanded l m).1 = length l.
Proof. revert m. induction l as [|nm l IH]; intros m; cbn; [reflexivity|]. now rewrite IH. Qed.

Lemma serials_differ (n : N) (i j : nat) :
  N.of_nat i < 2 ^ 32 -> N.of_nat j < 2 ^ 32 -> i <> j ->
  (n + N.of_nat i) mod 2 ^ 32 <> (n + N.of_nat j) mod 2 ^ 32.
Proof.
  intros Hi Hj Hne Heq.
  assert (H : forall a b, a < b -> b < 2 ^ 32 -> (n + a) mod 2 ^ 32 <> (n + b) mod 2 ^ 32).
  { intros a b Hab Hb E.
    pose proof (N.div_mod (n + a) (2 ^ 32) ltac:(discriminate)) as Da.
    pose proof (N.div_mod (n + b) (2 ^ 32) ltac:(discriminate)) as Db.
    rewrite E in Da.
    assert (Hle : (n + a) / 2 ^ 32 <= (n + b) / 2 ^ 32) by (apply N.Div0.div_le_mono; lia).
    remember ((n + a) / 2 ^ 32) as qa. remember ((n + b) / 2 ^ 32) as qb.
    remember ((n + b) mod 2 ^ 32) as rb.
    assert (Hq : qb = qa \/ qa + 1 <= qb) by lia.
    destruct Hq as [Hq|Hq]; [subst qb; lia|]. nia. }
  destruct (Nat.lt_total i j) as [Hlt|[->|Hlt]]; [|congruence|].
  - apply (H (N.of_nat i) (N.of_nat j)); [lia|assumption|assumption].
  - apply (H (N.of_nat j) (N.of_nat i)); [lia|assumption|congruence].
Qed.

(** Two symbols of a run of fewer than 2^32 constructions are different
    symbols, whatever their names: they compare unequal, the derivative
    of one by the other is 0 and the substitution of one leaves the
    other; while the counter has not wrapped, the earlier one is the
    smaller. *)
Theorem symbols_of_separate_constructions_differ
    (l : list string) (m : memory basic) (i j : nat) (s t : symbol) (r : ex basic) :
  next_serial m < 2 ^ 32 ->
  N.of_nat (length l) <= 2 ^ 32 ->
  (construct _ex0 evaluated expanded l m).1 !! i = Some s ->
  (construct _ex0 evaluated expanded l m).1 !! j = Some t ->
  i <> j ->
  compare_same_type s t <> 0%Z
  /\ is_equal_same_type s t = false
  /\ derivative _ex0 _ex1 s t = of_basic _ex0
  /\ subs s [of_symbol t] [r] = Archive.returns (of_symbol s)
  /\ (next_serial m + N.of_nat (length l) <= 2 ^ 32 -> (i < j)%nat ->
      compare_same_type s t = (-1)%Z).
Proof.
  intros Hm Hlen Hs Ht Hne.
  pose proof (lookup_lt_Some _ _ _ Hs) as Hi. pose proof (lookup_lt_Some _ _ _ Ht) as Hj.
  rewrite construct_length in Hi, Hj.
  apply construct_serial in Hs; [|assumption]. apply construct_serial in Ht; [|assumption].
  assert (Hser : serial s <> serial t).
  { rewrite Hs, Ht. apply serials_differ; lia. }
  assert (Hcmp : compare_same_type s t <> 0%Z).
  { unfold compare_same_type. destruct (serial s =? serial t) eqn:E.
    - apply N.eqb_eq in E. contradiction.
    - destruct (serial s <? serial t); discriminate. }
  split; [exact Hcmp|]. split; [apply N.eqb_neq, Hser|].
  split; [|split].
  - unfold derivative. destruct (compare_same_type s t =? 0)%Z eqn:E; [|reflexivity].
    apply Z.eqb_eq in E. contradiction.
  - unfold subs. cbn [subs_loop]. destruct (compare_same_type s t =? 0)%Z eqn:E; [|reflexivity].
    apply Z.eqb_eq in E. contradiction.
  - intros Hfit Hlt. unfold compare_same_type.
    rewrite Hs, Ht, !N.mod_small by lia.
    replace (_ =? _) with false by (symmetry; apply N.eqb_neq; lia).
    replace (_ <? _) with true by (symmetry; apply N.ltb_lt; lia). reflexivity.
Qed.

Lemma info_at_set_info (m : memory basic) (p : nat) (i : assigned_ex_info basic) :
  (p < length (heap m))%nat ->
  info_at (set_info m p (Some i)) p = Archive.returns i.
Proof.
  intros Hp. unfold info_at, set_info. cbn [heap].
  now rewrite list_lookup_insert_eq.
Qed.

Lemma info_at_returns (m : memory basic) (p : nat) (i : assigned_ex_info basic) :
  info_at m p = Archive.returns i -> heap m !! p = Some (Some i).
Proof.
  unfold info_at. destruct (heap m !! p) as [[x|]|]; intros [=]. now subst.
Qed.

(** A copy of a symbol is the same symbol and shares its assignment: a
    value assigned to the copy is what the original evaluates to, and
    after [unassign] on the copy the original evaluates to itself. *)
Theorem copies_share_the_assignment
    (s c c' : symbol) (value : ex basic) (m m1 m2 : memory basic) :
  max_recursion_level <> (-1)%Z ->
  copy copied_flags s m = Archive.returns (c, m1) ->
  assign evaluated expanded c value m1 = Archive.returns (c', m2) ->
  compare_same_type s c = 0%Z
  /\ eval evaluated max_recursion_level hold ex_eval s 1 m2
     = Archive.returns (value, setflag s evaluated)
  /\ forall c'' m3,
       unassign _ex0 evaluated expanded c' m2 = Archive.returns (c'', m3) ->
       eval evaluated max_recursion_level hold ex_eval s 1 m3
       = Archive.returns (of_symbol (hold s), hold s).
Proof.
  intros Hlevel Hcopy Hassign.
  unfold copy in Hcopy. destruct (info_at m (asexinfop s)) as [i|] eqn:Hi; [|discriminate].
  cbn in Hcopy. injection Hcopy as <- <-.
  pose proof (info_at_returns _ _ _ Hi) as Hh. pose proof (lookup_lt_Some _ _ _ Hh) as Hp.
  unfold assign in Hassign. cbn [asexinfop] in Hassign.
  rewrite info_at_set_info in Hassign by assumption. cbn in Hassign.
  injection Hassign as <- <-.
  assert (Hl : (1 =? - max_recursion_level)%Z = false) by (apply Z.eqb_neq; lia).
  split; [|split].
  - unfold compare_same_type. cbn [serial]. now rewrite N.eqb_refl.
  - unfold eval. rewrite Hl.
    rewrite info_at_set_info by (cbn [set_info heap]; now rewrite length_insert).
    reflexivity.
  - intros c'' m3. unfold unassign. cbn [clearflag asexinfop].
    rewrite info_at_set_info by (cbn [set_info heap]; now rewrite length_insert).
    cbn. intros [= <- <-]. unfold eval. rewrite Hl.
    rewrite info_at_set_info by (cbn [set_info heap]; now rewrite !length_insert).
    reflexivity.
Qed.

(** The assignment of a symbol is counted: to destroy a copy gives the
    heap as it was before the copy, to destroy the original leaves the
    assignment to the copy, and with the last of them it is deleted. *)
Theorem the_assignment_lives_as_long_as_a_copy
    (initname : string) (m : memory basic) :
  let s := symbol_named _ex0 evaluated expanded initname m in
  exists c m2 m3 m4,
    copy copied_flags s.1 s.2 = Archive.returns (c, m2)
    /\ destroy c m2 = Archive.returns s.2
    /\ destroy s.1 m2 = Archive.returns m3
    /\ info_at m3 (asexinfop c)
       = Archive.returns (mk_assigned_ex_info false (of_basic _ex0) 1)
    /\ destroy c m3 = Archive.returns m4
    /\ heap m4 !! asexinfop c = Some None.
Proof.
  cbv zeta. unfold symbol_named, new_assigned_ex_info, take_serial. cbn [fst snd heap next_serial].
  set (h := heap m). set (i0 := mk_assigned_ex_info false (of_basic _ex0) 1).
  assert (Hl : (h ++ [Some i0]) !! length h = Some (Some i0)).
  { rewrite lookup_app_r by lia. now rewrite Nat.sub_diag. }
  assert (Hlen : (length h < length (h ++ [Some i0]))%nat) by (rewrite length_app; cbn; lia).
  set (s := mk_symbol initname (next_serial m) (length h) (N.lor 0 (N.lor evaluated expanded))).
  set (c := mk_symbol initname (next_serial m) (length h)
              (copied_flags (N.lor 0 (N.lor evaluated expanded)))).
  set (i1 := mk_assigned_ex_info false (of_basic _ex0) 2).
  set (m1 := mk_memory ((next_serial m + 1) mod 2 ^ 32) (h ++ [Some i0])).
  set (m2 := set_info m1 (length h) (Some i1)).
  set (m3 := set_info m2 (length h) (Some i0)).
  set (m4 := set_info m3 (length h) None).
  assert (H1 : info_at m1 (length h) = Archive.returns i0).
  { unfold info_at. cbn [m1 heap]. now rewrite Hl. }
  assert (H2 : info_at m2 (length h) = Archive.returns i1).
  { apply info_at_set_info. exact Hlen. }
  assert (H3 : info_at m3 (length h) = Archive.returns i0).
  { apply info_at_set_info. cbn [m2 set_info heap]. now rewrite length_insert. }
  exists c, m2, m3, m4. split; [|split; [|split; [|split; [|split]]]].
  - unfold copy. cbn [asexinfop s]. rewrite H1. reflexivity.
  - unfold destroy. cbn [asexinfop c]. rewrite H2. cbn.
    unfold set_info. cbn [heap m2 m1 next_serial set_info]. f_equal. f_equal.
    rewrite list_insert_insert_eq. apply list_insert_id. exact Hl.
  - unfold destroy. cbn [asexinfop s]. rewrite H2. reflexivity.
  - exact H3.
  - unfold destroy. cbn [asexinfop c]. rewrite H3. reflexivity.
  - cbn [m4 set_info heap asexinfop c]. apply list_lookup_insert_eq.
    cbn [m3 m2 set_info heap]. now rewrite !length_insert.
Qed.

End SymbolFacts.

End SymbolsAndCopies.

Section SymbolArchivingFacts.

Import Archive.
Local Open Scope N_scope.

Context {handle basic : Type}.
Variable _ex0 : basic.
Variables evaluated dynallocated : N.
Variable ToString : N -> string.
Variable PTYPE_STRING : N.
Variable inherited_archive :
  archive handle -> archive_node handle -> archive handle * archive_node handle.

(** [unarchive] of an archived symbol takes a new serial number and a
    new [assigned_ex_info] in each case; it answers with the first
    symbol of that name in [sym_lst] when there is one, and otherwise
    with a new symbol of that name. *)
Theorem an_archived_symbol_comes_back_by_name
    (name_first : bool) (a : archive handle) (n : archive_node handle) (s : Symbol.symbol)
    (sym_lst : list (Symbol.ex basic)) (m : Symbol.memory basic) :
  let i := inherited_archive a n in
  names_in_range i.1 i.2 ->
  no_property PTYPE_STRING "name" i.1 i.2 ->
  let p := symbol_archive PTYPE_STRING inherited_archive name_first a n s in
  exists r m',
    symbol_unarchive _ex0 evaluated dynallocated ToString PTYPE_STRING p.1 p.2 sym_lst m
    = returns (r, m', p.1)
    /\ Symbol.next_serial m' = (Symbol.next_serial m + 1) mod 2 ^ 32
    /\ length (Symbol.heap m') = S (length (Symbol.heap m))
    /\ (forall l1 t l2,
          sym_lst = l1 ++ Symbol.of_symbol t :: l2 ->
          Symbol.name t = Symbol.name s ->
          Forall (fun x => is_symbol_named (Symbol.name s) x = false) l1 ->
          r = Symbol.of_symbol t)
    /\ (Forall (fun x => is_symbol_named (Symbol.name s) x = false) sym_lst ->
        exists t, r = Symbol.of_symbol t
                  /\ Symbol.name t = Symbol.name s
                  /\ Symbol.serial t = Symbol.next_serial m
                  /\ Symbol.asexinfop t = length (Symbol.heap m)).
Proof.
  cbv zeta. intros Hwf Hnone.
  pose proof (find_string_add_string_facts PTYPE_STRING name_first _ _ "name"
                (Symbol.name s) EmptyString Hwf Hnone) as Hf.
  cbv zeta in Hf. unfold symbol_unarchive, symbol_from_node, symbol_archive.
  rewrite Hf. cbn.
  destruct (List.find (is_symbol_named (Symbol.name s)) sym_lst) as [x|] eqn:Hfind.
  - exists x. eexists. split; [reflexivity|]. cbn.
    split; [reflexivity|]. split; [rewrite length_app; cbn; lia|]. split.
    + intros l1 t l2 -> Ht Hl1. rewrite find_app' in Hfind.
      replace (List.find _ l1) with (@None (Symbol.ex basic)) in Hfind.
      * cbn in Hfind. rewrite bool_decide_true in Hfind by exact Ht. congruence.
      * symmetry. clear Hfind. induction Hl1 as [|y l Hy _ IH]; [reflexivity|].
        cbn. now rewrite Hy.
    + intros Hall. apply find_some in Hfind as [Hin Hx].
      rewrite list.Forall_forall in Hall. apply list_elem_of_In in Hin.
      rewrite (Hall _ Hin) in Hx. discriminate.
  - eexists. eexists. split; [reflexivity|]. cbn.
    split; [reflexivity|]. split; [rewrite length_app; cbn; lia|]. split.
    + intros l1 t l2 -> Ht _. exfalso.
      assert (Hx : is_symbol_named (Symbol.name s) (@Symbol.of_symbol basic t) = false).
      { apply (find_none _ _ Hfind). apply in_or_app. right. left. reflexivity. }
      cbn in Hx. rewrite bool_decide_true in Hx by exact Ht. discriminate.
    + intros _. eexists. split; [reflexivity|]. cbn. auto.
Qed.

End SymbolArchivingFacts.

(** * Concrete runs *)

(** The trace of the six gammas of [six_indices], with 4 for the trace
    of the identity. *)
Lemma dirac_trace_six_gammas :
  exists t,
    dirac_trace 0xe1100 (fun _ => 0) 4 (ncmul (gamma_string 0 six_indices)) 0 (numeric 4)
    = ok (numeric 4 * t)%ex
    /\ (forall rho,
          denote rho (numeric 4 * t)%ex
          = denote rho (numeric 4 * trace_expansion 6 six_indices)%ex).
Proof.
  destruct (dirac_trace_even_gamma_string 0xe1100 (fun _ => 0) 3 0 (numeric 4) six_indices)
    as [t [Ht [Hden _]]].
  - repeat constructor.
  - exists 3%nat. reflexivity.
  - simpl. lia.
  - simpl. lia.
  - exists t. split; [exact Ht|exact Hden].
Defined.

(** The contraction of [gap_two_word]. *)
Lemma gamma_contraction_gap_two_run :
  diracgamma_contract_with 0 3 gap_two_word
  = ok (true,
        [(numeric 4 * indexed (minkmetric false) [varidx_D "a" false; varidx_D "b" false]
          * dirac_ONE 0
          + (symbol "D" - numeric 4) * clifford diracgamma [varidx_D "a" false] 0
            * clifford diracgamma [varidx_D "b" false] 0)%ex;
         _ex1; _ex1; _ex1]).
Proof.
  exact (gamma_contraction_gap_two gap_two_word 0 (varidx_D "mu" false) (varidx_D "a" false)
           (varidx_D "b" false) 0 0 0 (clifford diracgamma [varidx_D "mu" true] 0)
           eq_refl eq_refl eq_refl eq_refl eq_refl eq_refl eq_refl).
Defined.





(** A delta tensor and a metric tensor that share the index mu, with
    the dimensions D1 and D2. *)
Lemma replace_contr_index_incomparable_run :
  replace_contr_index is_dummy_pair_spec minimal_dim_spec delta_mu_nu_D1 metric_mu_rho_D2
  = ok (false, (delta_mu_nu_D1, metric_mu_rho_D2)).
Proof.
  refine (proj1 (replace_contr_index_incomparable_dimensions is_dummy_pair_spec
            minimal_dim_spec delta_mu_nu_D1 metric_mu_rho_D2
            (mk_idx (sym_value "mu") (sym_dim "D1") (class_varidx false))
            (mk_idx (sym_value "nu") (sym_dim "D1") (class_varidx false))
            (mk_idx (sym_value "mu") (sym_dim "D2") (class_varidx true))
            (runtime_error "minimal_dim(): index dimensions cannot be ordered")
            eq_refl _)).
  left. repeat split.
Defined.

(** [sorted_word] is normal, and sorted in the order of the names. *)
Lemma normal_forms_are_fixed_points_run :
  simplify_ncmul 0 sorted_word = ok (simplified_ncmul sorted_word 1)
  /\ canonicalize_clifford 0xe1100 (fun _ => 0) name_compare 0
       (symbol "m" * ncmul sorted_word + numeric 2)%ex
     = ok (symbol "m" * ncmul sorted_word + numeric 2)%ex.
Proof.
  apply (normal_forms_are_fixed_points 0xe1100 (fun _ => 0) name_compare 0 sorted_word).
  - discriminate.
  - reflexivity.
  - reflexivity.
Defined.

(** eps~A~B eps.A.C: the first slots match. *)
Lemma spinmetric_pair_contraction_run :
  exists self',
    spinmetric_contract_with is_dummy_pair_spec
      (indexed spinmetric [spinidx_2 "A" false; spinidx_2 "B" false])
      (indexed spinmetric [spinidx_2 "A" true; spinidx_2 "C" true])
    = ok (true, (self', _ex1))
    /\ self' = delta_tensor (spinidx_2 "B" false) (spinidx_2 "C" true).
Proof.
  destruct (spinmetric_pair_contraction is_dummy_pair_spec
              (spinidx_2 "A" false) (spinidx_2 "B" false)
              (spinidx_2 "A" true) (spinidx_2 "C" true))
    as [self' (Hrun & _ & _ & Hdelta & _)].
  - left. reflexivity.
  - exists self'. split; [exact Hrun|]. apply Hdelta; [reflexivity|discriminate].
Defined.

(** eps~A.A and the epsilon tensor with the indices i~, j~, i.. *)
Lemma self_contraction_evaluates_to_zero_run :
  spinmetric_eval_indexed is_dummy_pair_spec
    (indexed spinmetric [spinidx_2 "A" false; spinidx_2 "A" true]) = _ex0
  /\ forall minkowski pos_sig,
       tensepsilon_eval_indexed is_dummy_pair_spec minkowski pos_sig
         (indexed (tensepsilon minkowski pos_sig)
            [spinidx_2 "A" false; spinidx_2 "A" true]) = ok _ex0.
Proof.
  apply (self_contraction_evaluates_to_zero is_dummy_pair_spec
           [spinidx_2 "A" false; spinidx_2 "A" true] 0 1
           (spinidx_2 "A" false) (spinidx_2 "A" true)).
  - discriminate.
  - reflexivity.
  - reflexivity.
  - reflexivity.
Defined.

(** What the rewrite of [gap_three_word] leaves at [self]: a sum of two
    products, the second of which holds the two contracted gammas and
    every factor between them again. *)
Lemma gap_three_contraction_run :
  contract_with is_dummy_pair_spec minimal_dim_spec (fun _ => _ex0) 0 4 gap_three_word
  = ok (true,
        [(_ex2 * clifford diracgamma [varidx_D "c" false] 0
          * (_ex1 * clifford diracgamma [varidx_D "a" false] 0
             * clifford diracgamma [varidx_D "b" false] 0)
          - clifford diracgamma [varidx_D "mu" false] 0
            * (_ex1 * clifford diracgamma [varidx_D "a" false] 0
               * clifford diracgamma [varidx_D "b" false] 0)
            * clifford diracgamma [varidx_D "mu" true] 0
            * clifford diracgamma [varidx_D "c" false] 0)%ex;
         _ex1; _ex1; _ex1; _ex1]).
Proof. reflexivity. Qed.

(** gamma~mu gamma.mu in D dimensions. *)
Lemma gamma_contraction_gap_zero_run :
  diracgamma_contract_with 0 (0 + 1)
    [clifford diracgamma [varidx_D "mu" false] 0; clifford diracgamma [varidx_D "mu" true] 0]
  = ok (true, [ex_of_dim (get_dim (varidx_D "mu" false)); dirac_ONE 0]).
Proof.
  exact (gamma_contraction_gap_zero
           [clifford diracgamma [varidx_D "mu" false] 0;
            clifford diracgamma [varidx_D "mu" true] 0]
           0 (varidx_D "mu" false) 0 (clifford diracgamma [varidx_D "mu" true] 0)
           eq_refl eq_refl eq_refl).
Defined.

(** gamma~mu gamma~a gamma.mu in D dimensions. *)
Lemma gamma_contraction_gap_one_run :
  diracgamma_contract_with 0 (0 + 2)
    [clifford diracgamma [varidx_D "mu" false] 0; clifford diracgamma [varidx_D "a" false] 0;
     clifford diracgamma [varidx_D "mu" true] 0]
  = ok (true, [(_ex2 - ex_of_dim (get_dim (varidx_D "mu" false)))%ex;
               clifford diracgamma [varidx_D "a" false] 0; _ex1]).
Proof.
  exact (gamma_contraction_gap_one
           [clifford diracgamma [varidx_D "mu" false] 0;
            clifford diracgamma [varidx_D "a" false] 0;
            clifford diracgamma [varidx_D "mu" true] 0]
           0 (varidx_D "mu" false) 0
           (clifford diracgamma [varidx_D "a" false] 0)
           (clifford diracgamma [varidx_D "mu" true] 0)
           eq_refl eq_refl eq_refl eq_refl eq_refl).
Defined.

(** gamma~a gamma~a in D dimensions. *)
Lemma equal_adjacent_gammas_run :
  simplify_ncmul 0 [clifford diracgamma [varidx_D "a" false] 0;
                    clifford diracgamma [varidx_D "a" false] 0]
  = ok (nonsimplified_ncmul
          [indexed (minkmetric false) [varidx_D "a" false; varidx_D "a" false]; dirac_ONE 0] 1).
Proof. exact (equal_adjacent_gammas 0 (varidx_D "a" false) eq_refl). Defined.

(** gamma~mu gamma.mu and gamma~mu gamma~a gamma.mu in D dimensions,
    in one product. *)
Lemma gamma_contraction_short_gaps_run :
  diracgamma_contract_with 0 (0 + 1)
    [clifford diracgamma [varidx_D "mu" false] 0; clifford diracgamma [varidx_D "mu" true] 0;
     clifford diracgamma [varidx_D "mu" true] 0]
  = ok (true, [symbol "D"; dirac_ONE 0; clifford diracgamma [varidx_D "mu" true] 0])
  /\ diracgamma_contract_with 0 (0 + 2)
       [clifford diracgamma [varidx_D "mu" false] 0; clifford diracgamma [varidx_D "mu" true] 0;
        clifford diracgamma [varidx_D "mu" true] 0]
     = ok (true, [(_ex2 - symbol "D")%ex; clifford diracgamma [varidx_D "mu" true] 0; _ex1]).
Proof.
  destruct (gamma_contraction_short_gaps
              [clifford diracgamma [varidx_D "mu" false] 0;
               clifford diracgamma [varidx_D "mu" true] 0;
               clifford diracgamma [varidx_D "mu" true] 0]
              0 (varidx_D "mu" false) 0
              (clifford diracgamma [varidx_D "mu" true] 0)
              (clifford diracgamma [varidx_D "mu" true] 0) eq_refl eq_refl) as [H1 H2].
  split; [exact (H1 eq_refl)|exact (H2 eq_refl eq_refl eq_refl)].
Defined.

(** The rewrite of [gap_three_word] by the rule of the gammas. *)
Lemma gamma_contraction_long_gap_run :
  diracgamma_contract_with 0 4 gap_three_word
  = ok (true,
        [(_ex2 * clifford diracgamma [varidx_D "c" false] 0
          * (_ex1 * clifford diracgamma [varidx_D "a" false] 0
             * clifford diracgamma [varidx_D "b" false] 0)
          - clifford diracgamma [varidx_D "mu" false] 0
            * (_ex1 * clifford diracgamma [varidx_D "a" false] 0
               * clifford diracgamma [varidx_D "b" false] 0)
            * clifford diracgamma [varidx_D "mu" true] 0
            * clifford diracgamma [varidx_D "c" false] 0)%ex;
         _ex1; _ex1; _ex1; _ex1]).
Proof.
  refine (gamma_contraction_long_gap gap_three_word 0 4 (varidx_D "mu" false) 0
            (clifford diracgamma [varidx_D "mu" true] 0)
            (clifford diracgamma [varidx_D "c" false] 0)
            eq_refl eq_refl eq_refl _ eq_refl eq_refl).
  simpl. lia.
Defined.

(** The rewrite of [gap_three_word] keeps the five places. *)
Lemma contraction_rules_keep_the_frame_run :
  exists v',
    contract_with is_dummy_pair_spec minimal_dim_spec (fun _ => _ex0) 0 4 gap_three_word
    = ok (true, v')
    /\ length v' = length gap_three_word.
Proof.
  eexists. split; [reflexivity|].
  exact (proj1 (contraction_rules_keep_the_frame is_dummy_pair_spec minimal_dim_spec
                  (fun _ => _ex0) 0 4 gap_three_word _ true eq_refl)).
Defined.

(** delta~mu~nu g.mu.rho: the index mu of the metric tensor becomes nu. *)
Lemma a_contraction_consumes_a_dummy_pair_run :
  replace_contr_index is_dummy_pair_spec minimal_dim_spec delta_mu_nu metric_mu_rho
  = ok (true, (_ex1, indexed tensmetric [varidx_D "nu" false; varidx_D "rho" true]))
  /\ exists self_idx free_idx other_idx min_dim,
       (indices delta_mu_nu = [self_idx; free_idx] \/ indices delta_mu_nu = [free_idx; self_idx])
       /\ is_symbolic self_idx = true
       /\ other_idx ∈ indices metric_mu_rho
       /\ is_dummy_pair_spec self_idx other_idx = true
       /\ minimal_dim_spec self_idx other_idx = ok min_dim
       /\ indexed tensmetric [varidx_D "nu" false; varidx_D "rho" true]
          = subs_idx other_idx (replace_dim free_idx min_dim) metric_mu_rho
       /\ get_dim (replace_dim free_idx min_dim) = min_dim
       /\ get_value (replace_dim free_idx min_dim) = get_value free_idx.
Proof.
  split; [reflexivity|].
  exact (proj2 (a_contraction_consumes_a_dummy_pair is_dummy_pair_spec minimal_dim_spec
                  delta_mu_nu metric_mu_rho _ex1
                  (indexed tensmetric [varidx_D "nu" false; varidx_D "rho" true]) eq_refl)).
Defined.

(** [sorted_word] is returned as final, and no rule fires on it. *)
Lemma final_products_are_normal_run :
  simplify_ncmul 0 sorted_word = ok (simplified_ncmul sorted_word 1)
  /\ no_rule_fires sorted_word = true.
Proof.
  split; [reflexivity|].
  exact (proj2 (proj2 (proj2 (final_products_are_normal 0 sorted_word sorted_word 1 eq_refl)))).
Defined.

(** gamma~a gamma5 is handed on as gamma5 gamma~a with the sign -1. *)
Lemma a_pass_of_the_normalizer_makes_progress_run :
  simplify_ncmul 0 unsorted_word
  = ok (nonsimplified_ncmul [dirac_gamma5 0; clifford diracgamma [varidx_D "a" false] 0] (-1))
  /\ simpler [dirac_gamma5 0; clifford diracgamma [varidx_D "a" false] 0] unsorted_word.
Proof.
  split; [reflexivity|].
  exact (a_pass_of_the_normalizer_makes_progress 0 unsorted_word
           [dirac_gamma5 0; clifford diracgamma [varidx_D "a" false] 0] (-1) eq_refl).
Defined.


(** The evaluation of gamma~a gamma5 gamma~a with fuel for 40 passes. *)
Lemma the_normalizer_terminates_run :
  exists sign scalars word,
    eval_ncmul 40 0 three_factor_word = ok (sign, scalars, word) /\ (sign = 1 \/ sign = -1).
Proof.
  apply (the_normalizer_terminates 0 three_factor_word 40).
  - repeat constructor.
  - vm_compute. lia.
Defined.


(** delta~mu.mu and g~mu.mu with the dimensions D1 and D2. *)
Lemma incomparable_dimensions_run :
  tensdelta_eval_indexed is_dummy_pair_spec minimal_dim_spec
    (indexed tensdelta [mk_idx (sym_value "mu") (sym_dim "D1") (class_varidx false);
                        mk_idx (sym_value "mu") (sym_dim "D2") (class_varidx true)])
  = indexed tensdelta [mk_idx (sym_value "mu") (sym_dim "D1") (class_varidx false);
                       mk_idx (sym_value "mu") (sym_dim "D2") (class_varidx true)]
  /\ tensmetric_eval_indexed minimal_dim_spec
       (indexed tensmetric [mk_idx (sym_value "mu") (sym_dim "D1") (class_varidx false);
                            mk_idx (sym_value "mu") (sym_dim "D2") (class_varidx true)])
     = throw (runtime_error "minimal_dim(): index dimensions cannot be ordered").
Proof.
  destruct (incomparable_dimensions_delta_holds_metric_throws is_dummy_pair_spec
              minimal_dim_spec false
              (mk_idx (sym_value "mu") (sym_dim "D1") (class_varidx false))
              (mk_idx (sym_value "mu") (sym_dim "D2") (class_varidx true))
              (runtime_error "minimal_dim(): index dimensions cannot be ordered") eq_refl)
    as [Hdelta Hmetric].
  split; [exact (Hdelta eq_refl)|].
  refine (proj1 (Hmetric _)). discriminate.
Defined.

(** eps~0~1~2~3 = 1 and eps.0.1.2.3 = -1. *)
Lemma lowering_all_indices_run :
  exists z,
    tensepsilon_eval_indexed is_dummy_pair_spec true false
      (indexed (tensepsilon true false)
         [varidx_4 0 false; varidx_4 1 false; varidx_4 2 false; varidx_4 3 false])
    = ok (numeric z)
    /\ tensepsilon_eval_indexed is_dummy_pair_spec true false
         (indexed (tensepsilon true false)
            (toggle_variance
               <$> [varidx_4 0 false; varidx_4 1 false; varidx_4 2 false; varidx_4 3 false]))
       = ok (numeric (- z)).
Proof.
  apply (lowering_all_indices_flips_the_lorentz_epsilon is_dummy_pair_spec false
           [varidx_4 0 false; varidx_4 1 false; varidx_4 2 false; varidx_4 3 false]);
    try reflexivity.
  repeat constructor.
Defined.

(** eps~a~b~c~d eps.a.b.c.d in Minkowski space. *)
Lemma lorentz_epsilons_contract_run :
  tensepsilon_contract_with (fun _ => symbol "det") true false
    (indexed (tensepsilon true false)
       [varidx_sym4 "a" false; varidx_sym4 "b" false; varidx_sym4 "c" false;
        varidx_sym4 "d" false])
    (indexed (tensepsilon true false)
       [varidx_sym4 "a" true; varidx_sym4 "b" true; varidx_sym4 "c" true;
        varidx_sym4 "d" true])
  = ok (true, ((numeric (-1) * symbol "det")%ex, _ex1)).
Proof.
  exact (lorentz_epsilons_contract_to_a_determinant (fun _ => symbol "det")
           (varidx_sym4 "a" false) (varidx_sym4 "b" false) (varidx_sym4 "c" false)
           (varidx_sym4 "d" false)
           (varidx_sym4 "a" true) (varidx_sym4 "b" true) (varidx_sym4 "c" true)
           (varidx_sym4 "d" true) false false _ _ eq_refl eq_refl).
Defined.

(** eps~i~j eps~k~l with indices without a variance: a determinant of
    delta tensors. *)
Lemma euclidean_epsilons_run :
  tensepsilon_contract_with (fun _ => symbol "det") false false
    (indexed (tensepsilon false false) [idx_2 "i"; idx_2 "j"])
    (indexed (tensepsilon false false) [idx_2 "k"; idx_2 "l"])
  = ok (true, ((numeric 1 * symbol "det")%ex, _ex1)).
Proof.
  exact (proj1 (euclidean_epsilons_need_one_class_of_indices (fun _ => symbol "det")
                  [idx_2 "i"; idx_2 "j"] [idx_2 "k"; idx_2 "l"] (idx_2 "i") eq_refl eq_refl)
           eq_refl).
Defined.

(** The traces of the gammas of mu, nu, rho, sig in this order and with
    mu at the end, where a metric tensor has the value
    [sum_of_name_lengths]. *)
Lemma trace_of_gammas_is_cyclic_run :
  exists t t',
    dirac_trace 0xe1100 (fun _ => 0) 3
      (ncmul (gamma_string 0 [varidx_D "mu" false; varidx_D "nu" false;
                              varidx_D "rho" false; varidx_D "sig" false])) 0 (numeric 4)
    = ok t
    /\ dirac_trace 0xe1100 (fun _ => 0) 3
         (ncmul (gamma_string 0 [varidx_D "nu" false; varidx_D "rho" false;
                                 varidx_D "sig" false; varidx_D "mu" false])) 0 (numeric 4)
       = ok t'
    /\ denote sum_of_name_lengths t = denote sum_of_name_lengths t'.
Proof.
  refine (proj1 (trace_of_gammas_is_cyclic 0xe1100 (fun _ => 0) 0 0 (numeric 4)
                   (varidx_D "mu" false) (varidx_D "nu" false) (varidx_D "rho" false)
                   (varidx_D "sig" false) (varidx_D "kap" false) (varidx_D "lam" false)
                   sum_of_name_lengths _ _)).
  - repeat constructor.
  - intros a b. simpl. lia.
Defined.

(** The number 300 takes two bytes and is read back. *)
Lemma read_unsigned_inverts_write_unsigned_run :
  Archive.read_unsigned (Archive.write_unsigned 300 ++ [7%N]) = Archive.returns (300%N, [7%N])
  <-> Archive.writable 300 = true.
Proof. apply (read_unsigned_inverts_write_unsigned 300 [7%N]). reflexivity. Defined.

(** The number 0x80 is written as the one byte 0x80, after which
    [read_unsigned] waits for another byte. *)
Lemma write_unsigned_0x80_is_not_read_back :
  Archive.write_unsigned 0x80 = [0x80%N]
  /\ Archive.read_unsigned (Archive.write_unsigned 0x80) = Archive.throws Archive.end_of_stream
  /\ Archive.read_unsigned (Archive.write_unsigned 0x80 ++ [1%N]) = Archive.returns (0x80%N, []).
Proof. repeat split. Qed.

(** The search for a label in the node of the symbol x. *)
Lemma find_of_an_unknown_name_run :
  Archive.find_unsigned 1 symbol_archive_x symbol_node "label" 9%N
  = (false, 9%N,
     Archive.mk_archive ["class"; "symbol"; "name"; "x"; "label"] [Archive.mk_archived_ex 3 0]
       [symbol_node]).
Proof.
  refine (proj1 (proj2 (find_of_an_unknown_name 0 1 2 symbol_archive_x symbol_node "label"
                          false 9%N EmptyString _ _))).
  - intros H. repeat (apply elem_of_cons in H as [H|H]; [discriminate H|]).
    inversion H.
  - repeat constructor.
Defined.

(** A second string property, the value of which is an atom already. *)
Lemma find_string_after_add_string_run :
  let s := Archive.add_string 2 true symbol_archive_x symbol_node "prefix" "symbol" in
  Archive.find_string 2 s.1 s.2 "prefix" EmptyString = Archive.returns (true, "symbol", s.1).
Proof.
  apply (find_string_after_add_string 2 true symbol_archive_x symbol_node "prefix" "symbol"
           EmptyString).
  - repeat constructor.
  - intros p Hp _.
    repeat (apply elem_of_cons in Hp as [->|Hp]; [discriminate|]). inversion Hp.
Defined.

(** The archive of the symbol x, written and read into an empty
    archive, with 1 for the version of the format. *)
Lemma read_archive_write_archive_run :
  Archive.read_archive 0%N 1 1 (fun _ => EmptyString) (Archive.mk_archive [] [] [])
    (Archive.write_archive 1 symbol_archive_x)
  = Archive.returns (symbol_archive_x, []).
Proof.
  pose proof (read_archive_write_archive 0%N 1 1 (fun _ => EmptyString)
                (Archive.mk_archive [] [] []) symbol_archive_x [] eq_refl eq_refl) as H.
  rewrite app_nil_r in H. apply H. discriminate.
Defined.

(** The node of the symbol x, unarchived by a function that answers
    with the handle 7. *)
Lemma unarchive_caches_the_expression_run :
  exists a',
    Archive.unarchive_at 2 (fun _ a _ => Archive.returns (7%N, a)) symbol_archive_x 0
    = Archive.returns (7%N, a')
    /\ Archive.unarchive_at 2 (fun _ a _ => Archive.returns (7%N, a)) a' 0
       = Archive.returns (7%N, a').
Proof.
  eexists. split; [reflexivity|].
  refine (proj1 (unarchive_caches_the_expression 2 0%N
                   (fun _ a _ => Archive.returns (7%N, a)) _ symbol_archive_x _ 0 7%N eq_refl)).
  intros cls a n h a' [= _ <-]. reflexivity.
Defined.

(** The expression with the handle 5, archived under the name y by a
    class that stores nothing. *)
Lemma archive_ex_then_unarchive_ex_run :
  let ar' := Archive.archive_ex (fun h => h) (fun _ a n => (a, n)) symbol_archive_x 5%N "y" in
  exists h,
    Archive.unarchive_ex_by_name 2 (fun _ a _ => Archive.returns (7%N, a)) ar' "y"
    = Archive.returns (h, ar')
    /\ h = 5%N
    /\ ((N.of_nat (length (Archive.exprs symbol_archive_x)) + 1 < 2 ^ 32)%N ->
        Archive.num_expressions ar' = (Archive.num_expressions symbol_archive_x + 1)%N).
Proof.
  apply (archive_ex_then_unarchive_ex 2 (fun h => h) (fun _ a n => (a, n))
           (fun _ a _ => Archive.returns (7%N, a))).
  - intros h a n. split; reflexivity.
  - reflexivity.
  - reflexivity.
  - intros x Hx. apply elem_of_cons in Hx as [->|Hx]; [|inversion Hx].
    split; [reflexivity|discriminate].
Defined.

(** The members of a Clifford object with the label 3, of the metric of
    the signature (+,-,-,-) and of the epsilon tensor of Minkowski
    space, stored in the node of the symbol x. *)
Lemma archived_members_come_back_run :
  let c := clifford_archive 1 (fun a n => (a, n)) symbol_archive_x symbol_node 3 in
  let g := minkmetric_archive 0 (fun a n => (a, n)) symbol_archive_x symbol_node false in
  let t := tensepsilon_archive 0 (fun a n => (a, n)) symbol_archive_x symbol_node true false in
  clifford_unarchive 1 c.1 c.2 0 = (3%N, c.1)
  /\ minkmetric_unarchive 0 g.1 g.2 true = (false, g.1)
  /\ tensepsilon_unarchive 0 t.1 t.2 false true = (true, false, t.1).
Proof.
  apply (archived_members_come_back 0 1 (fun a n => (a, n)) symbol_archive_x symbol_node
           3 0 true false false true).
  - repeat constructor.
  - intros p Hp. repeat (apply elem_of_cons in Hp as [->|Hp]; [discriminate|]).
    inversion Hp.
  - intros p Hp. repeat (apply elem_of_cons in Hp as [->|Hp]; [discriminate|]).
    inversion Hp.
  - intros p Hp. repeat (apply elem_of_cons in Hp as [->|Hp]; [discriminate|]).
    inversion Hp.
  - reflexivity.
Defined.

(** Two symbols with the name x. *)
Lemma symbols_of_separate_constructions_differ_run :
  Symbol.compare_same_type symbol_x (Symbol.mk_symbol "x" 1 1 6) = (-1)%Z
  /\ Symbol.derivative 0%Z 1%Z symbol_x (Symbol.mk_symbol "x" 1 1 6) = Symbol.of_basic 0%Z.
Proof.
  destruct (symbols_of_separate_constructions_differ Z 0%Z 1%Z 2 4 ["x"; "x"]
              (Symbol.mk_memory 0 []) 0 1 symbol_x (Symbol.mk_symbol "x" 1 1 6)
              (Symbol.of_basic 5%Z))
    as (_ & _ & Hd & _ & Hlt); try reflexivity.
  - discriminate.
  - discriminate.
  - split; [|exact Hd]. apply Hlt; [discriminate|lia].
Defined.

(** The value 5 assigned to a copy of the symbol x. *)
Lemma copies_share_the_assignment_run :
  exists m2 : Symbol.memory Z,
    Symbol.eval 2 1024 (fun s => Symbol.setflag s 2) (fun e _ _ => Archive.returns e)
      symbol_x 1 m2
    = Archive.returns (Symbol.of_basic 5%Z, Symbol.setflag symbol_x 2)
    /\ Symbol.info_at m2 0
       = Archive.returns (Symbol.mk_assigned_ex_info true (Symbol.of_basic 5%Z) 2).
Proof.
  exists (Symbol.mk_memory 1
            [Some (Symbol.mk_assigned_ex_info true (Symbol.of_basic 5%Z) 2)]).
  split; [|reflexivity].
  refine (proj1 (proj2 (copies_share_the_assignment Z 0%Z 2 4 1024
                          (fun s => Symbol.setflag s 2) (fun e _ _ => Archive.returns e)
                          (fun f => f) symbol_x symbol_x (Symbol.clearflag symbol_x 6)
                          (Symbol.of_basic 5%Z) heap_of_x
                          (Symbol.mk_memory 1
                             [Some (Symbol.mk_assigned_ex_info false (Symbol.of_basic 0%Z) 2)])
                          (Symbol.mk_memory 1
                             [Some (Symbol.mk_assigned_ex_info true (Symbol.of_basic 5%Z) 2)])
                          _ eq_refl eq_refl))).
  discriminate.
Defined.

(** The symbol x, archived and unarchived with a list that holds a
    symbol of this name with the serial number 9. *)
Lemma an_archived_symbol_comes_back_by_name_run :
  let p := symbol_archive 2 (fun a n => (a, n)) true (Archive.mk_archive [] [] [])
             (Archive.mk_archive_node [] false 0%N) symbol_x in
  exists m',
    symbol_unarchive 0%Z 2 1 (fun _ => EmptyString) 2 p.1 p.2
      [Symbol.of_basic 4%Z; Symbol.of_symbol (Symbol.mk_symbol "x" 9 0 6)] heap_of_x
    = Archive.returns (Symbol.of_symbol (Symbol.mk_symbol "x" 9 0 6), m', p.1)
    /\ Symbol.next_serial m' = 2%N.
Proof.
  destruct (an_archived_symbol_comes_back_by_name 0%Z 2 1 (fun _ => EmptyString) 2
              (fun a n => (a, n)) true (Archive.mk_archive [] [] [])
              (Archive.mk_archive_node [] false 0%N) symbol_x
              [Symbol.of_basic 4%Z; Symbol.of_symbol (Symbol.mk_symbol "x" 9 0 6)] heap_of_x)
    as (r & m' & Hrun & Hserial & _ & Hfirst & _).
  - constructor.
  - intros p Hp. inversion Hp.
  - rewrite (Hfirst [Symbol.of_basic 4%Z] (Symbol.mk_symbol "x" 9 0 6) [] eq_refl eq_refl)
      in Hrun by (repeat constructor).
    exists m'. split; [exact Hrun|exact Hserial].
Defined.
